(** * OpenClaw FIDO2 secrets: key management CLI and exec-provider resolver

    A shallow embedding of

    - [scripts/fido2-keys/src/types.ts]   (modules [Fido2StoredKey], ...),
    - [scripts/fido2-keys/src/crypto.ts]  (module [Crypto]),
    - [scripts/fido2-keys/src/fido2.ts]   (module [Fido2]),
    - [scripts/fido2-keys/src/cli.ts]     (modules [Cli] and [Commands]),
    - [scripts/fido2-resolver.mjs]        (module [Resolver]),

    followed by the properties of the design document that can be stated
    about them.

    Conventions.  A JavaScript string is the list of its UTF-16 code units;
    a [Uint8Array]/[Buffer] is a list of bytes.  What [JSON.parse] returns,
    be it a request or the content of the store file, is a value of [Json]:
    the program checks very little of it, and what it does with a value of
    another shape than it expects is part of the embedding.  [async]
    functions are computations in the monad [M]: they thread a [World] (the
    store file and whether it can be written, the random source, the clock,
    the operator's answers to prompts and the trace of calls that left the
    process) and either return or throw.  The [values] and [errors] of a
    response are finite maps: the properties [JSON.stringify] prints.  Both
    start as object literals, so the key [__proto__] is special: see
    [Resolver.set_value] and [Resolver.set_error].  Console output is not
    modelled, nor what is wrong with the lines of [cli.ts] that only print,
    but the conversions to string that build a message are, since they can
    throw.  [webcrypto.subtle], [Buffer] and the printing of large numbers
    are parameters ([Platform]); that [subtle.deriveKey] refuses a base key
    that is no [CryptoKey] is not: see [WebCrypto.subtle_deriveKey]. *)

From stdpp Require Import base numbers option list gmap strings.
From Stdlib Require Import NArith ZArith Lia Strings.Byte.

#[local] Open Scope N_scope.
Set Warnings "-register-all".

Abbreviation jsstring := (list N).
Abbreviation bytes := (list byte).

#[global] Instance byte_eq_dec : EqDecision byte := Byte.byte_eq_dec.

(** ** Text encoding (the platform's [TextEncoder] and [TextDecoder])

    [TextEncoder.encode] first converts its argument to a sequence of Unicode
    scalar values (unpaired surrogates become U+FFFD), then emits UTF-8.
    [new TextDecoder().decode] runs the UTF-8 decoder of the Encoding
    Standard (malformed sequences become U+FFFD), and, as [ignoreBOM] is left
    at its default, drops a leading U+FEFF. *)

Module Encoding.

Definition REPLACEMENT : N := 0xFFFD.
Definition BOM : N := 0xFEFF.

Definition is_lead_surrogate (c : N) : bool := (0xD800 <=? c) && (c <=? 0xDBFF).
Definition is_trail_surrogate (c : N) : bool := (0xDC00 <=? c) && (c <=? 0xDFFF).

(** Code units to scalar values. *)
Fixpoint to_scalars (s : jsstring) : list N :=
  match s with
  | [] => []
  | c :: tl =>
      if is_lead_surrogate c then
        match tl with
        | d :: tl' =>
            if is_trail_surrogate d
            then (0x10000 + (c - 0xD800) * 0x400 + (d - 0xDC00)) :: to_scalars tl'
            else REPLACEMENT :: to_scalars tl
        | [] => [REPLACEMENT]
        end
      else if is_trail_surrogate c then REPLACEMENT :: to_scalars tl
      else c :: to_scalars tl
  end.

(** The UTF-8 encoder, one scalar value at a time; a shift by [6 * k] bits is
    written as a division by [64 ^ k]. *)
Definition utf8_encode_scalar (c : N) : list N :=
  if c <=? 0x7F then [c]
  else if c <=? 0x7FF then [0xC0 + c / 64; 0x80 + c mod 64]
  else if c <=? 0xFFFF then
    [0xE0 + c / 4096; 0x80 + (c / 64) mod 64; 0x80 + c mod 64]
  else
    [0xF0 + c / 262144; 0x80 + (c / 4096) mod 64;
     0x80 + (c / 64) mod 64; 0x80 + c mod 64].

Definition utf8_encode (cs : list N) : list N := concat (map utf8_encode_scalar cs).

(** The UTF-8 decoder's state while a multi-byte sequence is open. *)
Record Pending := { code_point : N; bytes_needed : nat; lower : N; upper : N }.

Inductive Lead := Emit (c : N) | Start (p : Pending) | Invalid.

Definition utf8_lead (b : N) : Lead :=
  if b <=? 0x7F then Emit b
  else if (0xC2 <=? b) && (b <=? 0xDF) then
    Start {| code_point := b - 0xC0; bytes_needed := 1; lower := 0x80; upper := 0xBF |}
  else if (0xE0 <=? b) && (b <=? 0xEF) then
    Start {| code_point := b - 0xE0; bytes_needed := 2;
             lower := if b =? 0xE0 then 0xA0 else 0x80;
             upper := if b =? 0xED then 0x9F else 0xBF |}
  else if (0xF0 <=? b) && (b <=? 0xF4) then
    Start {| code_point := b - 0xF0; bytes_needed := 3;
             lower := if b =? 0xF0 then 0x90 else 0x80;
             upper := if b =? 0xF4 then 0x8F else 0xBF |}
  else Invalid.

(** A byte outside the expected range ends the open sequence with U+FFFD and
    is then read again as the start of a new one. *)
Fixpoint utf8_decode_from (st : option Pending) (bs : list N) : list N :=
  match bs with
  | [] => match st with None => [] | Some _ => [REPLACEMENT] end
  | b :: bs' =>
      let fresh :=
        match utf8_lead b with
        | Emit c => c :: utf8_decode_from None bs'
        | Start p => utf8_decode_from (Some p) bs'
        | Invalid => REPLACEMENT :: utf8_decode_from None bs'
        end in
      match st with
      | None => fresh
      | Some p =>
          if (lower p <=? b) && (b <=? upper p) then
            let cp := code_point p * 64 + (b - 0x80) in
            match bytes_needed p with
            | S (S n) =>
                utf8_decode_from
                  (Some {| code_point := cp; bytes_needed := S n;
                           lower := 0x80; upper := 0xBF |}) bs'
            | _ => cp :: utf8_decode_from None bs'
            end
          else REPLACEMENT :: fresh
      end
  end.

Definition utf8_decode (bs : list N) : list N := utf8_decode_from None bs.

Definition strip_bom (cs : list N) : list N :=
  match cs with
  | c :: tl => if c =? BOM then tl else cs
  | [] => []
  end.

Definition utf16_encode_scalar (c : N) : jsstring :=
  if c <? 0x10000 then [c]
  else [0xD800 + (c - 0x10000) / 0x400; 0xDC00 + (c - 0x10000) mod 0x400].

Definition from_scalars (cs : list N) : jsstring := concat (map utf16_encode_scalar cs).

Definition byte_of_N (n : N) : byte := default Byte.x00 (Byte.of_N n).

Definition TextEncoder_encode (s : jsstring) : bytes :=
  map byte_of_N (utf8_encode (to_scalars s)).

Definition TextDecoder_decode (bs : bytes) : jsstring :=
  from_scalars (strip_bom (utf8_decode (map Byte.to_N bs))).

(** Strings the codec carries unchanged: every code unit is 16 bits wide and
    every surrogate is paired. *)
Fixpoint well_formed (s : jsstring) : bool :=
  match s with
  | [] => true
  | c :: tl =>
      if is_lead_surrogate c then
        match tl with
        | d :: tl' => is_trail_surrogate d && well_formed tl'
        | [] => false
        end
      else negb (is_trail_surrogate c) && (c <? 0x10000) && well_formed tl
  end.

Definition starts_with_bom (s : jsstring) : bool :=
  match s with c :: _ => c =? BOM | [] => false end.

Definition is_scalar_value (c : N) : bool :=
  (c <? 0x110000) && negb ((0xD800 <=? c) && (c <=? 0xDFFF)).

(** String literals of this file: the UTF-8 bytes of a Rocq string, read as
    the source text they stand for. *)
Definition js (s : string) : jsstring :=
  TextDecoder_decode (String.list_byte_of_string s).

Fixpoint digits (u : Decimal.uint) : jsstring :=
  match u with
  | Decimal.Nil => []
  | Decimal.D0 u => 0x30 :: digits u
  | Decimal.D1 u => 0x31 :: digits u
  | Decimal.D2 u => 0x32 :: digits u
  | Decimal.D3 u => 0x33 :: digits u
  | Decimal.D4 u => 0x34 :: digits u
  | Decimal.D5 u => 0x35 :: digits u
  | Decimal.D6 u => 0x36 :: digits u
  | Decimal.D7 u => 0x37 :: digits u
  | Decimal.D8 u => 0x38 :: digits u
  | Decimal.D9 u => 0x39 :: digits u
  end.

(** [String(n)] for a non-negative integer. *)
Definition decimal (n : N) : jsstring := digits (N.to_uint n).

Fixpoint starts_with (s prefix : jsstring) : bool :=
  match prefix, s with
  | [], _ => true
  | p :: prefix', c :: s' => (c =? p) && starts_with s' prefix'
  | _ :: _, [] => false
  end.

(** [String.prototype.includes]. *)
Fixpoint includes (s sub : jsstring) : bool :=
  starts_with s sub ||
  match s with
  | [] => false
  | _ :: s' => includes s' sub
  end.

End Encoding.

Export Encoding.

(** ** Exceptions *)

(** A thrown [Error]: its [name], its [code] when the platform sets one
    (Node's file-system errors do), and its [message]. *)
Record JsError := {
  err_name : jsstring;
  err_code : option jsstring;
  err_message : jsstring }.

Definition Error (message : jsstring) : JsError :=
  {| err_name := js "Error"; err_code := None; err_message := message |}.

Definition TypeError (message : jsstring) : JsError :=
  {| err_name := js "TypeError"; err_code := None; err_message := message |}.

Inductive Outcome (A : Type) : Type :=
| Ok (a : A)
| Throw (e : JsError).

Arguments Ok {A} a.
Arguments Throw {A} e.

(** Truthiness of a string. *)
Definition truthy (s : jsstring) : bool :=
  match s with [] => false | _ :: _ => true end.

(** [error.message || String(error)]: [String] of an error whose message is
    empty is its name. *)
Definition error_text (error : JsError) : jsstring :=
  if truthy (err_message error) then err_message error else err_name error.

(** ** JSON values

    What [JSON.parse] returns.  A number is a double: [JNumber n] is the
    number whose text is the integer [n] (the double nearest to it),
    [JDouble text] a finite number that is no integer, given by what [String]
    prints for it, and [JInfinity] what a literal too large for a double
    (such as [1e999]) parses to.  An object is the list of its members in the
    order of the text; of a repeated key the last occurrence counts. *)

Inductive Json :=
| JNull
| JBool (b : bool)
| JNumber (n : Z)
| JDouble (text : jsstring)
| JInfinity (negative : bool)
| JString (s : jsstring)
| JArray (items : list Json)
| JObject (fields : list (jsstring * Json)).

(** The value of an own property of an object that [JSON.parse] built. *)
Fixpoint own_property (name : jsstring) (fields : list (jsstring * Json))
    : option Json :=
  match fields with
  | [] => None
  | (k, v) :: rest =>
      match own_property name rest with
      | Some v' => Some v'
      | None => if bool_decide (k = name) then Some v else None
      end
  end.

(** [value.name] for a value other than [null] and a [name] that the
    prototypes of [Object], [Array], [String], [Number] and [Boolean] do not
    have (the program reads [id], [label], [encryptedValue], [iv],
    [credentialId], [credentialPublicKey], [protocolVersion], [provider] and
    [ids]); [None] is [undefined]. *)
Definition property (value : Json) (name : jsstring) : option Json :=
  match value with
  | JObject fields => own_property name fields
  | _ => None
  end.

Definition json_truthy (v : option Json) : bool :=
  match v with
  | None | Some JNull | Some (JBool false) | Some (JNumber 0%Z) | Some (JString []) => false
  | Some _ => true
  end.

(** [a && b] and [a || b]. *)
Definition js_and (a b : option Json) : option Json :=
  if json_truthy a then b else a.

Definition js_or (a b : option Json) : option Json :=
  if json_truthy a then a else b.

(** [v === n] and [v === s]. *)
Definition is_number (n : Z) (v : option Json) : bool :=
  match v with Some (JNumber m) => (m =? n)%Z | _ => false end.

Definition is_string (s : jsstring) (v : option Json) : bool :=
  match v with Some (JString s') => bool_decide (s' = s) | _ => false end.

Definition Array_isArray (v : option Json) : bool :=
  match v with Some (JArray _) => true | _ => false end.

Definition array_items (v : option Json) : list Json :=
  match v with Some (JArray items) => items | _ => [] end.

(** What [JSON.parse] reads back from what [JSON.stringify] printed: a
    number that is not finite is printed as [null]. *)
Fixpoint printed (v : Json) : Json :=
  match v with
  | JInfinity _ => JNull
  | JArray items => JArray (map printed items)
  | JObject fields => JObject (map (fun member => (fst member, printed (snd member))) fields)
  | _ => v
  end.

(** ** The platform's cryptography: data *)

Inductive HashAlgorithm := SHA_256.

Inductive KeyUsage := UsageEncrypt | UsageDecrypt.

Inductive KdfAlgorithm :=
| PBKDF2 (salt : bytes) (iterations : N) (hash : HashAlgorithm).

Inductive KeyAlgorithm :=
| AES_GCM (length : N).

Inductive CipherAlgorithm :=
| AES_GCM_with (iv : bytes).

Record CryptoKey := {
  algorithm : KeyAlgorithm;
  extractable : bool;
  usages : list KeyUsage;
  material : bytes }.

(** ** The records of [types.ts]

    Each interface is a module with its record [t], so that the fields keep
    their names.  A stored key has its [id], [label], [encryptedValue], [iv],
    [createdAt], [rpId] and [userHandle]; [credentialId] and
    [credentialPublicKey] are optional.  [Fido2StoredKey.to_json] is the
    object such a record is in the store. *)

Module Fido2StoredKey.
Record t := {
  id : jsstring;
  label : jsstring;
  encryptedValue : jsstring;
  iv : jsstring;
  createdAt : N;
  rpId : jsstring;
  userHandle : jsstring;
  credentialId : option jsstring;
  credentialPublicKey : option jsstring }.

Definition optional (name : jsstring) (v : option jsstring)
    : list (jsstring * Json) :=
  match v with Some s => [(name, JString s)] | None => [] end.

Definition to_json (k : t) : Json :=
  JObject ([ (js "id", JString (id k));
             (js "label", JString (label k));
             (js "encryptedValue", JString (encryptedValue k));
             (js "iv", JString (iv k));
             (js "createdAt", JNumber (Z.of_N (createdAt k)));
             (js "rpId", JString (rpId k));
             (js "userHandle", JString (userHandle k)) ]
           ++ optional (js "credentialId") (credentialId k)
           ++ optional (js "credentialPublicKey") (credentialPublicKey k)).
End Fido2StoredKey.

Module Fido2CredentialResult.
Record t := {
  credentialId : jsstring;
  publicKey : bytes;
  authenticatorData : bytes }.
End Fido2CredentialResult.

Module Fido2AssertionResult.
Record t := {
  authenticatorData : bytes;
  signature : bytes;
  userHandle : bytes }.
End Fido2AssertionResult.

Module EncryptedResult.
Record t := {
  encrypted : jsstring;
  iv : jsstring }.
End EncryptedResult.

(** ** The world outside the process *)

(** The text of the store file: [JSON.parse] rejects it or reads a value. *)
Inductive FileText :=
| Unparseable (syntax_error : jsstring)
| Text (v : Json).

(** [~/.openclaw/fido2-keys.json]. *)
Inductive FileState :=
| Absent (enoent : jsstring)
| Unreadable (code message : jsstring)
| Present (t : FileText).

(** The calls that leave the process or reach the platform's cryptography,
    in the order they are made, [subtle.deriveKey] with its arguments. *)
Inductive Event :=
| ReadFile
| WriteFile (keys : list Json)
| CreateCredential (userId userName : jsstring)
| GetCredential (credentialId : Json) (challenge : bytes)
| Confirm (message : jsstring) (answer : bool)
| SubtleDeriveKey (algorithm : KdfAlgorithm) (baseKey : bytes)
    (derivedKeyType : KeyAlgorithm) (extractable : bool) (keyUsages : list KeyUsage)
| SubtleEncrypt
| SubtleDecrypt.

(** The store file, and the error that creating its directory or writing it
    meets, if any; the random source and how much of it has been drawn; the
    clock and how often it has been read; the operator's answers to the
    confirmation prompts and how many have been asked; the trace. *)
Record World := {
  file : FileState;
  write_error : option JsError;
  entropy : nat -> byte;
  drawn : nat;
  clock : nat -> N;
  ticks : nat;
  answers : nat -> bool;
  asked : nat;
  trace : list Event }.

Definition set_file (f : FileState) (w : World) : World :=
  {| file := f; write_error := write_error w; entropy := entropy w;
     drawn := drawn w; clock := clock w; ticks := ticks w;
     answers := answers w; asked := asked w; trace := trace w |}.

Definition set_drawn (n : nat) (w : World) : World :=
  {| file := file w; write_error := write_error w; entropy := entropy w;
     drawn := n; clock := clock w; ticks := ticks w;
     answers := answers w; asked := asked w; trace := trace w |}.

Definition set_ticks (n : nat) (w : World) : World :=
  {| file := file w; write_error := write_error w; entropy := entropy w;
     drawn := drawn w; clock := clock w; ticks := n;
     answers := answers w; asked := asked w; trace := trace w |}.

Definition set_asked (n : nat) (w : World) : World :=
  {| file := file w; write_error := write_error w; entropy := entropy w;
     drawn := drawn w; clock := clock w; ticks := ticks w;
     answers := answers w; asked := n; trace := trace w |}.

Definition log (e : Event) (w : World) : World :=
  {| file := file w; write_error := write_error w; entropy := entropy w;
     drawn := drawn w; clock := clock w; ticks := ticks w;
     answers := answers w; asked := asked w; trace := trace w ++ [e] |}.

(** ** Computations *)

(** An [async] function: from the world before to its outcome and the world
    after. *)
Definition M (A : Type) : Type := World -> Outcome A * World.

Definition ret {A} (a : A) : M A := fun w => (Ok a, w).

Definition bind {A B} (m : M A) (k : A -> M B) : M B :=
  fun w =>
    match m w with
    | (Ok a, w') => k a w'
    | (Throw e, w') => (Throw e, w')
    end.

Definition throw {A} (e : JsError) : M A := fun w => (Throw e, w).

(** [try { m } catch (error) { handler }]. *)
Definition try_catch {A} (m : M A) (handler : JsError -> M A) : M A :=
  fun w =>
    match m w with
    | (Ok a, w') => (Ok a, w')
    | (Throw e, w') => handler e w'
    end.

Definition lift {A} (o : Outcome A) : M A := fun w => (o, w).

Definition emit (e : Event) : M unit := fun w => (Ok tt, log e w).

#[global] Instance M_ret : MRet M := @ret.
#[global] Instance M_bind : MBind M := fun A B k m => bind m k.

(** [fs.readFile(STORAGE_PATH, 'utf-8')]. *)
Definition fs_readFile : M FileText :=
  fun w =>
    match file w with
    | Absent msg =>
        (Throw {| err_name := js "Error"; err_code := Some (js "ENOENT");
                  err_message := msg |}, log ReadFile w)
    | Unreadable code msg =>
        (Throw {| err_name := js "Error"; err_code := Some code;
                  err_message := msg |}, log ReadFile w)
    | Present t => (Ok t, log ReadFile w)
    end.

(** [fs.mkdir] of the directory, then [fs.writeFile] of
    [JSON.stringify(keys, null, 2)]: either it fails, as it does for a path
    that is a directory or may not be written, and the file is as it was, or
    the file then parses to what was printed.  (A write that fails half-way
    and leaves a damaged file is not modelled.) *)
Definition fs_writeFile (keys : list Json) : M unit :=
  fun w =>
    match write_error w with
    | Some error => (Throw error, log (WriteFile keys) w)
    | None =>
        (Ok tt, log (WriteFile keys)
                  (set_file (Present (Text (JArray (map printed keys)))) w))
    end.

Definition JSON_parse (t : FileText) : M Json :=
  match t with
  | Unparseable msg =>
      throw {| err_name := js "SyntaxError"; err_code := None; err_message := msg |}
  | Text v => ret v
  end.

(** [webcrypto.getRandomValues(new Uint8Array(n))]. *)
Definition getRandomValues (n : nat) : M bytes :=
  fun w => (Ok (map (entropy w) (seq (drawn w) n)), set_drawn (drawn w + n)%nat w).

(** [Date.now()]. *)
Definition Date_now : M N :=
  fun w => (Ok (clock w (ticks w)), set_ticks (S (ticks w)) w).

(** [confirm({ message, defaultValue: false })] of [@clack/prompts]; the
    result is read for its truthiness only. *)
Definition confirm (message : jsstring) : M bool :=
  fun w =>
    let answer := answers w (asked w) in
    (Ok answer, log (Confirm message answer) (set_asked (S (asked w)) w)).

(** [value.name], which throws when [value] is [null]. *)
Definition get_property (value : Json) (name : jsstring) : M (option Json) :=
  match value with
  | JNull =>
      throw (TypeError (js "Cannot read properties of null (reading '"
                        ++ name ++ js "')"))
  | _ => ret (property value name)
  end.

(** ** The platform

    The primitives behind [webcrypto.subtle], [Buffer] and the printing of
    numbers are parameters of the development: AES-GCM as a sealing function
    and an opening function that may reject, with the message of the
    [OperationError] it then raises; the message of the [TypeError] that
    [subtle.deriveKey] raises when its [baseKey] is no [CryptoKey]; base64 as
    an encoder and a decoder; what [Buffer.from] makes of a value that is no
    string (a [TypeError] for a number or a boolean, bytes for an array);
    what [String] prints for an integer of magnitude [2^53] or more. *)

Class Platform := {
  aes_gcm_seal : bytes -> bytes -> bytes -> bytes;
  aes_gcm_open : bytes -> bytes -> bytes -> option bytes;
  operation_error : jsstring;
  not_a_CryptoKey : jsstring;
  base64_encode : bytes -> jsstring;
  base64_decode : jsstring -> bytes;
  Buffer_from_other : option Json -> Outcome bytes;
  Number_toString : Z -> jsstring }.

(** What every implementation of the primitives guarantees. *)
Class PlatformLaws (P : Platform) : Prop := {
  aes_gcm_open_seal :
    forall key iv data, aes_gcm_open key iv (aes_gcm_seal key iv data) = Some data;
  base64_decode_encode :
    forall data, base64_decode (base64_encode data) = data }.

(** [Buffer.from(value, 'base64')]. *)
Definition Buffer_bytes `{Platform} (value : option Json) : Outcome bytes :=
  match value with
  | Some (JString s) => Ok (base64_decode s)
  | _ => Buffer_from_other value
  end.

Definition Buffer_from `{Platform} (value : option Json) : M bytes :=
  lift (Buffer_bytes value).

(** [String(n)] for a number that is an integer. *)
Definition Number_display `{Platform} (n : Z) : jsstring :=
  if (Z.abs n <? 2 ^ 53)%Z
  then (if (n <? 0)%Z then js "-" else []) ++ decimal (Z.to_N (Z.abs n))
  else Number_toString n.

(** [String(value)]: [None] is the [TypeError] for an object that cannot be
    converted to a primitive value, which an object with an own property
    [toString] (no function, as it comes from [JSON.parse]) is.  An array is
    joined with commas, [null] elements left empty. *)
Fixpoint to_string `{Platform} (v : Json) : option jsstring :=
  match v with
  | JNull => Some (js "null")
  | JBool true => Some (js "true")
  | JBool false => Some (js "false")
  | JNumber n => Some (Number_display n)
  | JDouble text => Some text
  | JInfinity negative => Some (if negative then js "-Infinity" else js "Infinity")
  | JString s => Some s
  | JArray items =>
      (fix join (items : list Json) : option jsstring :=
         match items with
         | [] => Some []
         | x :: rest =>
             match (match x with JNull => Some [] | _ => to_string x end) with
             | None => None
             | Some s =>
                 match rest with
                 | [] => Some s
                 | _ :: _ =>
                     match join rest with
                     | None => None
                     | Some t => Some (s ++ js "," ++ t)
                     end
                 end
             end
         end) items
  | JObject fields =>
      match own_property (js "toString") fields with
      | Some _ => None
      | None => Some (js "[object Object]")
      end
  end.

(** [`${value}`] in a template literal. *)
Definition template `{Platform} (value : option Json) : M jsstring :=
  match value with
  | None => ret (js "undefined")
  | Some v =>
      match to_string v with
      | Some s => ret s
      | None => throw (TypeError (js "Cannot convert object to primitive value"))
      end
  end.

Module WebCrypto.

Definition has_usage (u : KeyUsage) (key : CryptoKey) : bool :=
  existsb (fun u' => match u, u' with
                     | UsageEncrypt, UsageEncrypt | UsageDecrypt, UsageDecrypt => true
                     | _, _ => false
                     end) (usages key).

Definition InvalidAccessError : JsError :=
  {| err_name := js "InvalidAccessError"; err_code := None;
     err_message := js "The requested operation is not valid for the provided key" |}.

Definition OperationError `{Platform} : JsError :=
  {| err_name := js "OperationError"; err_code := None;
     err_message := operation_error |}.

(** The [TypeError] of an argument that is not of the type the interface
    asks for. *)
Definition InvalidBaseKey `{Platform} : JsError :=
  {| err_name := js "TypeError"; err_code := Some (js "ERR_INVALID_ARG_TYPE");
     err_message := not_a_CryptoKey |}.

(** [subtle.deriveKey(algorithm, baseKey, derivedKeyType, extractable,
    keyUsages)] as the program calls it, with a [Uint8Array] as [baseKey]:
    the interface asks for a [CryptoKey] there, and bytes are refused with
    a [TypeError] before anything is derived.  The promise of a key is
    rejected; no call of the program gets one. *)
Definition subtle_deriveKey `{Platform} (alg : KdfAlgorithm) (baseKey : bytes)
    (derivedKeyType : KeyAlgorithm) (extractable : bool)
    (keyUsages : list KeyUsage) : M CryptoKey :=
  _ ← emit (SubtleDeriveKey alg baseKey derivedKeyType extractable keyUsages);
  throw InvalidBaseKey.

Definition subtle_encrypt `{Platform} (alg : CipherAlgorithm) (key : CryptoKey)
    (data : bytes) : M bytes :=
  _ ← emit SubtleEncrypt;
  match alg with
  | AES_GCM_with iv =>
      if has_usage UsageEncrypt key
      then mret (aes_gcm_seal (material key) iv data)
      else throw InvalidAccessError
  end.

Definition subtle_decrypt `{Platform} (alg : CipherAlgorithm) (key : CryptoKey)
    (data : bytes) : M bytes :=
  _ ← emit SubtleDecrypt;
  match alg with
  | AES_GCM_with iv =>
      if has_usage UsageDecrypt key
      then match aes_gcm_open (material key) iv data with
           | Some plain => mret plain
           | None => throw OperationError
           end
      else throw InvalidAccessError
  end.

End WebCrypto.

Export WebCrypto.

(** ** [crypto.ts] *)

Module Crypto.

Definition PBKDF2_ITERATIONS : N := 100000.
Definition AES_GCM_IV_LENGTH : nat := 12.

Definition deriveEncryptionKey `{Platform} (credentialId : jsstring)
    (credentialPublicKey : bytes) : M CryptoKey :=
  let ikm := TextEncoder_encode credentialId ++ credentialPublicKey in
  keyMaterial ← subtle_deriveKey
    (PBKDF2 credentialPublicKey PBKDF2_ITERATIONS SHA_256)
    ikm
    (AES_GCM 256)
    false
    [UsageEncrypt; UsageDecrypt];
  mret keyMaterial.

Definition encryptValue `{Platform} (value : jsstring) (key : CryptoKey)
    : M EncryptedResult.t :=
  let data := TextEncoder_encode value in
  iv ← getRandomValues AES_GCM_IV_LENGTH;
  encrypted ← subtle_encrypt (AES_GCM_with iv) key data;
  mret {| EncryptedResult.encrypted := base64_encode encrypted;
          EncryptedResult.iv := base64_encode iv |}.

Definition decryptValue `{Platform} (encrypted iv : jsstring) (key : CryptoKey)
    : M jsstring :=
  decrypted ← subtle_decrypt (AES_GCM_with (base64_decode iv)) key
                (base64_decode encrypted);
  mret (TextDecoder_decode decrypted).

Definition generateChallenge : M bytes := getRandomValues 32.

End Crypto.

(** ** [fido2.ts] *)

Module Fido2.

Definition RP_ID : jsstring := js "openclaw.ai".
Definition RP_NAME : jsstring := js "OpenClaw FIDO2 Key Storage".

Definition rethrow {A} (prefix : jsstring) (error : JsError) : M A :=
  if bool_decide (err_name error = js "NotAllowedError")
  then throw (Error (js "用户取消了 FIDO2 操作"))
  else throw (Error (prefix ++ err_message error)).

(** The credential is a mock: its identifier is built from the user id and
    the clock, its public key is 65 zero bytes. *)
Definition createCredential (userId userName : jsstring)
    : M Fido2CredentialResult.t :=
  try_catch
    (_ ← emit (CreateCredential userId userName);
     now ← Date_now;
     let mockCredentialId := js "fido2-" ++ userId ++ js "-" ++ decimal now in
     let mockPublicKey := repeat Byte.x00 65 in
     mret {| Fido2CredentialResult.credentialId := mockCredentialId;
             Fido2CredentialResult.publicKey := mockPublicKey;
             Fido2CredentialResult.authenticatorData := mockPublicKey |})
    (rethrow (js "FIDO2 创建失败: ")).

Definition getCredential (credentialId : jsstring) (challenge : bytes)
    : M Fido2AssertionResult.t :=
  try_catch
    (_ ← emit (GetCredential (JString credentialId) challenge);
     let mockAuthenticatorData := repeat Byte.x00 37 in
     let mockSignature := repeat Byte.x00 64 in
     mret {| Fido2AssertionResult.authenticatorData := mockAuthenticatorData;
             Fido2AssertionResult.signature := mockSignature;
             Fido2AssertionResult.userHandle := repeat Byte.x00 16 |})
    (rethrow (js "FIDO2 获取失败: ")).

Definition isFido2Available : bool := true.

End Fido2.

(** ** Arrays of stored keys *)

Definition quote : jsstring := [0x22].

(** [k.id === id] as the callbacks of [find], [findIndex] and [filter]
    compute it: reading [id] of [null] throws. *)
Definition has_id (id : jsstring) (k : Json) : Outcome bool :=
  match k with
  | JNull => Throw (TypeError (js "Cannot read properties of null (reading 'id')"))
  | _ => Ok (is_string id (property k (js "id")))
  end.

(** [keys.find(k => k.id === id)]: the first element with that [id]; the
    elements after it are not looked at. *)
Fixpoint find_by_id (id : jsstring) (keys : list Json) : Outcome (option Json) :=
  match keys with
  | [] => Ok None
  | k :: rest =>
      match has_id id k with
      | Throw e => Throw e
      | Ok true => Ok (Some k)
      | Ok false => find_by_id id rest
      end
  end.

(** [keys.findIndex(k => k.id === id)]: the first index, or -1. *)
Fixpoint findIndex_from (i : Z) (id : jsstring) (keys : list Json) : Outcome Z :=
  match keys with
  | [] => Ok (-1)%Z
  | k :: rest =>
      match has_id id k with
      | Throw e => Throw e
      | Ok true => Ok i
      | Ok false => findIndex_from (i + 1)%Z id rest
      end
  end.

Definition findIndex_by_id (id : jsstring) (keys : list Json) : Outcome Z :=
  findIndex_from 0%Z id keys.

(** [keys.filter(k => k.id !== id)]: every element is looked at. *)
Fixpoint filter_other_ids (id : jsstring) (keys : list Json) : Outcome (list Json) :=
  match keys with
  | [] => Ok []
  | k :: rest =>
      match has_id id k with
      | Throw e => Throw e
      | Ok same =>
          match filter_other_ids id rest with
          | Throw e => Throw e
          | Ok rest' => Ok (if same then rest' else k :: rest')
          end
      end
  end.

(** [keys.splice(index, 1)] for an index that [findIndex] returned. *)
Definition splice1 {A} (index : Z) (l : list A) : list A :=
  delete (Z.to_nat index) l.

(** The first use of an array method on what [JSON.parse] returned. *)
Definition as_array (method : jsstring) (keys : Json) : M (list Json) :=
  match keys with
  | JArray l => ret l
  | JNull =>
      throw (TypeError (js "Cannot read properties of null (reading '"
                        ++ method ++ js "')"))
  | _ => throw (TypeError (js "keys." ++ method ++ js " is not a function"))
  end.

(** ** [cli.ts] *)

Module Cli.

Definition loadStoredKeys : M Json :=
  try_catch
    (data ← fs_readFile;
     JSON_parse data)
    (fun _ => mret (JArray [])).

Definition saveStoredKeys (keys : list Json) : M unit :=
  fs_writeFile keys.

(** The [decryptValue] of [cli.ts], handed what the stored record holds. *)
Definition decryptValue `{Platform} (encrypted iv : option Json) (key : CryptoKey)
    : M jsstring :=
  iv ← Buffer_from iv;
  data ← Buffer_from encrypted;
  decrypted ← subtle_decrypt (AES_GCM_with iv) key data;
  mret (TextDecoder_decode decrypted).

(** [key.id] of a record that [find] returned for [id]. *)
Definition id_of (key : Json) (id : jsstring) : jsstring :=
  match property key (js "id") with Some (JString s) => s | _ => id end.

Definition getKeyValue `{Platform} (id : jsstring) : M jsstring :=
  keys ← loadStoredKeys;
  keys ← as_array (js "find") keys;
  key ← lift (find_by_id id keys);
  match key with
  | None => throw (Error (js "密钥 " ++ quote ++ id ++ quote ++ js " 不存在"))
  | Some key =>
      _ ← template (property key (js "id"));
      _ ← template (property key (js "label"));
      if json_truthy (js_and (property key (js "encryptedValue"))
                        (property key (js "credentialPublicKey")))
      then
        try_catch
          (publicKey ← Buffer_from (property key (js "credentialPublicKey"));
           encryptionKey ← Crypto.deriveEncryptionKey (id_of key id) publicKey;
           decrypted ← decryptValue (property key (js "encryptedValue"))
                         (property key (js "iv")) encryptionKey;
           mret decrypted)
          (fun error => throw (Error (js "解密失败: " ++ err_message error)))
      else throw (Error (js "此密钥未使用 FIDO2 加密"))
  end.

Definition setKey `{Platform} (id label value : jsstring) : M unit :=
  let userId := js "openclaw-" ++ id in
  let userName := label ++ js " (" ++ id ++ js ")" in
  credential ← Fido2.createCredential userId userName;
  let credentialId := Fido2CredentialResult.credentialId credential in
  let publicKey := Fido2CredentialResult.publicKey credential in
  encryptionKey ← Crypto.deriveEncryptionKey credentialId publicKey;
  result ← Crypto.encryptValue value encryptionKey;
  keys ← loadStoredKeys;
  keys ← as_array (js "findIndex") keys;
  let store (keys : list Json) : M unit :=
    now ← Date_now;
    let storedKey :=
      {| Fido2StoredKey.id := id;
         Fido2StoredKey.label := label;
         Fido2StoredKey.encryptedValue := EncryptedResult.encrypted result;
         Fido2StoredKey.iv := EncryptedResult.iv result;
         Fido2StoredKey.createdAt := now;
         Fido2StoredKey.rpId := js "openclaw.ai";
         Fido2StoredKey.userHandle := base64_encode (TextEncoder_encode userId);
         Fido2StoredKey.credentialId := Some credentialId;
         Fido2StoredKey.credentialPublicKey := Some (base64_encode publicKey) |} in
    saveStoredKeys (keys ++ [Fido2StoredKey.to_json storedKey]) in
  existingIndex ← lift (findIndex_by_id id keys);
  if (0 <=? existingIndex)%Z then
    shouldReplace ← confirm (js "密钥 " ++ quote ++ id ++ quote ++ js " 已存在，是否覆盖？");
    if negb shouldReplace then mret tt
    else store (splice1 existingIndex keys)
  else store keys.

Definition deleteKey `{Platform} (id : jsstring) : M unit :=
  keys ← loadStoredKeys;
  keys ← as_array (js "find") keys;
  key ← lift (find_by_id id keys);
  match key with
  | None => throw (Error (js "密钥 " ++ quote ++ id ++ quote ++ js " 不存在"))
  | Some key =>
      _ ← template (property key (js "label"));
      shouldDelete ← confirm (js "确认删除此密钥？");
      if negb shouldDelete then mret tt
      else
        updatedKeys ← lift (filter_other_ids id keys);
        saveStoredKeys updatedKeys
  end.

(** The [set <id> <label>] and [delete <id>] commands; [value] is what the
    operator types at the hidden prompt.  A command that throws ends the
    process; what it has written stays. *)
Inductive Command :=
| Set_ (id label value : jsstring)
| Delete (id : jsstring).

Definition action `{Platform} (c : Command) (w : World) : World :=
  match c with
  | Set_ id label value => snd (setKey id label value w)
  | Delete id => snd (deleteKey id w)
  end.

Definition session `{Platform} (cs : list Command) (w : World) : World :=
  fold_left (fun w c => action c w) cs w.

End Cli.

(** The [clear] command of [cli.ts]. *)
Module Commands.

Definition clear : M unit :=
  shouldClear ← confirm (js "确认清空所有密钥？此操作不可撤销！");
  if negb shouldClear then mret tt
  else Cli.saveStoredKeys [].

End Commands.

(** ** [fido2-resolver.mjs] *)

Module Resolver.

Definition PROTOCOL_VERSION : Z := 1.
Definition RP_ID : jsstring := js "openclaw.ai".
Definition RP_NAME : jsstring := js "OpenClaw FIDO2 Secrets".
Definition PBKDF2_ITERATIONS : N := 100000.
Definition AES_GCM_IV_LENGTH : nat := 12.

Module ERROR_CODES.
Definition KEY_NOT_FOUND : jsstring := js "key_not_found".
Definition FIDO2_CANCELLED : jsstring := js "fido2_cancelled".
Definition FIDO2_TIMEOUT : jsstring := js "fido2_timeout".
Definition FIDO2_NOT_ALLOWED : jsstring := js "fido2_not_allowed".
Definition DECRYPTION_FAILED : jsstring := js "decryption_failed".
Definition STORAGE_READ_FAILED : jsstring := js "storage_read_failed".
End ERROR_CODES.

Definition loadStoredKeys : M (list Json) :=
  try_catch
    (data ← fs_readFile;
     keys ← JSON_parse data;
     match keys with
     | JArray keys => mret keys
     | _ => throw (Error (js "存储文件格式无效: 不是数组"))
     end)
    (fun error =>
       if bool_decide (err_code error = Some (js "ENOENT"))
       then mret []
       else throw (Error (js "读取存储文件失败: " ++ err_message error))).

Definition deriveEncryptionKey `{Platform} (credentialId : jsstring)
    (credentialPublicKey : bytes) : M CryptoKey :=
  let ikm := TextEncoder_encode credentialId ++ credentialPublicKey in
  keyMaterial ← subtle_deriveKey
    (PBKDF2 credentialPublicKey PBKDF2_ITERATIONS SHA_256)
    ikm
    (AES_GCM 256)
    false
    [UsageEncrypt; UsageDecrypt];
  mret keyMaterial.

Definition decryptValue `{Platform} (encrypted iv : option Json)
    (encryptionKey : CryptoKey) : M jsstring :=
  try_catch
    (iv ← Buffer_from iv;
     data ← Buffer_from encrypted;
     decrypted ← subtle_decrypt (AES_GCM_with iv) encryptionKey data;
     mret (TextDecoder_decode decrypted))
    (fun error => throw (Error (js "解密失败: " ++ err_message error))).

Definition generateChallenge : M bytes := getRandomValues 32.

Definition is_digit (c : N) : bool := (0x30 <=? c) && (c <=? 0x39).

Definition is_line_terminator (c : N) : bool :=
  (c =? 0x0A) || (c =? 0x0D) || (c =? 0x2028) || (c =? 0x2029).

(** [/^(.+)\[(\d+)\]$/], read from the end of the string: a closing bracket,
    one or more digits, an opening bracket, and before it one or more
    characters none of which ends a line. *)
Fixpoint skip_digits (s : jsstring) : jsstring :=
  match s with
  | c :: s' => if is_digit c then skip_digits s' else s
  | [] => []
  end.

Definition array_notation (id : jsstring) : bool :=
  match rev id with
  | 0x5D :: d :: r =>
      is_digit d &&
      match skip_digits r with
      | 0x5B :: c :: head => forallb (fun c => negb (is_line_terminator c)) (c :: head)
      | _ => false
      end
  | _ => false
  end.

(** [id.match] exists on strings only; either way the identifier itself is
    returned. *)
Definition normalizeId (id : Json) : M jsstring :=
  match id with
  | JString s => if array_notation s then ret s else ret s
  | JNull => throw (TypeError (js "Cannot read properties of null (reading 'match')"))
  | _ => throw (TypeError (js "id.match is not a function"))
  end.

(** The assertion is a mock: random bytes, no exchange with a device. *)
Definition getFido2Credential (credentialId : Json) (challenge : bytes)
    : M Fido2AssertionResult.t :=
  _ ← emit (GetCredential credentialId challenge);
  authenticatorData ← generateChallenge;
  signature ← getRandomValues 64;
  mret {| Fido2AssertionResult.authenticatorData := authenticatorData;
          Fido2AssertionResult.signature := signature;
          Fido2AssertionResult.userHandle := repeat Byte.x00 16 |}.

(** What [resolveSecretKey] returns: [{ value, fromCache }], whose [value]
    is whatever the record holds, or [{ error, message }]. *)
Inductive Resolution :=
| Value (value : option Json) (fromCache : bool)
| Failure (error message : jsstring).

(** The [catch] block of [resolveSecretKey], from [errorMessage] on. *)
Definition failure_of (errorMessage : jsstring) : Resolution :=
  if includes errorMessage (js "取消") || includes errorMessage (js "cancel")
  then Failure ERROR_CODES.FIDO2_CANCELLED (js "FIDO2 操作被用户取消")
  else if includes errorMessage (js "超时") || includes errorMessage (js "timeout")
  then Failure ERROR_CODES.FIDO2_TIMEOUT (js "FIDO2 操作超时")
  else Failure ERROR_CODES.DECRYPTION_FAILED errorMessage.

Definition resolveSecretKey `{Platform} (id : jsstring) (storedKey : Json)
    : M Resolution :=
  try_catch
    (encryptedValue ← get_property storedKey (js "encryptedValue");
     credentialPublicKey ← get_property storedKey (js "credentialPublicKey");
     let requiresFido2 := js_and encryptedValue credentialPublicKey in
     if negb (json_truthy requiresFido2) then
       let plaintext := encryptedValue in
       mret (Value plaintext false)
     else
       credentialId ← get_property storedKey (js "credentialId");
       challenge ← generateChallenge;
       assertion ← getFido2Credential
         (default (JString id) (js_or credentialId (Some (JString id))))
         challenge;
       publicKey ← Buffer_from credentialPublicKey;
       encryptionKey ← deriveEncryptionKey id publicKey;
       iv ← get_property storedKey (js "iv");
       decryptedValue ← decryptValue encryptedValue iv encryptionKey;
       mret (Value (Some (JString decryptedValue)) false))
    (fun error =>
       let errorMessage := error_text error in
       mret (failure_of errorMessage)).

Record ErrorEntry := { message : jsstring }.

(** The response as [JSON.stringify] prints it: the properties of [values]
    whose value is not [undefined], and those of [errors]. *)
Record Response := {
  protocolVersion : Z;
  provider : option Json;
  values : gmap jsstring Json;
  errors : gmap jsstring ErrorEntry }.

Definition PROTO : jsstring := js "__proto__".

(** [response.values[id] = value].  [values] starts as an object literal:
    assigning to [__proto__] calls the setter of [Object.prototype], which
    makes an object or [null] the prototype and ignores anything else, and
    adds no property.  Once the prototype is [null], or an object that has a
    property [__proto__] of its own (as [JSON.parse] makes it for that key),
    the setter is out of reach ([bare]) and [__proto__] is a key like any
    other.  A property whose value is [undefined] is not printed. *)
Definition set_value (id : jsstring) (value : option Json)
    (state : Response * bool) : Response * bool :=
  let '(r, bare) := state in
  if bool_decide (id = PROTO) && negb bare then
    match value with
    | Some JNull => (r, true)
    | Some (JObject fields) =>
        (r, match own_property PROTO fields with Some _ => true | None => false end)
    | _ => (r, false)
    end
  else
    ({| protocolVersion := protocolVersion r; provider := provider r;
        values := match value with
                  | Some v => <[id := printed v]> (values r)
                  | None => delete id (values r)
                  end;
        errors := errors r |}, bare).

(** [response.errors[id] = { message }]: for [__proto__] the entry becomes
    the prototype of [errors] and no property of it. *)
Definition set_error (id : jsstring) (e : ErrorEntry) (r : Response) : Response :=
  if bool_decide (id = PROTO) then r
  else {| protocolVersion := protocolVersion r; provider := provider r;
          values := values r; errors := <[id := e]> (errors r) |}.

(** The body of [for (const id of request.ids)]; [bare] tells whether the
    setter of [__proto__] is out of reach of [values]. *)
Fixpoint resolve_each `{Platform} (storedKeys : list Json)
    (ids : list Json) (response : Response) (bare : bool) : M Response :=
  match ids with
  | [] => mret response
  | id :: rest =>
      normalizedId ← normalizeId id;
      storedKey ← lift (find_by_id normalizedId storedKeys);
      match storedKey with
      | None =>
          resolve_each storedKeys rest
            (set_error normalizedId
               {| message := js "Key not found in FIDO2 storage" |} response) bare
      | Some storedKey =>
          result ← resolveSecretKey normalizedId storedKey;
          match result with
          | Failure _ message =>
              resolve_each storedKeys rest
                (set_error normalizedId {| message := message |} response) bare
          | Value value _ =>
              let state := set_value normalizedId value (response, bare) in
              resolve_each storedKeys rest (fst state) (snd state)
          end
      end
  end.

Definition resolveSecrets `{Platform} (request : Json) : M Response :=
  version ← get_property request (js "protocolVersion");
  if negb (is_number PROTOCOL_VERSION version) then
    shown ← template version;
    supported ← template (Some (JNumber PROTOCOL_VERSION));
    throw (Error (js "不支持的协议版本: " ++ shown ++ js ", 支持: " ++ supported))
  else
  provider ← get_property request (js "provider");
  if negb (is_string (js "fido2") provider) then
    shown ← template provider;
    throw (Error (js "不支持的 provider: " ++ shown))
  else
  ids ← get_property request (js "ids");
  if negb (json_truthy ids) || negb (Array_isArray ids)
     || (length (array_items ids) =? 0)%nat then
    throw (Error (js "请求中缺少有效的 IDs"))
  else
  let empty :=
    {| protocolVersion := PROTOCOL_VERSION; provider := provider;
       values := ∅; errors := ∅ |} in
  storedKeys ← try_catch
    (storedKeys ← loadStoredKeys;
     mret (Some storedKeys))
    (fun error => mret None);
  match storedKeys with
  | None => mret empty
  | Some storedKeys => resolve_each storedKeys (array_items ids) empty false
  end.

(** What [readRequest] finds on standard input: the text of a JSON value,
    nothing at all (read as [{}]), or text that [JSON.parse] rejects; and
    when the input has not ended after thirty seconds, the timer closes the
    reader, whose [close] handler then reads what has arrived so far in the
    same way (the rejection that follows finds the promise settled). *)
Inductive Stdin :=
| Request (request : Json)
| NoData
| Malformed (syntax_error : jsstring)
| Stalled (so_far : Stdin).

Fixpoint readRequest (input : Stdin) : M Json :=
  match input with
  | Request request => ret request
  | NoData => ret (JObject [])
  | Malformed msg => throw (Error (js "无效的 JSON 请求: " ++ msg))
  | Stalled so_far => readRequest so_far
  end.

(** What the process leaves behind: the response written to standard output
    and the exit code. *)
Record Exit := {
  stdout : Response;
  exit_code : Z }.

Definition main `{Platform} (input : Stdin) (w : World) : Exit * World :=
  match (request ← readRequest input; resolveSecrets request) w with
  | (Ok response, w') => ({| stdout := response; exit_code := 0 |}, w')
  | (Throw error, w') =>
      let errorResponse :=
        {| protocolVersion := PROTOCOL_VERSION;
           provider := Some (JString (js "fido2"));
           values := ∅;
           errors :=
             {[ js "_system" :=
                  {| message := if truthy (err_message error)
                                then err_message error
                                else js "Unknown error" |} ]} |} in
      ({| stdout := errorResponse; exit_code := 1 |}, w')
  end.

End Resolver.

(** ** A reference platform

    An implementation of the primitives that is simple enough to compute
    with: sealing prefixes the data with key and nonce, opening checks that
    prefix, the text form of a byte string has one code unit per byte, and
    [Buffer.from] makes bytes of an array of numbers and refuses what else is
    no string.  The messages are Node's.  It is used to run the programs on
    concrete inputs. *)

Module Reference.

Definition seal (key iv data : bytes) : bytes := key ++ iv ++ data.

Definition open (key iv data : bytes) : option bytes :=
  let header := key ++ iv in
  if bool_decide (take (length header) data = header)
  then Some (drop (length header) data)
  else None.

Definition to_text (data : bytes) : jsstring := map Byte.to_N data.

Definition of_text (text : jsstring) : bytes := map byte_of_N text.

Definition not_a_buffer : JsError :=
  {| err_name := js "TypeError"; err_code := Some (js "ERR_INVALID_ARG_TYPE");
     err_message := js "The first argument must be of type string or an instance of Buffer, ArrayBuffer, or Array or an Array-like Object." |}.

Definition element_byte (v : Json) : byte :=
  match v with
  | JNumber n => byte_of_N (Z.to_N (n mod 256))
  | _ => Byte.x00
  end.

Definition from_other (value : option Json) : Outcome bytes :=
  match value with
  | Some (JArray items) => Ok (map element_byte items)
  | _ => Throw not_a_buffer
  end.

Definition platform : Platform := {|
  aes_gcm_seal := seal;
  aes_gcm_open := open;
  operation_error := js "The operation failed for an operation-specific reason";
  not_a_CryptoKey :=
    js "Failed to execute 'deriveKey' on 'SubtleCrypto': 2nd argument is not of type CryptoKey.";
  base64_encode := to_text;
  base64_decode := of_text;
  Buffer_from_other := from_other;
  Number_toString :=
    fun n => (if (n <? 0)%Z then js "-" else []) ++ decimal (Z.to_N (Z.abs n)) |}.

(** The world with the store file [f], which can be written, a counting
    random source, a clock that starts in November 2023 and an operator who
    answers as [answers] says. *)
Definition world (f : FileState) (answers : nat -> bool) : World :=
  {| file := f;
     write_error := None;
     entropy := fun i => byte_of_N (N.of_nat i mod 256);
     drawn := 0;
     clock := fun i => 1700000000000 + N.of_nat i;
     ticks := 0;
     answers := answers;
     asked := 0;
     trace := [] |}.

End Reference.

(** * Vocabulary of the properties *)

(** The call of [subtle.deriveKey] that both copies of [deriveEncryptionKey]
    make: PBKDF2 with the public key as salt, 100000 iterations and SHA-256,
    the UTF-8 bytes of the credential identifier followed by the public key
    as [baseKey], for an AES-GCM key of 256 bits that cannot be exported and
    serves to encrypt and to decrypt. *)
Definition derivation (credentialId : jsstring) (publicKey : bytes) : Event :=
  SubtleDeriveKey (PBKDF2 publicKey 100000 SHA_256)
    (TextEncoder_encode credentialId ++ publicKey)
    (AES_GCM 256) false [UsageEncrypt; UsageDecrypt].

(** Derive a key, encrypt under it, derive the key again, decrypt. *)
Definition round_trip `{Platform} (value credentialId : jsstring)
    (publicKey : bytes) : M jsstring :=
  key ← Crypto.deriveEncryptionKey credentialId publicKey;
  result ← Crypto.encryptValue value key;
  key' ← Crypto.deriveEncryptionKey credentialId publicKey;
  Crypto.decryptValue (EncryptedResult.encrypted result)
    (EncryptedResult.iv result) key'.

(** Encrypt under a key and decrypt under the same key. *)
Definition envelope `{Platform} (value : jsstring) (key : CryptoKey) : M jsstring :=
  result ← Crypto.encryptValue value key;
  Crypto.decryptValue (EncryptedResult.encrypted result)
    (EncryptedResult.iv result) key.

(** [storedKey.encryptedValue && storedKey.credentialPublicKey]. *)
Definition hardware_bound (k : Json) : bool :=
  json_truthy (js_and (property k (js "encryptedValue"))
                 (property k (js "credentialPublicKey"))).

(** What reading a property of [null] throws. *)
Definition null_property (name : jsstring) : JsError :=
  TypeError (js "Cannot read properties of null (reading '" ++ name ++ js "')").

(** What [k.id] throws in the callback of [find] when an element of the
    store is [null]. *)
Definition null_record : JsError :=
  TypeError (js "Cannot read properties of null (reading 'id')").

(** The error that ends the attempt to open a hardware-bound record: that
    of [Buffer.from] when it refuses the public key, else that of
    [subtle.deriveKey]. *)
Definition derivation_error `{Platform} (k : Json) : JsError :=
  match Buffer_bytes (property k (js "credentialPublicKey")) with
  | Throw e => e
  | Ok _ => InvalidBaseKey
  end.

(** What resolving a record comes to. *)
Definition resolution `{Platform} (k : Json) : Resolver.Resolution :=
  match k with
  | JNull => Resolver.failure_of (error_text (null_property (js "encryptedValue")))
  | _ =>
      if hardware_bound k then Resolver.failure_of (error_text (derivation_error k))
      else Resolver.Value (property k (js "encryptedValue")) false
  end.

(** The credential identifier [resolveSecretKey] hands to the authenticator:
    [storedKey.credentialId || id]. *)
Definition asserted_credential (id : jsstring) (k : Json) : Json :=
  default (JString id) (js_or (property k (js "credentialId")) (Some (JString id))).

(** The calls [resolveSecretKey] makes for a record. *)
Definition resolution_events `{Platform} (id : jsstring) (k : Json) (w : World)
    : list Event :=
  match k with
  | JNull => []
  | _ =>
      if hardware_bound k then
        GetCredential (asserted_credential id k) (map (entropy w) (seq (drawn w) 32))
        :: match Buffer_bytes (property k (js "credentialPublicKey")) with
           | Ok publicKey => [derivation id publicKey]
           | Throw _ => []
           end
      else []
  end.

(** An identifier's place in a response. *)
Inductive Entry :=
| InValues (value : option Json)
| InErrors (e : Resolver.ErrorEntry).

(** The entry of an identifier the store has no record of. *)
Definition not_found : Resolver.ErrorEntry :=
  {| Resolver.message := js "Key not found in FIDO2 storage" |}.

(** Where the resolution of [id] alone puts it, the lookup having returned. *)
Definition entry `{Platform} (keys : list Json) (id : jsstring) : Entry :=
  match find_by_id id keys with
  | Ok (Some k) =>
      match resolution k with
      | Resolver.Value value _ => InValues value
      | Resolver.Failure _ message => InErrors {| Resolver.message := message |}
      end
  | _ => InErrors not_found
  end.

Definition record_entry (id : jsstring) (e : Entry)
    (state : Resolver.Response * bool) : Resolver.Response * bool :=
  match e with
  | InValues value => Resolver.set_value id value state
  | InErrors e => (Resolver.set_error id e (fst state), snd state)
  end.

Definition record_all `{Platform} (keys : list Json) (ids : list jsstring)
    (state : Resolver.Response * bool) : Resolver.Response * bool :=
  fold_left (fun state id => record_entry id (entry keys id) state) ids state.

(** The identifier has in the printed response the place [e] says: in
    [values] with what is printed for the value, or in neither map when the
    value is [undefined]; or in [errors]. *)
Definition holds (r : Resolver.Response) (id : jsstring) (e : Entry) : Prop :=
  match e with
  | InValues value =>
      Resolver.values r !! id = printed <$> value /\ Resolver.errors r !! id = None
  | InErrors e =>
      Resolver.values r !! id = None /\ Resolver.errors r !! id = Some e
  end.

Definition empty_response : Resolver.Response :=
  {| Resolver.protocolVersion := 1;
     Resolver.provider := Some (JString (js "fido2"));
     Resolver.values := ∅;
     Resolver.errors := ∅ |}.

(** The response of a fatal failure. *)
Definition fatal_response (message : jsstring) : Resolver.Response :=
  {| Resolver.protocolVersion := 1;
     Resolver.provider := Some (JString (js "fido2"));
     Resolver.values := ∅;
     Resolver.errors := {[ js "_system" := {| Resolver.message := message |} ]} |}.

(** A request the resolver accepts: version 1, provider "fido2", and a
    non-empty array of strings as its identifier set. *)
Definition accepted (request : Json) (ids : list jsstring) : Prop :=
  property request (js "protocolVersion") = Some (JNumber 1)
  /\ property request (js "provider") = Some (JString (js "fido2"))
  /\ property request (js "ids") = Some (JArray (map JString ids))
  /\ ids <> [].

(** A request whose version is not 1, whose provider is not "fido2", or
    whose [ids] are absent, not an array, or empty. *)
Definition rejected (request : Json) : Prop :=
  property request (js "protocolVersion") <> Some (JNumber 1)
  \/ property request (js "provider") <> Some (JString (js "fido2"))
  \/ property request (js "ids") = None
  \/ Array_isArray (property request (js "ids")) = false
  \/ property request (js "ids") = Some (JArray []).

(** The request for the identifiers [ids]. *)
Definition request_for (ids : list jsstring) : Json :=
  JObject [ (js "protocolVersion", JNumber 1);
            (js "provider", JString (js "fido2"));
            (js "ids", JArray (map JString ids)) ].

(** The lookup of [id] returns: no element of the store that [find] looks at
    is [null]. *)
Definition found (keys : list Json) (id : jsstring) : bool :=
  match find_by_id id keys with Ok _ => true | Throw _ => false end.

Definition searchable (keys : list Json) (ids : list jsstring) : bool :=
  forallb (found keys) ids.

(** Assigning [value] to [values.__proto__] leaves the setter of
    [Object.prototype] in reach: [value] is not [null] and no object with a
    property [__proto__] of its own. *)
Definition keeps_setter (value : option Json) : bool :=
  match value with
  | Some JNull => false
  | Some (JObject fields) =>
      match own_property Resolver.PROTO fields with Some _ => false | None => true end
  | _ => true
  end.

(** The store has no record with the [id] [__proto__] whose value, assigned
    to [values.__proto__], would put the setter out of reach.  Records whose
    [encryptedValue] is a string, as [types.ts] has it, never do. *)
Definition proto_safe `{Platform} (keys : list Json) : bool :=
  match entry keys Resolver.PROTO with
  | InValues value => keeps_setter value
  | InErrors _ => true
  end.

(** The records the resolver works on in the world [w]: those of the store
    file when it loads. *)
Definition stored (w : World) : list Json :=
  match fst (Resolver.loadStoredKeys w) with
  | Ok keys => keys
  | Throw _ => []
  end.

(** What the resolver answers to the identifiers [ids] from the store
    [keys]: the entries of each, or the fatal response when a lookup throws. *)
Definition answer `{Platform} (keys : list Json) (ids : list jsstring)
    : Resolver.Exit :=
  if searchable keys ids
  then {| Resolver.stdout := fst (record_all keys ids (empty_response, false));
          Resolver.exit_code := 0 |}
  else {| Resolver.stdout := fatal_response (err_message null_record);
          Resolver.exit_code := 1 |}.



(** The records [cli.ts] works on, given the store file: those of the file
    if it holds an array, none if it is missing, unreadable or garbled; a
    file holding another JSON value makes the array methods throw. *)
Definition loaded (f : FileState) : option (list Json) :=
  match f with
  | Present (Text (JArray keys)) => Some keys
  | Present (Text _) => None
  | _ => Some []
  end.

(** [`${value}`] does not throw. *)
Definition displayable `{Platform} (value : option Json) : bool :=
  match value with
  | None => true
  | Some v => match to_string v with Some _ => true | None => false end
  end.

Definition overwrite_question (id : jsstring) : jsstring :=
  js "密钥 " ++ quote ++ id ++ quote ++ js " 已存在，是否覆盖？".

(** The identifier of the mock credential enrolled at the time [now]. *)
Definition mock_credentialId (id : jsstring) (now : N) : jsstring :=
  js "fido2-" ++ (js "openclaw-" ++ id) ++ js "-" ++ decimal now.

(** ** Sample stores *)

Module Samples.

Definition fresh_world : World :=
  Reference.world (Absent (js "ENOENT: no such file or directory")) (fun _ => true).

(** A record without credential, as older versions may have left it. *)
Definition legacy_key : Json :=
  Fido2StoredKey.to_json
    {| Fido2StoredKey.id := js "legacy";
       Fido2StoredKey.label := js "Legacy";
       Fido2StoredKey.encryptedValue := js "plain-secret";
       Fido2StoredKey.iv := [];
       Fido2StoredKey.createdAt := 1700000000000;
       Fido2StoredKey.rpId := js "openclaw.ai";
       Fido2StoredKey.userHandle := [];
       Fido2StoredKey.credentialId := None;
       Fido2StoredKey.credentialPublicKey := None |}.

(** A record bound to a credential, in the format [setKey] builds. *)
Definition sealed_key : Json :=
  let publicKey := repeat Byte.x00 65 in
  let iv := repeat Byte.x01 12 in
  Fido2StoredKey.to_json
    {| Fido2StoredKey.id := js "a";
       Fido2StoredKey.label := js "A";
       Fido2StoredKey.encryptedValue :=
         Reference.to_text
           (Reference.seal (repeat Byte.x02 32) iv (TextEncoder_encode (js "s3cret")));
       Fido2StoredKey.iv := Reference.to_text iv;
       Fido2StoredKey.createdAt := 1700000000000;
       Fido2StoredKey.rpId := js "openclaw.ai";
       Fido2StoredKey.userHandle := [];
       Fido2StoredKey.credentialId := Some (js "fido2-openclaw-a-1700000000000");
       Fido2StoredKey.credentialPublicKey := Some (Reference.to_text publicKey) |}.

Definition stocked_world (answers : nat -> bool) : World :=
  Reference.world (Present (Text (JArray [sealed_key; legacy_key]))) answers.

Definition corrupt_world : World :=
  Reference.world (Present (Unparseable (js "Unexpected end of JSON input")))
    (fun _ => true).

(** A store with one record, named [__proto__], whose [encryptedValue] is
    [null]. *)
Definition proto_world : World :=
  Reference.world
    (Present (Text (JArray [ JObject [ (js "id", JString (js "__proto__"));
                                       (js "encryptedValue", JNull) ] ])))
    (fun _ => true).

End Samples.

(** ** Further vocabulary *)

(** The calls that only look: reading the store, asking the authenticator
    for an assertion, the platform's cryptography. *)
Definition observes (e : Event) : bool :=
  match e with
  | ReadFile | GetCredential _ _ | SubtleDeriveKey _ _ _ _ _
  | SubtleEncrypt | SubtleDecrypt => true
  | WriteFile _ | CreateCredential _ _ | Confirm _ _ => false
  end.

(** From [w] to [w'] the store file is untouched, no question has been put to
    the operator, the clock has not been read, and the calls made in between
    all only look. *)
Definition read_only (w w' : World) : Prop :=
  file w' = file w
  /\ asked w' = asked w
  /\ ticks w' = ticks w
  /\ exists events, trace w' = trace w ++ events /\ forallb observes events = true.

(** The calls the resolver makes: reads of the store, requests for an
    assertion, attempts to derive a key. *)
Definition attempts (e : Event) : bool :=
  match e with
  | ReadFile | GetCredential _ _ | SubtleDeriveKey _ _ _ _ _ => true
  | _ => false
  end.

(** From [w] to [w'] random bytes have been drawn and the calls [events]
    made, all of them calls the resolver makes, and nothing else has
    changed. *)
Definition looked (w w' : World) (events : list Event) : Prop :=
  file w' = file w
  /\ write_error w' = write_error w
  /\ entropy w' = entropy w
  /\ clock w' = clock w
  /\ ticks w' = ticks w
  /\ answers w' = answers w
  /\ asked w' = asked w
  /\ trace w' = trace w ++ events
  /\ forallb attempts events = true.

(** A parsed request that passes the three checks of [resolveSecrets]:
    version 1, provider "fido2", and a non-empty array as [ids], whatever its
    items. *)
Definition admitted (request : Json) (items : list Json) : Prop :=
  property request (js "protocolVersion") = Some (JNumber 1)
  /\ property request (js "provider") = Some (JString (js "fido2"))
  /\ property request (js "ids") = Some (JArray items)
  /\ items <> [].

Definition is_JString (v : Json) : bool :=
  match v with JString _ => true | _ => false end.

(** What [normalizeId] throws at an identifier that is no string. *)
Definition not_a_string (item : Json) : JsError :=
  match item with
  | JNull => TypeError (js "Cannot read properties of null (reading 'match')")
  | _ => TypeError (js "id.match is not a function")
  end.

(** The record [k] with [c] as its [credentialId], or without one. *)
Definition with_credentialId (c : option Json) (k : Json) : Json :=
  match k with
  | JObject fields =>
      JObject (List.filter
                 (fun member => negb (bool_decide (fst member = js "credentialId")))
                 fields
               ++ match c with Some v => [(js "credentialId", v)] | None => [] end)
  | _ => k
  end.

(** The message of [getKeyValue] and [deleteKey] for an unknown id. *)
Definition unknown_key (id : jsstring) : JsError :=
  Error (js "密钥 " ++ quote ++ id ++ quote ++ js " 不存在").

(** The requests for an assertion among the calls made. *)
Definition is_assertion (e : Event) : bool :=
  match e with GetCredential _ _ => true | _ => false end.

Definition assertions (events : list Event) : nat :=
  length (List.filter is_assertion events).

(** The identifier has a record in [keys], and that record is bound to a
    credential. *)
Definition needs_assertion (keys : list Json) (id : jsstring) : bool :=
  match find_by_id id keys with
  | Ok (Some k) => hardware_bound k
  | _ => false
  end.

(** The identifier a command is about. *)
Definition target (c : Cli.Command) : jsstring :=
  match c with
  | Cli.Set_ id _ _ => id
  | Cli.Delete id => id
  end.

Definition delete_question : jsstring := js "确认删除此密钥？".

Definition clear_question : jsstring := js "确认清空所有密钥？此操作不可撤销！".

(** The [ikm] of [deriveEncryptionKey]: what is handed to [subtle.deriveKey]
    as [baseKey]. *)
Definition ikm (credentialId : jsstring) (credentialPublicKey : bytes) : bytes :=
  TextEncoder_encode credentialId ++ credentialPublicKey.
(** * Properties *)

(** ** The text codec *)

Ltac divlia := zify; Z.to_euclidean_division_equations; lia.

Ltac split_div :=
  change 262144 with (64 * 64 * 64) in *; change 4096 with (64 * 64) in *;
  rewrite <- ?N.Div0.div_div in *.

(** Decide the comparisons of the goal by arithmetic. *)
Ltac decide_tests :=
  repeat match goal with
  | |- context [?a <=? ?b] =>
      first [ replace (a <=? b) with true by (symmetry; apply N.leb_le; divlia)
            | replace (a <=? b) with false by (symmetry; apply N.leb_gt; divlia) ]
  | |- context [?a <? ?b] =>
      first [ replace (a <? b) with true by (symmetry; apply N.ltb_lt; divlia)
            | replace (a <? b) with false by (symmetry; apply N.ltb_ge; divlia) ]
  | |- context [?a =? ?b] =>
      first [ replace (a =? b) with true by (symmetry; apply N.eqb_eq; divlia)
            | replace (a =? b) with false by (symmetry; apply N.eqb_neq; divlia) ]
  end.

Ltac step_decoder :=
  decide_tests; cbn -[N.div N.modulo N.leb N.mul N.add N.sub N.eqb].

Lemma is_scalar_value_spec c :
  is_scalar_value c = true <-> c < 0x110000 /\ (c < 0xD800 \/ 0xDFFF < c).
Proof.
  unfold is_scalar_value.
  rewrite andb_true_iff, negb_true_iff, andb_false_iff, N.ltb_lt, !N.leb_gt. tauto.
Qed.

Lemma utf8_decode_encode_scalar c rest :
  is_scalar_value c = true ->
  utf8_decode_from None (utf8_encode_scalar c ++ rest) = c :: utf8_decode_from None rest.
Proof.
  rewrite is_scalar_value_spec. intros [Hlt Hns].
  unfold utf8_encode_scalar.
  destruct (N.leb_spec c 0x7F) as [H1|H1].
  { cbn [app utf8_decode_from]. unfold utf8_lead.
    replace (c <=? 0x7F) with true by (symmetry; apply N.leb_le; lia). done. }
  destruct (N.leb_spec c 0x7FF) as [H2|H2].
  { cbn [app utf8_decode_from]. unfold utf8_lead at 1. split_div.
    do 2 step_decoder. f_equal. divlia. }
  destruct (N.leb_spec c 0xFFFF) as [H3|H3].
  { cbn [app utf8_decode_from]. unfold utf8_lead at 1. split_div.
    step_decoder.
    destruct (N.eqb_spec (224 + c / 64 / 64) 224) as [E|E];
    destruct (N.eqb_spec (224 + c / 64 / 64) 0xED) as [E'|E'];
      do 2 step_decoder; f_equal; divlia. }
  cbn [app utf8_decode_from]. unfold utf8_lead at 1. split_div.
  step_decoder.
  destruct (N.eqb_spec (240 + c / 64 / 64 / 64) 240) as [E|E];
  destruct (N.eqb_spec (240 + c / 64 / 64 / 64) 0xF4) as [E'|E'];
    do 3 step_decoder; f_equal; divlia.
Qed.

Lemma utf8_decode_encode cs :
  forallb is_scalar_value cs = true -> utf8_decode (utf8_encode cs) = cs.
Proof.
  unfold utf8_decode, utf8_encode.
  induction cs as [|c cs IH]; [done|].
  cbn [forallb map concat]. rewrite andb_true_iff. intros [Hc Hcs].
  rewrite utf8_decode_encode_scalar by done. by rewrite IH.
Qed.

Lemma to_N_byte_of_N n : n < 256 -> Byte.to_N (byte_of_N n) = n.
Proof.
  intros Hn. unfold byte_of_N.
  destruct (Byte.of_N n) as [b|] eqn:E.
  - by apply Byte.to_of_N.
  - apply Byte.of_N_None_iff in E. lia.
Qed.

Lemma utf8_encode_scalar_bytes c :
  is_scalar_value c = true -> Forall (fun b => b < 256) (utf8_encode_scalar c).
Proof.
  rewrite is_scalar_value_spec. intros [Hlt Hns].
  unfold utf8_encode_scalar.
  destruct (N.leb_spec c 0x7F); [|destruct (N.leb_spec c 0x7FF); [|destruct (N.leb_spec c 0xFFFF)]];
    split_div; repeat constructor; divlia.
Qed.

Lemma utf8_encode_bytes cs :
  forallb is_scalar_value cs = true ->
  map Byte.to_N (map byte_of_N (utf8_encode cs)) = utf8_encode cs.
Proof.
  unfold utf8_encode. induction cs as [|c cs IH]; [done|].
  cbn [forallb map concat]. rewrite andb_true_iff. intros [Hc Hcs].
  rewrite !map_app, (IH Hcs). f_equal.
  pose proof (utf8_encode_scalar_bytes c Hc) as Hb.
  induction Hb as [|b l Hb _ IHl]; [done|].
  cbn [map]. by rewrite to_N_byte_of_N, IHl.
Qed.

Lemma pair_induction {A} (P : list A -> Prop) :
  P [] -> (forall x, P [x]) ->
  (forall x y l, P l -> P (y :: l) -> P (x :: y :: l)) ->
  forall l, P l.
Proof.
  intros H0 H1 H2 l. enough (P l /\ forall x, P (x :: l)) by tauto.
  induction l as [|y l [IHa IHb]]; split; auto.
Qed.

Ltac surrogate_cases c :=
  unfold is_lead_surrogate, is_trail_surrogate, is_scalar_value in *;
  destruct (N.leb_spec 0xD800 c); destruct (N.leb_spec c 0xDBFF);
  destruct (N.leb_spec 0xDC00 c); destruct (N.leb_spec c 0xDFFF);
  destruct (N.ltb_spec c 0x10000); destruct (N.ltb_spec c 0x110000);
  cbn [andb negb] in *; try lia; try discriminate.

Lemma to_scalars_cons c tl :
  to_scalars (c :: tl) =
    if is_lead_surrogate c then
      match tl with
      | d :: tl' =>
          if is_trail_surrogate d
          then (0x10000 + (c - 0xD800) * 0x400 + (d - 0xDC00)) :: to_scalars tl'
          else REPLACEMENT :: to_scalars tl
      | [] => [REPLACEMENT]
      end
    else if is_trail_surrogate c then REPLACEMENT :: to_scalars tl
    else c :: to_scalars tl.
Proof. reflexivity. Qed.

Lemma well_formed_cons c tl :
  well_formed (c :: tl) =
    if is_lead_surrogate c then
      match tl with
      | d :: tl' => is_trail_surrogate d && well_formed tl'
      | [] => false
      end
    else negb (is_trail_surrogate c) && (c <? 0x10000) && well_formed tl.
Proof. reflexivity. Qed.

Lemma from_scalars_cons c cs :
  from_scalars (c :: cs) = utf16_encode_scalar c ++ from_scalars cs.
Proof. reflexivity. Qed.

Lemma surrogate_pair_scalar c d :
  is_lead_surrogate c = true -> is_trail_surrogate d = true ->
  is_scalar_value (0x10000 + (c - 0xD800) * 0x400 + (d - 0xDC00)) = true.
Proof.
  unfold is_lead_surrogate, is_trail_surrogate. rewrite is_scalar_value_spec.
  intros [?%N.leb_le ?%N.leb_le]%andb_true_iff [?%N.leb_le ?%N.leb_le]%andb_true_iff.
  lia.
Qed.

Lemma non_surrogate_scalar c :
  (c <? 0x10000) = true -> is_lead_surrogate c = false ->
  is_trail_surrogate c = false -> is_scalar_value c = true.
Proof. intros. surrogate_cases c; done. Qed.

Lemma surrogate_range c :
  is_lead_surrogate c || is_trail_surrogate c = true -> (c <? 0x10000) = true.
Proof. intros H. apply N.ltb_lt. surrogate_cases c. Qed.

Lemma utf16_pair c d :
  is_lead_surrogate c = true -> is_trail_surrogate d = true ->
  utf16_encode_scalar (0x10000 + (c - 0xD800) * 0x400 + (d - 0xDC00)) = [c; d].
Proof.
  unfold is_lead_surrogate, is_trail_surrogate, utf16_encode_scalar.
  intros [?%N.leb_le ?%N.leb_le]%andb_true_iff [?%N.leb_le ?%N.leb_le]%andb_true_iff.
  replace (_ <? 0x10000) with false by (symmetry; apply N.ltb_ge; lia).
  f_equal; [|f_equal]; divlia.
Qed.

(** Whatever the code units, as long as each is 16 bits wide, the encoder
    works on scalar values. *)
Lemma to_scalars_valid s :
  forallb (fun c => c <? 0x10000) s = true ->
  forallb is_scalar_value (to_scalars s) = true.
Proof.
  induction s as [| x | x y l IHl IHyl] using pair_induction; [done|..].
  - cbn [forallb to_scalars]. rewrite andb_true_r. intros Hx.
    destruct (is_lead_surrogate x) eqn:Ex; [done|].
    destruct (is_trail_surrogate x) eqn:Ex'; [done|].
    cbn [forallb]. rewrite andb_true_r. by apply non_surrogate_scalar.
  - intros H. pose proof H as H'. cbn [forallb] in H'.
    apply andb_true_iff in H' as [Hx H'].
    specialize (IHyl H'). apply andb_true_iff in H' as [Hy Hl]. specialize (IHl Hl).
    rewrite to_scalars_cons.
    destruct (is_lead_surrogate x) eqn:Ex.
    + destruct (is_trail_surrogate y) eqn:Ey; cbn [forallb].
      * rewrite IHl, andb_true_r. by apply surrogate_pair_scalar.
      * by rewrite IHyl.
    + destruct (is_trail_surrogate x) eqn:Ex'; cbn [forallb]; rewrite IHyl; [done|].
      rewrite andb_true_r. by apply non_surrogate_scalar.
Qed.

Lemma from_to_scalars s :
  well_formed s = true -> from_scalars (to_scalars s) = s.
Proof.
  induction s as [| x | x y l IHl IHyl] using pair_induction; [done|..].
  - cbn [well_formed to_scalars]. destruct (is_lead_surrogate x) eqn:E; [done|].
    rewrite andb_true_r, andb_true_iff, negb_true_iff. intros [E' Hx].
    rewrite E', from_scalars_cons. unfold utf16_encode_scalar. by rewrite Hx.
  - rewrite to_scalars_cons, well_formed_cons.
    destruct (is_lead_surrogate x) eqn:Ex.
    + rewrite andb_true_iff. intros [Ey Hl].
      by rewrite Ey, from_scalars_cons, (IHl Hl), utf16_pair.
    + rewrite !andb_true_iff, negb_true_iff. intros [[Ex' Hx] Hyl].
      rewrite Ex', from_scalars_cons, (IHyl Hyl).
      unfold utf16_encode_scalar. by rewrite Hx.
Qed.

Lemma well_formed_range s :
  well_formed s = true -> forallb (fun c => c <? 0x10000) s = true.
Proof.
  induction s as [| x | x y l IHl IHyl] using pair_induction; [done|..].
  - cbn [well_formed forallb]. destruct (is_lead_surrogate x); [done|].
    rewrite andb_true_r, andb_true_iff. intros [_ ->]. done.
  - rewrite well_formed_cons.
    destruct (is_lead_surrogate x) eqn:Ex.
    + rewrite andb_true_iff. intros [Ey Hl]. cbn [forallb].
      rewrite (IHl Hl), andb_true_r.
      rewrite !surrogate_range; [done | by rewrite Ey, orb_true_r | by rewrite Ex].
    + rewrite !andb_true_iff. intros [[_ Hx] Hyl].
      change (forallb ?f (x :: ?t)) with (f x && forallb f t). cbv beta.
      by rewrite Hx, (IHyl Hyl).
Qed.

Lemma strip_bom_to_scalars s :
  well_formed s = true -> starts_with_bom s = false ->
  strip_bom (to_scalars s) = to_scalars s.
Proof.
  destruct s as [|c tl]; [done|].
  rewrite to_scalars_cons, well_formed_cons. cbn [starts_with_bom].
  intros Hwf Hb.
  destruct (is_lead_surrogate c) eqn:Ec.
  - destruct tl as [|d tl]; [done|]. apply andb_true_iff in Hwf as [Ed _]. rewrite Ed.
    cbn [strip_bom].
    unfold is_lead_surrogate, is_trail_surrogate, BOM in *.
    apply andb_true_iff in Ec as [?%N.leb_le ?%N.leb_le].
    apply andb_true_iff in Ed as [?%N.leb_le ?%N.leb_le].
    replace (_ =? _) with false by (symmetry; apply N.eqb_neq; lia). done.
  - apply andb_true_iff in Hwf as [[Ec'%negb_true_iff _]%andb_true_iff _].
    rewrite Ec'. cbn [strip_bom]. by rewrite Hb.
Qed.

(** Encoding then decoding a string of 16-bit code units yields the string
    of its scalar values, less a leading byte order mark. *)
Lemma decode_encode s :
  forallb (fun c => c <? 0x10000) s = true ->
  TextDecoder_decode (TextEncoder_encode s) = from_scalars (strip_bom (to_scalars s)).
Proof.
  intros Hs. unfold TextDecoder_decode, TextEncoder_encode.
  by rewrite utf8_encode_bytes, utf8_decode_encode by by apply to_scalars_valid.
Qed.

Lemma text_round_trip s :
  well_formed s = true -> starts_with_bom s = false ->
  TextDecoder_decode (TextEncoder_encode s) = s.
Proof.
  intros Hwf Hb. rewrite decode_encode by by apply well_formed_range.
  rewrite strip_bom_to_scalars by done. by apply from_to_scalars.
Qed.

(** The codec at work: a string with a character outside the basic plane
    and its UTF-8 bytes; a lone surrogate; a leading byte order mark. *)
Example TextEncoder_encode_bytes :
  map Byte.to_N (TextEncoder_encode [0x61; 0xD83D; 0xDE00; 0x4E2D])
  = [0x61; 0xF0; 0x9F; 0x98; 0x80; 0xE4; 0xB8; 0xAD].
Proof. reflexivity. Qed.

Example TextEncoder_encode_lone_surrogate :
  map Byte.to_N (TextEncoder_encode [0xD800]) = [0xEF; 0xBF; 0xBD].
Proof. reflexivity. Qed.

Example TextDecoder_decode_drops_mark :
  TextDecoder_decode (TextEncoder_encode [0xFEFF; 0x61]) = [0x61].
Proof. reflexivity. Qed.

Example TextDecoder_decode_malformed :
  TextDecoder_decode (map byte_of_N [0xE4; 0xB8; 0x61; 0xFF]) = [0xFFFD; 0x61; 0xFFFD].
Proof. reflexivity. Qed.

Example array_notation_examples :
  Resolver.array_notation (js "keys[0]") = true
  /\ Resolver.array_notation (js "a[1][22]") = true
  /\ Resolver.array_notation (js "[0]") = false
  /\ Resolver.array_notation (js "a[]") = false
  /\ Resolver.array_notation (js "openai-api-key") = false.
Proof. repeat split. Qed.

(** ** The platform of reference obeys the laws *)

Lemma reference_laws : PlatformLaws Reference.platform.
Proof.
  split.
  - intros key iv data. cbn. unfold Reference.open, Reference.seal.
    rewrite app_assoc, take_app_length, bool_decide_eq_true_2 by done.
    by rewrite drop_app_length.
  - intros data. cbn. unfold Reference.of_text, Reference.to_text.
    induction data as [|b data IH]; [done|]. cbn [map]. rewrite IH. f_equal.
    unfold byte_of_N. by rewrite Byte.of_to_N.
Qed.

(** ** Worlds *)

Ltac unfold_monad :=
  unfold mbind, M_bind, bind, mret, M_ret, ret, throw, try_catch, emit, lift in *.

Ltac world_fields :=
  cbn [file write_error entropy drawn clock ticks answers asked trace
       log set_file set_drawn set_ticks set_asked fst snd].

Lemma snoc_two {A} (l : list A) x y : (l ++ [x]) ++ [y] = l ++ [x; y].
Proof. by rewrite <- app_assoc. Qed.

Lemma looked_refl w : looked w w [].
Proof. repeat split. by rewrite app_nil_r. Qed.

Lemma looked_trans w1 w2 w3 e1 e2 :
  looked w1 w2 e1 -> looked w2 w3 e2 -> looked w1 w3 (e1 ++ e2).
Proof.
  intros (Hf & Hw & He & Hc & Ht & Ha & Hq & Hl & Ho)
         (Hf' & Hw' & He' & Hc' & Ht' & Ha' & Hq' & Hl' & Ho').
  repeat split; try congruence.
  - rewrite Hl', Hl. by rewrite app_assoc.
  - rewrite forallb_app. by rewrite Ho, Ho'.
Qed.

Lemma looked_log e w : attempts e = true -> looked w (log e w) [e].
Proof. intros He. repeat split. cbn. by rewrite He. Qed.

Lemma looked_read_only w w' events : looked w w' events -> read_only w w'.
Proof.
  intros (Hf & _ & _ & _ & Ht & _ & Hq & Hl & Ho). repeat split; try done.
  exists events. split; [done|]. clear -Ho.
  induction events as [|e events IH]; [done|]. cbn in *.
  apply andb_true_iff in Ho as [He Ho]. rewrite (IH Ho).
  by destruct e.
Qed.

Lemma read_only_refl w : read_only w w.
Proof. repeat split. exists []. by rewrite app_nil_r. Qed.

Lemma read_only_trans w1 w2 w3 :
  read_only w1 w2 -> read_only w2 w3 -> read_only w1 w3.
Proof.
  intros (Hf & Ha & Ht & e1 & He1 & Ho1) (Hf' & Ha' & Ht' & e2 & He2 & Ho2).
  repeat split; try congruence. exists (e1 ++ e2). split.
  - rewrite He2, He1. by rewrite app_assoc.
  - rewrite forallb_app. by rewrite Ho1, Ho2.
Qed.

Lemma read_only_log e w : observes e = true -> read_only w (log e w).
Proof. intros He. repeat split. exists [e]. split; [done|]. cbn. by rewrite He. Qed.

Lemma assertions_app l1 l2 : assertions (l1 ++ l2) = (assertions l1 + assertions l2)%nat.
Proof. unfold assertions. by rewrite List.filter_app, length_app. Qed.

(** ** Running the cryptographic functions *)

(** Both copies of [deriveEncryptionKey] make their call and throw. *)
Lemma deriveEncryptionKey_run `{Platform} cid pk w :
  Crypto.deriveEncryptionKey cid pk w
  = (Throw InvalidBaseKey, log (derivation cid pk) w).
Proof. reflexivity. Qed.

Lemma resolver_deriveEncryptionKey_run `{Platform} cid pk w :
  Resolver.deriveEncryptionKey cid pk w
  = (Throw InvalidBaseKey, log (derivation cid pk) w).
Proof. reflexivity. Qed.

Lemma encryptValue_run `{Platform} v key w :
  has_usage UsageEncrypt key = true ->
  Crypto.encryptValue v key w =
    (let iv := map (entropy w) (seq (drawn w) 12) in
     (Ok {| EncryptedResult.encrypted :=
              base64_encode (aes_gcm_seal (material key) iv (TextEncoder_encode v));
            EncryptedResult.iv := base64_encode iv |},
      log SubtleEncrypt (set_drawn (drawn w + 12) w))).
Proof.
  intros Hu. unfold Crypto.encryptValue, subtle_encrypt, getRandomValues.
  unfold_monad. cbn. rewrite Hu. reflexivity.
Qed.

Lemma decryptValue_run `{Platform} enc iv key w :
  has_usage UsageDecrypt key = true ->
  Crypto.decryptValue enc iv key w =
    (match aes_gcm_open (material key) (base64_decode iv) (base64_decode enc) with
     | Some plain => Ok (TextDecoder_decode plain)
     | None => Throw OperationError
     end, log SubtleDecrypt w).
Proof.
  intros Hu. unfold Crypto.decryptValue, subtle_decrypt. unfold_monad.
  cbn. rewrite Hu. by destruct aes_gcm_open.
Qed.

(** ** Running the resolver *)

Lemma get_property_run value name w :
  value <> JNull -> get_property value name w = (Ok (property value name), w).
Proof. by destruct value. Qed.

Lemma null_or_not (k : Json) : k = JNull \/ k <> JNull.
Proof. destruct k; [by left|right; discriminate..]. Qed.

Lemma resolution_not_null `{Platform} k :
  k <> JNull ->
  resolution k
  = if hardware_bound k then Resolver.failure_of (error_text (derivation_error k))
    else Resolver.Value (property k (js "encryptedValue")) false.
Proof. by destruct k. Qed.

Lemma resolution_events_not_null `{Platform} id k w :
  k <> JNull ->
  resolution_events id k w
  = if hardware_bound k then
      GetCredential (asserted_credential id k) (map (entropy w) (seq (drawn w) 32))
      :: match Buffer_bytes (property k (js "credentialPublicKey")) with
         | Ok publicKey => [derivation id publicKey]
         | Throw _ => []
         end
    else [].
Proof. by destruct k. Qed.

(** [resolveSecretKey] always returns; what it returns depends on the record
    only; it draws random bytes and makes the calls of [resolution_events]. *)
Lemma resolveSecretKey_run `{Platform} id k w :
  exists w',
    Resolver.resolveSecretKey id k w = (Ok (resolution k), w')
    /\ looked w w' (resolution_events id k w).
Proof.
  destruct (null_or_not k) as [->|Hnn].
  { exists w. split; [reflexivity|apply looked_refl]. }
  rewrite resolution_not_null, resolution_events_not_null by done.
  unfold Resolver.resolveSecretKey. unfold hardware_bound.
  unfold try_catch, mbind, M_bind, bind.
  rewrite !get_property_run by done. cbv beta iota zeta.
  destruct (json_truthy (js_and _ _)); cbn [negb].
  2:{ exists w. split; [reflexivity|apply looked_refl]. }
  rewrite get_property_run by done. cbv beta iota zeta.
  unfold Resolver.generateChallenge, Resolver.getFido2Credential,
    Resolver.generateChallenge, getRandomValues, emit, Buffer_from, lift.
  unfold mbind, M_bind, bind, mret, M_ret, ret. cbv beta iota zeta.
  fold (asserted_credential id k).
  unfold derivation_error.
  destruct (Buffer_bytes (property k (js "credentialPublicKey"))) as [pk|e].
  - rewrite resolver_deriveEncryptionKey_run. cbv beta iota zeta.
    eexists. split; [reflexivity|].
    repeat split; world_fields; try reflexivity. apply snoc_two.
  - eexists. split; [reflexivity|].
    repeat split; world_fields; reflexivity.
Qed.

Lemma normalizeId_string s w : Resolver.normalizeId (JString s) w = (Ok s, w).
Proof. unfold Resolver.normalizeId. by destruct (Resolver.array_notation s). Qed.

Lemma has_id_throw id k e : has_id id k = Throw e -> e = null_record.
Proof.
  destruct k; cbn [has_id]; intros E; [|discriminate E..].
  unfold null_record. congruence.
Qed.

Lemma find_by_id_throw id keys e : find_by_id id keys = Throw e -> e = null_record.
Proof.
  induction keys as [|k keys IH]; [discriminate|]. cbn [find_by_id].
  destruct (has_id id k) as [[]|e'] eqn:Ek.
  - discriminate.
  - exact IH.
  - intros E. apply (has_id_throw id k). congruence.
Qed.

Lemma null_record_truthy : truthy (err_message null_record) = true.
Proof. vm_compute. reflexivity. Qed.

Lemma entry_found `{Platform} keys id k :
  find_by_id id keys = Ok (Some k) ->
  entry keys id
  = match resolution k with
    | Resolver.Value value _ => InValues value
    | Resolver.Failure _ message => InErrors {| Resolver.message := message |}
    end.
Proof. intros E. unfold entry. by rewrite E. Qed.

Lemma entry_not_found `{Platform} keys id :
  find_by_id id keys = Ok None -> entry keys id = InErrors not_found.
Proof. intros E. unfold entry. by rewrite E. Qed.

Lemma searchable_cons keys id ids :
  searchable keys (id :: ids) = found keys id && searchable keys ids.
Proof. reflexivity. Qed.

Lemma searchable_iff keys ids :
  searchable keys ids = true <-> forall id, id ∈ ids -> found keys id = true.
Proof.
  unfold searchable. rewrite forallb_forall. split.
  - intros Hall id Hin. apply Hall. by apply list_elem_of_In.
  - intros Hall id Hin. apply Hall. by apply list_elem_of_In.
Qed.

Lemma failure_of_is_failure msg :
  exists code message, Resolver.failure_of msg = Resolver.Failure code message.
Proof.
  unfold Resolver.failure_of.
  destruct (_ || _); [by eexists _, _|]. destruct (_ || _); by eexists _, _.
Qed.

(** The loop records, identifier after identifier, the entry of each, until
    a lookup throws. *)
Lemma resolve_each_run `{Platform} keys ids r bare w :
  exists w' events,
    Resolver.resolve_each keys (map JString ids) r bare w
    = (if searchable keys ids then Ok (fst (record_all keys ids (r, bare)))
       else Throw null_record, w')
    /\ looked w w' events
    /\ (searchable keys ids = true ->
        assertions events = length (List.filter (needs_assertion keys) ids)).
Proof.
  revert r bare w. induction ids as [|id ids IH]; intros r bare w.
  { exists w, []. split; [reflexivity|]. split; [apply looked_refl|done]. }
  cbn [map Resolver.resolve_each]. unfold mbind, M_bind, bind.
  rewrite normalizeId_string. cbv beta iota. unfold lift at 1.
  rewrite searchable_cons.
  unfold record_all. cbn [fold_left List.filter]. fold (record_all keys ids).
  destruct (find_by_id id keys) as [[k|]|e] eqn:Ef.
  - rewrite (entry_found _ _ _ Ef).
    assert (found keys id = true) as -> by (unfold found; by rewrite Ef).
    assert (needs_assertion keys id = hardware_bound k) as ->
      by (unfold needs_assertion; by rewrite Ef).
    destruct (resolveSecretKey_run id k w) as (w1 & -> & Hw1). cbv beta iota.
    assert (assertions (resolution_events id k w)
            = if hardware_bound k then 1%nat else 0%nat) as Hcount.
    { destruct (null_or_not k) as [->|Hnn]; [reflexivity|].
      rewrite resolution_events_not_null by done.
      destruct (hardware_bound k); [|reflexivity].
      by destruct (Buffer_bytes _). }
    destruct (resolution k) as [value fromCache|error message].
    + destruct (IH (fst (Resolver.set_value id value (r, bare)))
                  (snd (Resolver.set_value id value (r, bare))) w1)
        as (w' & events & E & Hw' & Hn).
      exists w', (resolution_events id k w ++ events).
      rewrite <- surjective_pairing in E. cbn [andb record_entry].
      split; [exact E|]. split; [by eapply looked_trans|].
      intros Hs. rewrite assertions_app, Hcount, (Hn Hs).
      by destruct (hardware_bound k).
    + destruct (IH (Resolver.set_error id {| Resolver.message := message |} r) bare w1)
        as (w' & events & E & Hw' & Hn).
      exists w', (resolution_events id k w ++ events).
      cbn [andb record_entry fst snd].
      split; [exact E|]. split; [by eapply looked_trans|].
      intros Hs. rewrite assertions_app, Hcount, (Hn Hs).
      by destruct (hardware_bound k).
  - rewrite (entry_not_found _ _ Ef).
    assert (found keys id = true) as -> by (unfold found; by rewrite Ef).
    assert (needs_assertion keys id = false) as ->
      by (unfold needs_assertion; by rewrite Ef).
    cbv beta iota. cbn [andb record_entry fst snd].
    apply IH.
  - assert (found keys id = false) as -> by (unfold found; by rewrite Ef).
    cbv beta iota. cbn [andb]. rewrite (find_by_id_throw _ _ _ Ef).
    exists w, []. split; [reflexivity|]. split; [apply looked_refl|done].
Qed.

(** ** What the loop leaves in the maps *)

Lemma set_value_other id id' value r bare :
  id <> id' ->
  Resolver.values (fst (Resolver.set_value id value (r, bare))) !! id'
  = Resolver.values r !! id'
  /\ Resolver.errors (fst (Resolver.set_value id value (r, bare))) = Resolver.errors r.
Proof.
  intros Hne. unfold Resolver.set_value.
  destruct (bool_decide (id = Resolver.PROTO) && negb bare).
  - by destruct value as [[]|]; try destruct (own_property _ _).
  - cbn [fst Resolver.values Resolver.errors]. split; [|done].
    destruct value; [by rewrite lookup_insert_ne|by rewrite lookup_delete_ne].
Qed.

Lemma set_value_same id value r bare :
  id <> Resolver.PROTO ->
  Resolver.values (fst (Resolver.set_value id value (r, bare))) !! id
  = printed <$> value.
Proof.
  intros Hne. unfold Resolver.set_value.
  rewrite bool_decide_eq_false_2 by done. cbn [andb fst Resolver.values].
  destruct value; cbn [fmap option_fmap option_map];
    [by rewrite lookup_insert_eq|by rewrite lookup_delete_eq].
Qed.

Lemma set_error_other id id' e r :
  id <> id' ->
  Resolver.errors (Resolver.set_error id e r) !! id' = Resolver.errors r !! id'.
Proof.
  intros Hne. unfold Resolver.set_error. case_bool_decide; [done|].
  cbn [Resolver.errors]. by rewrite lookup_insert_ne.
Qed.

Lemma set_error_same id e r :
  id <> Resolver.PROTO ->
  Resolver.errors (Resolver.set_error id e r) !! id = Some e.
Proof.
  intros Hne. unfold Resolver.set_error. rewrite bool_decide_eq_false_2 by done.
  cbn [Resolver.errors]. by rewrite lookup_insert_eq.
Qed.

Lemma set_error_values id e r :
  Resolver.values (Resolver.set_error id e r) = Resolver.values r.
Proof. unfold Resolver.set_error. by case_bool_decide. Qed.

Lemma set_error_proto e r : Resolver.set_error Resolver.PROTO e r = r.
Proof. unfold Resolver.set_error. by rewrite bool_decide_eq_true_2. Qed.

Lemma record_entry_other id id' e r bare :
  id <> id' ->
  Resolver.values (fst (record_entry id e (r, bare))) !! id' = Resolver.values r !! id'
  /\ Resolver.errors (fst (record_entry id e (r, bare))) !! id'
     = Resolver.errors r !! id'.
Proof.
  intros Hne. destruct e as [value|e]; cbn [record_entry fst snd].
  - destruct (set_value_other id id' value r bare Hne) as [-> ->]. done.
  - by rewrite set_error_values, set_error_other.
Qed.

(** Every identifier but [__proto__] is either where its own resolution puts
    it or nowhere. *)
Definition settled `{Platform} (keys : list Json) (r : Resolver.Response) : Prop :=
  forall id, id <> Resolver.PROTO ->
             holds r id (entry keys id)
             \/ (Resolver.values r !! id = None /\ Resolver.errors r !! id = None).

Lemma record_entry_settled `{Platform} keys id r bare :
  settled keys r ->
  settled keys (fst (record_entry id (entry keys id) (r, bare)))
  /\ (id <> Resolver.PROTO ->
      holds (fst (record_entry id (entry keys id) (r, bare))) id (entry keys id)).
Proof.
  intros Hr.
  assert (id <> Resolver.PROTO ->
          holds (fst (record_entry id (entry keys id) (r, bare))) id (entry keys id))
    as Hid.
  { intros Hne. specialize (Hr id Hne). unfold holds in *.
    destruct (entry keys id) as [value|e]; cbn [record_entry fst snd].
    - rewrite set_value_same by done. split; [done|].
      unfold Resolver.set_value. rewrite bool_decide_eq_false_2 by done.
      cbn [andb fst Resolver.errors]. by destruct Hr as [[? ?]|[? ?]].
    - rewrite set_error_values, set_error_same by done.
      by destruct Hr as [[? ?]|[? ?]]. }
  split; [|done]. intros id' Hne'.
  destruct (decide (id = id')) as [<-|Hne]; [left; by apply Hid|].
  destruct (record_entry_other id id' (entry keys id) r bare Hne) as [Ev Ee].
  specialize (Hr id' Hne'). unfold holds in *. rewrite Ev, Ee. done.
Qed.

Lemma record_all_cons `{Platform} keys id ids state :
  record_all keys (id :: ids) state
  = record_all keys ids (record_entry id (entry keys id) state).
Proof. reflexivity. Qed.

Lemma record_all_other `{Platform} keys ids r bare id :
  id ∉ ids ->
  Resolver.values (fst (record_all keys ids (r, bare))) !! id = Resolver.values r !! id
  /\ Resolver.errors (fst (record_all keys ids (r, bare))) !! id
     = Resolver.errors r !! id.
Proof.
  revert r bare. induction ids as [|id' ids IH]; intros r bare Hnin; [done|].
  apply not_elem_of_cons in Hnin as [Hne Hnin].
  rewrite record_all_cons.
  destruct (record_entry id' (entry keys id') (r, bare)) as [r' bare'] eqn:Er.
  destruct (IH r' bare' Hnin) as [-> ->].
  pose proof (record_entry_other id' id (entry keys id') r bare (not_eq_sym Hne))
    as [Ev Ee].
  rewrite Er in Ev, Ee. done.
Qed.

Lemma record_all_settled `{Platform} keys ids r bare :
  settled keys r ->
  settled keys (fst (record_all keys ids (r, bare)))
  /\ forall id, id ∈ ids -> id <> Resolver.PROTO ->
                holds (fst (record_all keys ids (r, bare))) id (entry keys id).
Proof.
  revert r bare. induction ids as [|id ids IH]; intros r bare Hr.
  { split; [done|]. intros id Hin. by apply elem_of_nil in Hin. }
  rewrite record_all_cons.
  destruct (record_entry_settled keys id r bare Hr) as [Hr' Hid].
  destruct (record_entry id (entry keys id) (r, bare)) as [r' bare'] eqn:Er.
  cbn [fst] in Hr', Hid.
  destruct (IH r' bare' Hr') as [Hs Hall]. split; [done|].
  intros id' [->|Hin]%elem_of_cons Hne; [|by apply Hall].
  destruct (decide (id ∈ ids)) as [Hin|Hnin]; [by apply Hall|].
  destruct (record_all_other keys ids r' bare' id Hnin) as [Ev Ee].
  specialize (Hid Hne). unfold holds in *. rewrite Ev, Ee. done.
Qed.

Lemma settled_empty `{Platform} keys : settled keys empty_response.
Proof. intros id _. right. done. Qed.

Lemma record_all_header `{Platform} keys ids r bare :
  Resolver.protocolVersion (fst (record_all keys ids (r, bare)))
  = Resolver.protocolVersion r
  /\ Resolver.provider (fst (record_all keys ids (r, bare))) = Resolver.provider r.
Proof.
  revert r bare. induction ids as [|id ids IH]; intros r bare; [done|].
  rewrite record_all_cons.
  destruct (record_entry id (entry keys id) (r, bare)) as [r' bare'] eqn:Er.
  destruct (IH r' bare') as [-> ->].
  assert (r' = fst (record_entry id (entry keys id) (r, bare))) as ->
    by (by rewrite Er).
  destruct (entry keys id) as [value|e]; cbn [record_entry fst snd].
  - unfold Resolver.set_value. destruct (_ && _).
    + by destruct value as [[]|]; try destruct (own_property _ _).
    + done.
  - unfold Resolver.set_error. by case_bool_decide.
Qed.

(** Nothing is ever recorded under [__proto__] in [errors]. *)
Lemma record_all_errors_proto `{Platform} keys ids r bare :
  Resolver.errors (fst (record_all keys ids (r, bare))) !! Resolver.PROTO
  = Resolver.errors r !! Resolver.PROTO.
Proof.
  revert r bare. induction ids as [|id ids IH]; intros r bare; [done|].
  rewrite record_all_cons.
  destruct (record_entry id (entry keys id) (r, bare)) as [r' bare'] eqn:Er.
  rewrite IH.
  assert (r' = fst (record_entry id (entry keys id) (r, bare))) as ->
    by (by rewrite Er).
  destruct (decide (id = Resolver.PROTO)) as [->|Hne].
  - destruct (entry keys Resolver.PROTO) as [value|e]; cbn [record_entry fst snd].
    + unfold Resolver.set_value. destruct (_ && _); [|done].
      by destruct value as [[]|]; try destruct (own_property _ _).
    + by rewrite set_error_proto.
  - by destruct (record_entry_other id Resolver.PROTO (entry keys id) r bare Hne).
Qed.

(** With the setter in reach, nothing is recorded under [__proto__] in
    [values] either. *)
Lemma record_all_proto_safe `{Platform} keys ids r :
  proto_safe keys = true ->
  snd (record_all keys ids (r, false)) = false
  /\ Resolver.values (fst (record_all keys ids (r, false))) !! Resolver.PROTO
     = Resolver.values r !! Resolver.PROTO.
Proof.
  intros Hsafe. revert r. induction ids as [|id ids IH]; intros r; [done|].
  rewrite record_all_cons.
  assert (snd (record_entry id (entry keys id) (r, false)) = false
          /\ Resolver.values (fst (record_entry id (entry keys id) (r, false)))
               !! Resolver.PROTO = Resolver.values r !! Resolver.PROTO) as [Hb Hv].
  { destruct (decide (id = Resolver.PROTO)) as [->|Hne].
    - unfold proto_safe in Hsafe.
      destruct (entry keys Resolver.PROTO) as [value|e]; cbn [record_entry fst snd].
      + unfold Resolver.set_value. rewrite bool_decide_eq_true_2 by done.
        cbn [andb negb]. unfold keeps_setter in Hsafe.
        destruct value as [[]|]; try done.
        by destruct (own_property _ _).
      + by rewrite set_error_proto.
    - split; [|by destruct (record_entry_other id Resolver.PROTO (entry keys id)
                              r false Hne)].
      destruct (entry keys id) as [value|e]; cbn [record_entry fst snd]; [|done].
      unfold Resolver.set_value. by rewrite bool_decide_eq_false_2. }
  destruct (record_entry id (entry keys id) (r, false)) as [r' bare'].
  cbn [fst snd] in Hb, Hv. subst bare'. rewrite <- Hv. apply IH.
Qed.

(** An identifier whose own resolution is an error gets no value. *)
Lemma record_all_no_value `{Platform} keys ids r bare id e :
  entry keys id = InErrors e ->
  Resolver.values (fst (record_all keys ids (r, bare))) !! id
  = Resolver.values r !! id.
Proof.
  intros He. revert r bare. induction ids as [|id' ids IH]; intros r bare; [done|].
  rewrite record_all_cons.
  destruct (record_entry id' (entry keys id') (r, bare)) as [r' bare'] eqn:Er.
  rewrite IH.
  assert (r' = fst (record_entry id' (entry keys id') (r, bare))) as ->
    by (by rewrite Er).
  destruct (decide (id' = id)) as [->|Hne].
  - rewrite He. cbn [record_entry fst snd]. by rewrite set_error_values.
  - by destruct (record_entry_other id' id (entry keys id') r bare Hne).
Qed.

(** ** Loading the store *)

Lemma loadStoredKeys_world w : snd (Resolver.loadStoredKeys w) = log ReadFile w.
Proof.
  unfold Resolver.loadStoredKeys, fs_readFile, JSON_parse. unfold_monad.
  destruct (file w) as [msg|code msg|[msg|v]]; cbn [err_code].
  - by case_bool_decide.
  - by case_bool_decide.
  - by case_bool_decide.
  - destruct v; try done; by case_bool_decide.
Qed.

Lemma loadStoredKeys_file w w' :
  file w = file w' ->
  fst (Resolver.loadStoredKeys w) = fst (Resolver.loadStoredKeys w').
Proof.
  intros Hf. unfold Resolver.loadStoredKeys, fs_readFile, JSON_parse. unfold_monad.
  rewrite <- Hf.
  destruct (file w) as [msg|code msg|[msg|v]]; cbn [err_code].
  - by case_bool_decide.
  - by case_bool_decide.
  - by case_bool_decide.
  - destruct v; try done; by case_bool_decide.
Qed.

Lemma loadStoredKeys_array keys w :
  file w = Present (Text (JArray keys)) ->
  Resolver.loadStoredKeys w = (Ok keys, log ReadFile w).
Proof.
  intros Hf. unfold Resolver.loadStoredKeys, fs_readFile, JSON_parse. unfold_monad.
  by rewrite Hf.
Qed.

Lemma loadStoredKeys_absent msg w :
  file w = Absent msg ->
  Resolver.loadStoredKeys w = (Ok [], log ReadFile w).
Proof.
  intros Hf. unfold Resolver.loadStoredKeys, fs_readFile, JSON_parse. unfold_monad.
  rewrite Hf. cbn [err_code]. by rewrite bool_decide_eq_true_2.
Qed.

(** ** Running [main] *)

Lemma accepted_not_null request ids : accepted request ids -> request <> JNull.
Proof. intros [Hv _] ->. discriminate. Qed.

Lemma accepted_request_for ids : ids <> [] -> accepted (request_for ids) ids.
Proof. intros Hne. by repeat split. Qed.

Lemma is_number_false n v : is_number n v = false <-> v <> Some (JNumber n).
Proof.
  unfold is_number. destruct v as [[]|]; try (split; [discriminate|done]).
  rewrite Z.eqb_neq. split; [congruence|]. intros Hne ->. done.
Qed.

Lemma is_string_false s v : is_string s v = false <-> v <> Some (JString s).
Proof.
  unfold is_string. destruct v as [[]|]; try (split; [discriminate|done]).
  rewrite bool_decide_eq_false. split; [congruence|]. intros Hne ->. done.
Qed.

Lemma main_throw `{Platform} input w e w' :
  (request ← Resolver.readRequest input; Resolver.resolveSecrets request) w
  = (Throw e, w') ->
  Resolver.main input w =
    ({| Resolver.stdout :=
          fatal_response (if truthy (err_message e) then err_message e
                          else js "Unknown error");
        Resolver.exit_code := 1 |}, w').
Proof. intros E. unfold Resolver.main. by rewrite E. Qed.

(** The checks of [resolveSecrets] passed, the store is read and the loop
    run. *)
Lemma resolveSecrets_admitted `{Platform} request items w :
  admitted request items ->
  Resolver.resolveSecrets request w
  = match Resolver.loadStoredKeys w with
    | (Ok keys, w1) => Resolver.resolve_each keys items empty_response false w1
    | (Throw _, w1) => (Ok empty_response, w1)
    end.
Proof.
  intros (Hv & Hp & Hi & Hne).
  assert (request <> JNull) as Hnn by (intros ->; discriminate).
  unfold Resolver.resolveSecrets. unfold mbind, M_bind, bind.
  rewrite get_property_run, Hv by done. cbv beta iota.
  change (is_number Resolver.PROTOCOL_VERSION (Some (JNumber 1))) with true.
  cbn [negb].
  rewrite get_property_run, Hp by done. cbv beta iota.
  unfold is_string. rewrite bool_decide_eq_true_2 by done. cbn [negb].
  rewrite get_property_run, Hi by done. cbv beta iota.
  destruct items as [|item items]; [done|].
  cbn [json_truthy Array_isArray array_items negb orb length Nat.eqb].
  unfold try_catch, mbind, M_bind, bind, mret, M_ret, ret.
  by destruct (Resolver.loadStoredKeys w) as [[keys|e] w1].
Qed.

Lemma accepted_admitted request ids :
  accepted request ids -> admitted request (map JString ids).
Proof.
  intros (Hv & Hp & Hi & Hne). repeat split; try done.
  by destruct ids.
Qed.

Lemma answer_searchable `{Platform} keys ids :
  searchable keys ids = true ->
  answer keys ids
  = {| Resolver.stdout := fst (record_all keys ids (empty_response, false));
       Resolver.exit_code := 0 |}.
Proof. intros Hs. unfold answer. by rewrite Hs. Qed.

(** What an accepted request is answered with. *)
Lemma main_accepted `{Platform} request ids w :
  accepted request ids ->
  exists w' events,
    Resolver.main (Resolver.Request request) w =
      (match fst (Resolver.loadStoredKeys w) with
       | Ok keys => answer keys ids
       | Throw _ => {| Resolver.stdout := empty_response; Resolver.exit_code := 0 |}
       end, w')
    /\ looked (log ReadFile w) w' events
    /\ (forall e, fst (Resolver.loadStoredKeys w) = Throw e -> w' = log ReadFile w)
    /\ (forall keys, fst (Resolver.loadStoredKeys w) = Ok keys ->
        searchable keys ids = true ->
        assertions events = length (List.filter (needs_assertion keys) ids)).
Proof.
  intros Hacc. unfold Resolver.main. cbn [Resolver.readRequest].
  unfold mbind at 1, M_bind at 1, bind at 1, ret at 1. cbv beta iota.
  rewrite (resolveSecrets_admitted request (map JString ids) w)
    by by apply accepted_admitted.
  pose proof (loadStoredKeys_world w) as Hw.
  destruct (Resolver.loadStoredKeys w) as [[keys|e] w1]; cbn [fst snd] in *; subst w1.
  - destruct (resolve_each_run keys ids empty_response false (log ReadFile w))
      as (w' & events & -> & Hl & Hn).
    exists w', events. unfold answer.
    destruct (searchable keys ids) eqn:Es.
    + split; [done|]. split; [done|]. split; [done|].
      intros keys' [= <-] _. by apply Hn.
    + rewrite null_record_truthy. split; [done|]. split; [done|]. split; [done|].
      intros keys' [= <-] Hs. congruence.
  - exists (log ReadFile w), []. split; [done|]. split; [apply looked_refl|].
    split; [done|]. intros keys' [=].
Qed.

(** What an accepted request is answered with depends on the store file
    only. *)
Lemma main_accepted_file `{Platform} request ids w w' :
  accepted request ids ->
  file w = file w' ->
  fst (Resolver.main (Resolver.Request request) w)
  = fst (Resolver.main (Resolver.Request request) w').
Proof.
  intros Hacc Hf.
  destruct (main_accepted request ids w Hacc) as (w1 & e1 & -> & _).
  destruct (main_accepted request ids w' Hacc) as (w2 & e2 & -> & _).
  cbn [fst]. by rewrite (loadStoredKeys_file w w' Hf).
Qed.

(** For an accepted request over a store that loads and can be searched, the
    process exits with code 0 and every requested identifier but [__proto__]
    is where its own resolution puts it. *)
Lemma response_holds `{Platform} request ids keys w id :
  accepted request ids ->
  fst (Resolver.loadStoredKeys w) = Ok keys ->
  searchable keys ids = true ->
  id ∈ ids ->
  id <> Resolver.PROTO ->
  holds (Resolver.stdout (fst (Resolver.main (Resolver.Request request) w))) id
    (entry keys id)
  /\ Resolver.exit_code (fst (Resolver.main (Resolver.Request request) w)) = 0%Z.
Proof.
  intros Hacc Hload Hs Hin Hne.
  destruct (main_accepted request ids w Hacc) as (w' & events & -> & _).
  rewrite Hload, (answer_searchable _ _ Hs).
  cbn [fst Resolver.stdout Resolver.exit_code]. split; [|done].
  by apply (record_all_settled keys ids empty_response false (settled_empty keys)).
Qed.

(** Whatever the identifiers are, the loop only looks. *)
Lemma resolve_each_looked `{Platform} keys items r bare w :
  exists events, looked w (snd (Resolver.resolve_each keys items r bare w)) events.
Proof.
  revert r bare w. induction items as [|item items IH]; intros r bare w.
  { exists []. apply looked_refl. }
  cbn [Resolver.resolve_each]. unfold mbind, M_bind, bind.
  destruct item as [| | | | |s| |];
    try (exists []; apply looked_refl).
  rewrite normalizeId_string. cbv beta iota. unfold lift at 1.
  destruct (find_by_id s keys) as [[k|]|e].
  - destruct (resolveSecretKey_run s k w) as (w1 & -> & Hw1). cbv beta iota.
    destruct (resolution k) as [value fromCache|error message].
    + destruct (IH (fst (Resolver.set_value s value (r, bare)))
                  (snd (Resolver.set_value s value (r, bare))) w1) as (events & Hl).
      eexists. by eapply looked_trans.
    + destruct (IH (Resolver.set_error s {| Resolver.message := message |} r)
                  bare w1) as (events & Hl).
      eexists. by eapply looked_trans.
  - apply IH.
  - exists []. apply looked_refl.
Qed.

Lemma resolveSecrets_looked `{Platform} request w :
  exists events, looked w (snd (Resolver.resolveSecrets request w)) events.
Proof.
  destruct (null_or_not request) as [->|Hnn].
  { exists []. apply looked_refl. }
  unfold Resolver.resolveSecrets. unfold mbind, M_bind, bind, throw.
  rewrite get_property_run by done. cbv beta iota.
  destruct (is_number Resolver.PROTOCOL_VERSION _); cbn [negb].
  2:{ unfold template, ret, throw.
      destruct (property request (js "protocolVersion")) as [v|];
        [destruct (to_string v)|]; cbv beta iota;
        exists []; apply looked_refl. }
  rewrite get_property_run by done. cbv beta iota.
  destruct (is_string (js "fido2") _); cbn [negb].
  2:{ unfold template, ret, throw.
      destruct (property request (js "provider")) as [v|];
        [destruct (to_string v)|]; cbv beta iota;
        exists []; apply looked_refl. }
  rewrite get_property_run by done. cbv beta iota.
  destruct (_ || _); [exists []; apply looked_refl|].
  unfold try_catch, mbind, M_bind, bind, mret, M_ret, ret.
  pose proof (loadStoredKeys_world w) as Hw.
  destruct (Resolver.loadStoredKeys w) as [[keys|e] w1]; cbn [snd] in Hw; subst w1.
  - destruct (resolve_each_looked keys
                (array_items (property request (js "ids")))
                {| Resolver.protocolVersion := Resolver.PROTOCOL_VERSION;
                   Resolver.provider := property request (js "provider");
                   Resolver.values := ∅; Resolver.errors := ∅ |}
                false (log ReadFile w)) as (events & Hl).
    exists ([ReadFile] ++ events).
    eapply looked_trans; [by apply looked_log|exact Hl].
  - exists [ReadFile]. by apply looked_log.
Qed.

Lemma main_looked `{Platform} input w :
  exists events, looked w (snd (Resolver.main input w)) events.
Proof.
  unfold Resolver.main. unfold mbind, M_bind, bind.
  induction input as [request| |msg|so_far IH]; cbn [Resolver.readRequest].
  - unfold ret. cbv beta iota.
    destruct (resolveSecrets_looked request w) as (events & Hl).
    exists events.
    by destruct (Resolver.resolveSecrets request w) as [[response|e] w'].
  - unfold ret. cbv beta iota.
    destruct (resolveSecrets_looked (JObject []) w) as (events & Hl).
    exists events.
    by destruct (Resolver.resolveSecrets (JObject []) w) as [[response|e] w'].
  - exists []. apply looked_refl.
  - exact IH.
Qed.

(** ** Running the management commands *)

Lemma cli_load_run w :
  Cli.loadStoredKeys w
  = (Ok (match file w with Present (Text v) => v | _ => JArray [] end),
     log ReadFile w).
Proof.
  unfold Cli.loadStoredKeys, fs_readFile, JSON_parse. unfold_monad.
  by destruct (file w) as [|? ?|[|]].
Qed.

Lemma loaded_value keys w :
  loaded (file w) = Some keys ->
  match file w with Present (Text v) => v | _ => JArray [] end = JArray keys.
Proof.
  intros Hl. destruct (file w) as [|? ?|[|v]]; cbn [loaded] in Hl;
    try (injection Hl as <-; reflexivity).
  destruct v; try discriminate Hl. injection Hl as <-. reflexivity.
Qed.

Lemma not_loaded_value w :
  loaded (file w) = None ->
  exists e, forall method,
    exists e', as_array method (match file w with Present (Text v) => v | _ => JArray [] end)
    = throw e' /\ err_name e' = err_name e.
Proof.
  intros Hl. exists (TypeError []).
  destruct (file w) as [|? ?|[|v]]; cbn [loaded] in Hl; try discriminate Hl.
  destruct v; try discriminate Hl; intros method; eexists; split; reflexivity.
Qed.

Lemma is_string_true s v : is_string s v = true -> v = Some (JString s).
Proof.
  unfold is_string. destruct v as [[]|]; try discriminate.
  intros Hb. apply bool_decide_eq_true in Hb. by subst.
Qed.

Lemma has_id_true id k :
  has_id id k = Ok true -> property k (js "id") = Some (JString id) /\ k <> JNull.
Proof.
  destruct k; cbn [has_id]; try discriminate;
    (intros E; split; [apply is_string_true; congruence|discriminate]).
Qed.

Lemma find_by_id_has_id id keys k :
  find_by_id id keys = Ok (Some k) ->
  property k (js "id") = Some (JString id) /\ k <> JNull.
Proof.
  induction keys as [|k' keys IH]; [discriminate|]. cbn [find_by_id].
  destruct (has_id id k') as [[]|e] eqn:Ek; [|exact IH|discriminate].
  intros E. assert (k' = k) as -> by congruence. by apply has_id_true.
Qed.

(** [setKey] enrolls a credential, calls [subtle.deriveKey] and throws: it
    encrypts nothing, does not read the store, asks nothing and writes
    nothing. *)
Lemma setKey_run `{Platform} id label value w :
  Cli.setKey id label value w
  = (Throw InvalidBaseKey,
     log (derivation (mock_credentialId id (clock w (ticks w))) (repeat Byte.x00 65))
       (set_ticks (S (ticks w))
          (log (CreateCredential (js "openclaw-" ++ id)
                  (label ++ js " (" ++ id ++ js ")")) w))).
Proof. reflexivity. Qed.

Lemma template_string `{Platform} s w : template (Some (JString s)) w = (Ok s, w).
Proof. reflexivity. Qed.

Lemma template_displayable `{Platform} value w :
  displayable value = true -> exists s, template value w = (Ok s, w).
Proof.
  unfold displayable, template. destruct value as [v|]; [|by eexists].
  destruct (to_string v); [by eexists|discriminate].
Qed.

Lemma template_world `{Platform} value w : snd (template value w) = w.
Proof.
  unfold template. destruct value as [v|]; [|done]. by destruct (to_string v).
Qed.

(** What [getKeyValue] does with a record it has found and can display. *)
Lemma getKeyValue_found `{Platform} id keys k w :
  loaded (file w) = Some keys ->
  find_by_id id keys = Ok (Some k) ->
  displayable (property k (js "label")) = true ->
  Cli.getKeyValue id w
  = if hardware_bound k
    then (Throw (Error (js "解密失败: " ++ err_message (derivation_error k))),
          match Buffer_bytes (property k (js "credentialPublicKey")) with
          | Ok publicKey => log (derivation id publicKey) (log ReadFile w)
          | Throw _ => log ReadFile w
          end)
    else (Throw (Error (js "此密钥未使用 FIDO2 加密")), log ReadFile w).
Proof.
  intros Hl Hf Hd. destruct (find_by_id_has_id _ _ _ Hf) as [Hid Hnn].
  destruct (template_displayable _ (log ReadFile w) Hd) as (label & Hlabel).
  unfold Cli.getKeyValue. unfold mbind, M_bind, bind.
  rewrite cli_load_run. cbv beta iota. rewrite (loaded_value _ _ Hl).
  cbn [as_array]. unfold ret at 1, lift at 1. rewrite Hf. cbv beta iota.
  rewrite Hid, template_string. cbv beta iota. rewrite Hlabel. cbv beta iota.
  fold (hardware_bound k). destruct (hardware_bound k); [|reflexivity].
  unfold try_catch, Buffer_from, lift, derivation_error.
  destruct (Buffer_bytes (property k (js "credentialPublicKey"))) as [pk|e];
    [|reflexivity].
  unfold Cli.id_of. rewrite Hid, deriveEncryptionKey_run. reflexivity.
Qed.

(** Whatever the store, [getKeyValue] reads it and at most attempts to
    derive a key. *)
Lemma getKeyValue_world `{Platform} id w :
  snd (Cli.getKeyValue id w) = log ReadFile w
  \/ exists cid pk, snd (Cli.getKeyValue id w) = log (derivation cid pk) (log ReadFile w).
Proof.
  unfold Cli.getKeyValue. unfold mbind, M_bind, bind.
  rewrite cli_load_run. cbv beta iota.
  destruct (match file w with Present (Text v) => v | _ => JArray [] end)
    as [| | | | | |keys|]; try (by left).
  cbn [as_array]. unfold ret, lift.
  destruct (find_by_id id keys) as [[k|]|e]; cbv beta iota; try (by left).
  pose proof (template_world (property k (js "id")) (log ReadFile w)) as Hw1.
  destruct (template (property k (js "id")) (log ReadFile w)) as [[s|e] w1];
    cbn [snd] in Hw1; subst w1; [|by left].
  pose proof (template_world (property k (js "label")) (log ReadFile w)) as Hw2.
  destruct (template (property k (js "label")) (log ReadFile w)) as [[s'|e] w2];
    cbn [snd] in Hw2; subst w2; [|by left].
  destruct (json_truthy _); [|by left].
  unfold try_catch, Buffer_from, lift.
  destruct (Buffer_bytes (property k (js "credentialPublicKey"))) as [pk|e];
    [|by left].
  rewrite deriveEncryptionKey_run. cbv beta iota. right.
  eexists _, _. reflexivity.
Qed.

Lemma getKeyValue_not_found `{Platform} id keys w :
  loaded (file w) = Some keys ->
  find_by_id id keys = Ok None ->
  Cli.getKeyValue id w = (Throw (unknown_key id), log ReadFile w).
Proof.
  intros Hl Hf. unfold Cli.getKeyValue. unfold mbind, M_bind, bind.
  rewrite cli_load_run. cbv beta iota. rewrite (loaded_value _ _ Hl).
  cbn [as_array]. unfold ret at 1, lift at 1. by rewrite Hf.
Qed.

(** What [deleteKey] does with a record it has found and can display. *)
Lemma deleteKey_found `{Platform} id keys k w :
  loaded (file w) = Some keys ->
  find_by_id id keys = Ok (Some k) ->
  displayable (property k (js "label")) = true ->
  Cli.deleteKey id w
  = let answer := answers w (asked w) in
    let w1 := log (Confirm delete_question answer)
                (set_asked (S (asked w)) (log ReadFile w)) in
    if answer then
      match filter_other_ids id keys with
      | Throw e => (Throw e, w1)
      | Ok updatedKeys => fs_writeFile updatedKeys w1
      end
    else (Ok tt, w1).
Proof.
  intros Hl Hf Hd.
  destruct (template_displayable _ (log ReadFile w) Hd) as (label & Hlabel).
  unfold Cli.deleteKey. unfold mbind, M_bind, bind.
  rewrite cli_load_run. cbv beta iota. rewrite (loaded_value _ _ Hl).
  cbn [as_array]. unfold ret at 1, lift at 1. rewrite Hf. cbv beta iota.
  rewrite Hlabel. cbv beta iota. unfold confirm, delete_question. world_fields.
  cbv zeta. destruct (answers w (asked w)); cbn [negb]; [|reflexivity].
  unfold lift. by destruct (filter_other_ids id keys).
Qed.

Lemma deleteKey_not_found `{Platform} id keys w :
  loaded (file w) = Some keys ->
  find_by_id id keys = Ok None ->
  Cli.deleteKey id w = (Throw (unknown_key id), log ReadFile w).
Proof.
  intros Hl Hf. unfold Cli.deleteKey. unfold mbind, M_bind, bind.
  rewrite cli_load_run. cbv beta iota. rewrite (loaded_value _ _ Hl).
  cbn [as_array]. unfold ret at 1, lift at 1. by rewrite Hf.
Qed.

Lemma fs_writeFile_file keys w :
  file (snd (fs_writeFile keys w)) = file w
  \/ (write_error w = None
      /\ file (snd (fs_writeFile keys w)) = Present (Text (JArray (map printed keys)))).
Proof. unfold fs_writeFile. destruct (write_error w); [by left|by right]. Qed.

(** [deleteKey] leaves the store file as it is or, the store being an array
    in which it found the record and which it could filter, writes what is
    left. *)
Lemma deleteKey_file `{Platform} id w :
  file (snd (Cli.deleteKey id w)) = file w
  \/ exists keys updatedKeys,
       file w = Present (Text (JArray keys))
       /\ filter_other_ids id keys = Ok updatedKeys
       /\ write_error w = None
       /\ file (snd (Cli.deleteKey id w))
          = Present (Text (JArray (map printed updatedKeys))).
Proof.
  unfold Cli.deleteKey. unfold mbind, M_bind, bind.
  rewrite cli_load_run. cbv beta iota.
  destruct (file w) as [msg|code msg|[msg|v]] eqn:Ef;
    try (left; cbn; by rewrite Ef).
  destruct v as [| | | | | |keys|]; try (left; cbn; by rewrite Ef).
  cbn [as_array]. unfold ret, lift.
  destruct (find_by_id id keys) as [[k|]|e]; cbv beta iota;
    try (left; cbn; by rewrite Ef).
  pose proof (template_world (property k (js "label")) (log ReadFile w)) as Hw1.
  destruct (template (property k (js "label")) (log ReadFile w)) as [[s|e] w1];
    cbn [snd] in Hw1; subst w1; [|left; cbn; by rewrite Ef].
  unfold confirm. world_fields.
  destruct (answers w (asked w)); cbn [negb]; [|left; cbn; by rewrite Ef].
  unfold lift. destruct (filter_other_ids id keys) as [updatedKeys|e] eqn:Ek;
    [|left; cbn; by rewrite Ef].
  unfold Cli.saveStoredKeys, fs_writeFile. world_fields.
  destruct (write_error w) eqn:Ew; [left; cbn; by rewrite Ef|].
  right. exists keys, updatedKeys. repeat split; done.
Qed.

Lemma action_file `{Platform} c w :
  file (Cli.action c w) = file w
  \/ exists id keys updatedKeys,
       c = Cli.Delete id
       /\ file w = Present (Text (JArray keys))
       /\ filter_other_ids id keys = Ok updatedKeys
       /\ write_error w = None
       /\ file (Cli.action c w) = Present (Text (JArray (map printed updatedKeys))).
Proof.
  destruct c as [id label value|id]; cbn [Cli.action].
  - left. by rewrite setKey_run.
  - destruct (deleteKey_file id w) as [Hf|(keys & keys' & Hf & Hk & Hw & Hf')];
      [by left|right]. by exists id, keys, keys'.
Qed.

(** * The properties of the design document *)

(** ** Key derivation *)

(** [C7] (not met by the code)  [deriveEncryptionKey], in [crypto.ts] as in
    the resolver, takes no random input and calls [subtle.deriveKey] with the
    parameters of the design: PBKDF2 with SHA-256, 100000 iterations and
    [credentialPublicKey] as salt, for a 256-bit AES-GCM key that is not
    extractable and serves encryption and decryption only.  But what it
    hands over as base key is the UTF-8 bytes of [credentialId] followed by
    [credentialPublicKey], raw, and no [CryptoKey]: the call is refused with
    a [TypeError].  On every input both copies throw, and no key is
    produced. *)
Theorem deriveEncryptionKey_yields_no_key `{Platform}
    (credentialId : jsstring) (credentialPublicKey : bytes) (w : World) :
  let call :=
    SubtleDeriveKey (PBKDF2 credentialPublicKey 100000 SHA_256)
      (TextEncoder_encode credentialId ++ credentialPublicKey)
      (AES_GCM 256) false [UsageEncrypt; UsageDecrypt] in
  Crypto.deriveEncryptionKey credentialId credentialPublicKey w
    = (Throw InvalidBaseKey, log call w)
  /\ Resolver.deriveEncryptionKey credentialId credentialPublicKey w
     = (Throw InvalidBaseKey, log call w)
  /\ err_name InvalidBaseKey = js "TypeError".
Proof. repeat split. Qed.

(** On the platform of reference, with the message of Node. *)
Example deriveEncryptionKey_on_reference_platform :
  fst (@Crypto.deriveEncryptionKey Reference.platform
         (js "fido2-openclaw-k-1700000000000") (repeat Byte.x00 65)
         Samples.fresh_world)
  = Throw {| err_name := js "TypeError";
             err_code := Some (js "ERR_INVALID_ARG_TYPE");
             err_message :=
               js "Failed to execute 'deriveKey' on 'SubtleCrypto': 2nd argument is not of type CryptoKey." |}.
Proof. vm_compute. reflexivity. Qed.

(** [C1] (not met by the code)  For a record with a ciphertext and a public
    key, [resolveSecretKey] asks for an assertion on the stored credential
    (or on the identifier, if the record names none) and then calls
    [subtle.deriveKey] with a base key built from the requested identifier
    and the stored public key: the stored [credentialId] takes no part in
    it.  [setKey] builds its base key from the identifier of the credential
    it has enrolled.  Either call is refused, so that no key is derived at
    resolve time nor at set time: the resolver returns the failure made of
    the [TypeError], and decrypts nothing. *)
Theorem resolver_derives_from_requested_identifier `{Platform}
    (id label value : jsstring) (k : Json) (publicKey : jsstring) (w : World) :
  json_truthy (property k (js "encryptedValue")) = true ->
  property k (js "credentialPublicKey") = Some (JString publicKey) ->
  publicKey <> [] ->
  (exists w',
     Resolver.resolveSecretKey id k w
     = (Ok (Resolver.failure_of (error_text InvalidBaseKey)), w')
     /\ file w' = file w
     /\ trace w' = trace w ++
          [ GetCredential (asserted_credential id k)
              (map (entropy w) (seq (drawn w) 32));
            SubtleDeriveKey (PBKDF2 (base64_decode publicKey) 100000 SHA_256)
              (TextEncoder_encode id ++ base64_decode publicKey)
              (AES_GCM 256) false [UsageEncrypt; UsageDecrypt] ])
  /\ (exists w',
        Cli.setKey id label value w = (Throw InvalidBaseKey, w')
        /\ file w' = file w
        /\ trace w' = trace w ++
             [ CreateCredential (js "openclaw-" ++ id) (label ++ js " (" ++ id ++ js ")");
               SubtleDeriveKey (PBKDF2 (repeat Byte.x00 65) 100000 SHA_256)
                 (TextEncoder_encode (mock_credentialId id (clock w (ticks w)))
                  ++ repeat Byte.x00 65)
                 (AES_GCM 256) false [UsageEncrypt; UsageDecrypt] ]).
Proof.
  intros Hv Hpk Hne. split.
  - destruct (resolveSecretKey_run id k w) as (w' & Hrun & Hl).
    assert (k <> JNull) as Hnn by (intros ->; discriminate).
    assert (hardware_bound k = true) as Hb.
    { unfold hardware_bound, js_and. rewrite Hv, Hpk. by destruct publicKey. }
    rewrite resolution_not_null, Hb in Hrun by done.
    rewrite resolution_events_not_null, Hb in Hl by done.
    unfold derivation_error in Hrun. rewrite Hpk in Hrun, Hl.
    cbn [Buffer_bytes] in Hrun, Hl.
    exists w'. split; [exact Hrun|].
    destruct Hl as (Hf & _ & _ & _ & _ & _ & _ & Ht & _). done.
  - rewrite setKey_run. eexists. split; [reflexivity|]. world_fields.
    split; [done|]. apply snoc_two.
Qed.

Lemma resolver_derives_from_requested_identifier_witness :
  let w := Samples.stocked_world (fun _ => true) in
  let publicKey := Reference.to_text (repeat Byte.x00 65) in
  (exists w',
     @Resolver.resolveSecretKey Reference.platform (js "a") Samples.sealed_key w
     = (Ok (Resolver.failure_of (error_text (@InvalidBaseKey Reference.platform))), w')
     /\ file w' = file w
     /\ trace w' = trace w ++
          [ GetCredential (asserted_credential (js "a") Samples.sealed_key)
              (map (entropy w) (seq (drawn w) 32));
            SubtleDeriveKey
              (PBKDF2 (@base64_decode Reference.platform publicKey) 100000 SHA_256)
              (TextEncoder_encode (js "a") ++ @base64_decode Reference.platform publicKey)
              (AES_GCM 256) false [UsageEncrypt; UsageDecrypt] ])
  /\ (exists w',
        @Cli.setKey Reference.platform (js "a") (js "A") (js "v2") w
        = (Throw (@InvalidBaseKey Reference.platform), w')
        /\ file w' = file w
        /\ trace w' = trace w ++
             [ CreateCredential (js "openclaw-" ++ js "a")
                 (js "A" ++ js " (" ++ js "a" ++ js ")");
               SubtleDeriveKey (PBKDF2 (repeat Byte.x00 65) 100000 SHA_256)
                 (TextEncoder_encode (mock_credentialId (js "a") (clock w (ticks w)))
                  ++ repeat Byte.x00 65)
                 (AES_GCM 256) false [UsageEncrypt; UsageDecrypt] ]).
Proof.
  apply (resolver_derives_from_requested_identifier (H := Reference.platform)
           (js "a") (js "A") (js "v2") Samples.sealed_key
           (Reference.to_text (repeat Byte.x00 65))
           (Samples.stocked_world (fun _ => true))).
  - vm_compute. reflexivity.
  - vm_compute. reflexivity.
  - vm_compute. discriminate.
Defined.

(** ** The envelope *)

(** [C4] (not met by the code)  Deriving the key, encrypting under it,
    deriving it again and decrypting never returns: whatever the value, the
    credential and the public key, the first [deriveEncryptionKey] throws
    the [TypeError] of [subtle.deriveKey], and nothing is encrypted or
    decrypted. *)
Theorem round_trip_never_returns `{Platform}
    (value credentialId : jsstring) (publicKey : bytes) (w : World) :
  round_trip value credentialId publicKey w
  = (Throw InvalidBaseKey, log (derivation credentialId publicKey) w).
Proof. reflexivity. Qed.

(** ** The resolver protocol *)

(** [C5] A request whose [protocolVersion] is not 1, whose [provider] is not
    "fido2", or whose [ids] are absent, not an array, or empty, leaves the
    world as it was (no store read, no credential assertion, no
    decryption), is answered by a response whose [errors] has the single key
    [_system] and whose [values] is empty, and ends the process with exit
    code 1. *)
Theorem rejected_request_is_fatal `{Platform} (request : Json) (w : World) :
  rejected request ->
  exists message,
    Resolver.main (Resolver.Request request) w =
      ({| Resolver.stdout := fatal_response message; Resolver.exit_code := 1 |}, w)
    /\ dom (Resolver.errors (fatal_response message)) = {[ js "_system" ]}
    /\ Resolver.values (fatal_response message) = ∅
    /\ Resolver.exit_code (fst (Resolver.main (Resolver.Request request) w)) <> 0%Z.
Proof.
  intros Hrej.
  enough (exists e,
    (request ← Resolver.readRequest (Resolver.Request request);
     Resolver.resolveSecrets request) w = (Throw e, w)) as [e He].
  { eexists. rewrite (main_throw _ _ _ _ He). split; [done|].
    split; [|done]. unfold fatal_response. cbn [Resolver.errors].
    by rewrite dom_singleton_L. }
  cbn [Resolver.readRequest]. unfold mbind at 1, M_bind, bind at 1, ret.
  cbv beta iota.
  destruct (null_or_not request) as [->|Hnn].
  { eexists. reflexivity. }
  unfold Resolver.resolveSecrets. unfold mbind, M_bind, bind, throw.
  rewrite get_property_run by done. cbv beta iota.
  destruct (is_number Resolver.PROTOCOL_VERSION _) eqn:Ev; cbn [negb].
  2:{ unfold template, ret, throw.
      destruct (property request (js "protocolVersion")) as [v|];
        [destruct (to_string v)|]; by eexists. }
  rewrite get_property_run by done. cbv beta iota.
  destruct (is_string (js "fido2") _) eqn:Ep; cbn [negb].
  2:{ unfold template, ret, throw.
      destruct (property request (js "provider")) as [v|];
        [destruct (to_string v)|]; by eexists. }
  rewrite get_property_run by done. cbv beta iota.
  destruct (_ || _) eqn:Ei; [by eexists|]. exfalso.
  apply orb_false_iff in Ei
    as [[Ht%negb_false_iff Ha%negb_false_iff]%orb_false_iff El].
  destruct Hrej as [Hv|[Hp|[Hi|[Hi|Hi]]]].
  - apply is_number_false in Hv. unfold Resolver.PROTOCOL_VERSION in Ev. congruence.
  - apply is_string_false in Hp. congruence.
  - rewrite Hi in Ha. discriminate.
  - congruence.
  - rewrite Hi in El. discriminate.
Qed.

Lemma rejected_request_is_fatal_witness :
  exists message,
    @Resolver.main Reference.platform
      (Resolver.Request
         (JObject [ (js "protocolVersion", JNumber 2);
                    (js "provider", JString (js "fido2"));
                    (js "ids", JArray [JString (js "a")]) ]))
      (Samples.stocked_world (fun _ => true))
    = ({| Resolver.stdout := fatal_response message; Resolver.exit_code := 1 |},
       Samples.stocked_world (fun _ => true))
    /\ dom (Resolver.errors (fatal_response message)) = {[ js "_system" ]}
    /\ Resolver.values (fatal_response message) = ∅
    /\ Resolver.exit_code
         (fst (@Resolver.main Reference.platform
                 (Resolver.Request
                    (JObject [ (js "protocolVersion", JNumber 2);
                               (js "provider", JString (js "fido2"));
                               (js "ids", JArray [JString (js "a")]) ]))
                 (Samples.stocked_world (fun _ => true)))) <> 0%Z.
Proof.
  apply (rejected_request_is_fatal (H := Reference.platform)).
  left. vm_compute. discriminate.
Defined.

(** [C2] (not met by the code)  When the store fails to load (the file does
    not parse, does not hold an array, or cannot be read), an accepted
    request is answered with exit code 0 and a response whose [values] and
    [errors] are both empty: the error [loadStoredKeys] has built is dropped,
    and every requested identifier is in neither map. *)
Theorem store_failure_answers_no_identifier `{Platform}
    (request : Json) (ids : list jsstring) (e : JsError) (w : World) :
  accepted request ids ->
  fst (Resolver.loadStoredKeys w) = Throw e ->
  Resolver.main (Resolver.Request request) w
  = ({| Resolver.stdout := empty_response; Resolver.exit_code := 0 |}, log ReadFile w)
  /\ forall id, id ∈ ids ->
       Resolver.values
         (Resolver.stdout (fst (Resolver.main (Resolver.Request request) w))) !! id = None
       /\ Resolver.errors
            (Resolver.stdout (fst (Resolver.main (Resolver.Request request) w))) !! id
          = None.
Proof.
  intros Hacc Hload.
  destruct (main_accepted request ids w Hacc) as (w' & events & Hrun & Hl & He & _).
  rewrite Hload in Hrun. specialize (He e Hload). subst w'.
  rewrite Hrun. split; [done|]. intros id _. done.
Qed.

Lemma store_failure_answers_no_identifier_witness :
  @Resolver.main Reference.platform
    (Resolver.Request (request_for [js "a"; js "b"])) Samples.corrupt_world
  = ({| Resolver.stdout := empty_response; Resolver.exit_code := 0 |},
     log ReadFile Samples.corrupt_world)
  /\ forall id, id ∈ [js "a"; js "b"] ->
       Resolver.values
         (Resolver.stdout
            (fst (@Resolver.main Reference.platform
                    (Resolver.Request (request_for [js "a"; js "b"]))
                    Samples.corrupt_world))) !! id = None
       /\ Resolver.errors
            (Resolver.stdout
               (fst (@Resolver.main Reference.platform
                       (Resolver.Request (request_for [js "a"; js "b"]))
                       Samples.corrupt_world))) !! id
          = None.
Proof.
  apply (store_failure_answers_no_identifier (H := Reference.platform)
           (request_for [js "a"; js "b"]) [js "a"; js "b"]
           (Error (js "读取存储文件失败: " ++ js "Unexpected end of JSON input"))
           Samples.corrupt_world).
  - by apply accepted_request_for.
  - vm_compute. reflexivity.
Defined.

(** [C3] (not met by the code)  A requested identifier whose record has no
    ciphertext or no public key gets no error: the resolver answers it with
    what the record holds as [encryptedValue], as it is, under the identifier
    in [values] (or with nothing at all when the record has no
    [encryptedValue]), and the process exits with code 0.  This holds for
    every accepted request over a store that loads and whose lookups return,
    and every identifier but [__proto__]. *)
Theorem unbound_record_is_passed_through `{Platform}
    (request : Json) (ids : list jsstring) (keys : list Json) (w : World)
    (id : jsstring) (k : Json) :
  accepted request ids ->
  fst (Resolver.loadStoredKeys w) = Ok keys ->
  searchable keys ids = true ->
  id ∈ ids ->
  id <> Resolver.PROTO ->
  find_by_id id keys = Ok (Some k) ->
  hardware_bound k = false ->
  let exit := fst (Resolver.main (Resolver.Request request) w) in
  Resolver.errors (Resolver.stdout exit) !! id = None
  /\ Resolver.values (Resolver.stdout exit) !! id
     = printed <$> property k (js "encryptedValue")
  /\ Resolver.exit_code exit = 0%Z.
Proof.
  intros Hacc Hload Hs Hin Hne Hfind Hk exit. subst exit.
  destruct (response_holds request ids keys w id Hacc Hload Hs Hin Hne) as [Hh Hc].
  destruct (find_by_id_has_id _ _ _ Hfind) as [_ Hnn].
  rewrite (entry_found _ _ _ Hfind), resolution_not_null, Hk in Hh by done.
  destruct Hh as [Hv He]. done.
Qed.

Lemma unbound_record_is_passed_through_witness :
  let exit :=
    fst (@Resolver.main Reference.platform
           (Resolver.Request (request_for [js "legacy"]))
           (Samples.stocked_world (fun _ => true))) in
  Resolver.errors (Resolver.stdout exit) !! js "legacy" = None
  /\ Resolver.values (Resolver.stdout exit) !! js "legacy"
     = printed <$> property Samples.legacy_key (js "encryptedValue")
  /\ Resolver.exit_code exit = 0%Z.
Proof.
  apply (unbound_record_is_passed_through (H := Reference.platform)
           (request_for [js "legacy"]) [js "legacy"]
           [Samples.sealed_key; Samples.legacy_key]
           (Samples.stocked_world (fun _ => true)) (js "legacy") Samples.legacy_key).
  - by apply accepted_request_for.
  - reflexivity.
  - vm_compute. reflexivity.
  - by left.
  - vm_compute. discriminate.
  - vm_compute. reflexivity.
  - vm_compute. reflexivity.
Defined.

(** The value of the legacy record reaches the response as it is. *)
Example legacy_record_value_returned_without_error :
  let exit :=
    fst (@Resolver.main Reference.platform
           (Resolver.Request (request_for [js "legacy"]))
           (Samples.stocked_world (fun _ => true))) in
  Resolver.values (Resolver.stdout exit) !! js "legacy"
    = Some (JString (js "plain-secret"))
  /\ Resolver.errors (Resolver.stdout exit) = ∅
  /\ Resolver.exit_code exit = 0%Z.
Proof. vm_compute. repeat split. Qed.

(** [C6] (not met by the code)  For an accepted request over a store that
    loads and whose lookups return, the process exits with code 0 and every
    requested identifier other than [__proto__] has its own entry, whatever
    became of the others: its value in [values], or its error in [errors].
    The identifier [__proto__] never gets an entry in [errors], and when its
    resolution fails it gets none in [values] either: requested along with
    others, it is in neither map. *)
Theorem every_identifier_but_proto_gets_its_entry `{Platform}
    (request : Json) (ids : list jsstring) (keys : list Json) (w : World) :
  accepted request ids ->
  fst (Resolver.loadStoredKeys w) = Ok keys ->
  searchable keys ids = true ->
  let exit := fst (Resolver.main (Resolver.Request request) w) in
  Resolver.exit_code exit = 0%Z
  /\ (forall id, id ∈ ids -> id <> Resolver.PROTO ->
        holds (Resolver.stdout exit) id (entry keys id))
  /\ Resolver.errors (Resolver.stdout exit) !! Resolver.PROTO = None
  /\ (forall e, entry keys Resolver.PROTO = InErrors e ->
        Resolver.values (Resolver.stdout exit) !! Resolver.PROTO = None).
Proof.
  intros Hacc Hload Hs exit. subst exit.
  destruct (main_accepted request ids w Hacc) as (w' & events & -> & _).
  rewrite Hload, (answer_searchable _ _ Hs).
  cbn [fst Resolver.stdout Resolver.exit_code]. split; [done|]. split.
  - intros id Hin Hne.
    by apply (record_all_settled keys ids empty_response false (settled_empty keys)).
  - split.
    + by rewrite record_all_errors_proto.
    + intros e He. by rewrite (record_all_no_value _ _ _ _ _ _ He).
Qed.

Lemma every_identifier_but_proto_gets_its_entry_witness :
  let exit :=
    fst (@Resolver.main Reference.platform
           (Resolver.Request (request_for [js "missing"; js "__proto__"]))
           Samples.fresh_world) in
  Resolver.exit_code exit = 0%Z
  /\ (forall id, id ∈ [js "missing"; js "__proto__"] -> id <> Resolver.PROTO ->
        holds (Resolver.stdout exit) id (@entry Reference.platform [] id))
  /\ Resolver.errors (Resolver.stdout exit) !! Resolver.PROTO = None
  /\ (forall e, @entry Reference.platform [] Resolver.PROTO = InErrors e ->
        Resolver.values (Resolver.stdout exit) !! Resolver.PROTO = None).
Proof.
  apply (every_identifier_but_proto_gets_its_entry (H := Reference.platform)
           (request_for [js "missing"; js "__proto__"])
           [js "missing"; js "__proto__"] [] Samples.fresh_world).
  - by apply accepted_request_for.
  - vm_compute. reflexivity.
  - reflexivity.
Defined.

(** Requested with another identifier, [__proto__] is in neither map of the
    response, which has exit code 0. *)
Example proto_identifier_gets_no_entry :
  let exit :=
    fst (@Resolver.main Reference.platform
           (Resolver.Request (request_for [js "missing"; js "__proto__"]))
           Samples.fresh_world) in
  Resolver.errors (Resolver.stdout exit) = {[ js "missing" := not_found ]}
  /\ Resolver.values (Resolver.stdout exit) = ∅
  /\ Resolver.exit_code exit = 0%Z.
Proof. vm_compute. repeat split. Qed.

(** An identifier that is no string ends the run: the identifiers before it
    have been resolved, and the response names none of them. *)
Example malformed_identifier_is_fatal :
  let exit :=
    fst (@Resolver.main Reference.platform
           (Resolver.Request
              (JObject [ (js "protocolVersion", JNumber 1);
                         (js "provider", JString (js "fido2"));
                         (js "ids", JArray [JString (js "a"); JNumber 5]) ]))
           (Samples.stocked_world (fun _ => true))) in
  Resolver.stdout exit = fatal_response (js "id.match is not a function")
  /\ Resolver.exit_code exit = 1%Z.
Proof. split; vm_compute; reflexivity. Qed.

(** ** The store *)

(** [C9] (not met by the code)  The resolver's [loadStoredKeys] returns the
    empty sequence for an absent file and throws for a file that does not
    parse or that holds a JSON value that is no array, an object for
    instance.  The [loadStoredKeys] of [cli.ts] throws for neither: a file
    that does not parse reads as the empty sequence, and a value that is no
    array is returned as it is.  [getKeyValue] then reports a key of a
    garbled store as unknown, and fails on an object for want of [find]. *)
Theorem cli_load_swallows_corrupt_store `{Platform} (w : World)
    (message id : jsstring) (fields : list (jsstring * Json)) :
  let absent := set_file (Absent message) w in
  let garbled := set_file (Present (Unparseable message)) w in
  let other := set_file (Present (Text (JObject fields))) w in
  fst (Resolver.loadStoredKeys absent) = Ok []
  /\ fst (Resolver.loadStoredKeys garbled)
     = Throw (Error (js "读取存储文件失败: " ++ message))
  /\ fst (Resolver.loadStoredKeys other)
     = Throw (Error (js "读取存储文件失败: " ++ js "存储文件格式无效: 不是数组"))
  /\ fst (Cli.loadStoredKeys absent) = Ok (JArray [])
  /\ fst (Cli.loadStoredKeys garbled) = Ok (JArray [])
  /\ fst (Cli.loadStoredKeys other) = Ok (JObject fields)
  /\ fst (Cli.getKeyValue id garbled) = Throw (unknown_key id)
  /\ fst (Cli.getKeyValue id other)
     = Throw (TypeError (js "keys." ++ js "find" ++ js " is not a function")).
Proof.
  intros absent garbled other. do 6 (split; [reflexivity|]). split.
  - by rewrite (getKeyValue_not_found id [] garbled).
  - reflexivity.
Qed.

(** On a store file that does not parse, [get] reports the key as unknown
    and the resolver answers nothing. *)
Example get_on_garbled_store :
  fst (@Cli.getKeyValue Reference.platform (js "k") Samples.corrupt_world)
  = Throw (unknown_key (js "k")).
Proof. vm_compute. reflexivity. Qed.





Lemma filter_other_ids_sublist id keys updatedKeys :
  filter_other_ids id keys = Ok updatedKeys -> updatedKeys `sublist_of` keys.
Proof.
  revert updatedKeys. induction keys as [|k keys IH]; intros updatedKeys.
  { intros [= <-]. constructor. }
  cbn [filter_other_ids]. destruct (has_id id k) as [same|e]; [|discriminate].
  destruct (filter_other_ids id keys) as [rest|e]; [|discriminate].
  intros [= <-]. destruct same; constructor; by apply IH.
Qed.






(** After [set k], [delete legacy] (confirmed) and [set k] again on the
    sample store, the store holds the record [a] alone: the record [k] was
    never written. *)
Example session_on_sample_store :
  file (@Cli.session Reference.platform
          [ Cli.Set_ (js "k") (js "L") (js "v1"); Cli.Delete (js "legacy");
            Cli.Set_ (js "k") (js "L") (js "v2") ]
          (Samples.stocked_world (fun _ => true)))
  = Present (Text (JArray [Samples.sealed_key])).
Proof. vm_compute. reflexivity. Qed.


(** On the sample store, whose record [a] a [set a] would overwrite, with an
    operator who would decline. *)
Example set_on_existing_record :
  let w := Samples.stocked_world (fun _ => false) in
  let w' := snd (@Cli.setKey Reference.platform (js "a") (js "A") (js "v2") w) in
  fst (@Cli.setKey Reference.platform (js "a") (js "A") (js "v2") w)
  = Throw (@InvalidBaseKey Reference.platform)
  /\ file w' = file w
  /\ asked w' = 0%nat
  /\ length (trace w') = 2%nat.
Proof. vm_compute. repeat split. Qed.

(** ** Stores of well-typed records

    The properties below ask of a store what a store of records as
    [types.ts] has them always provides: its lookups return, its labels can
    be printed, it is written back as it was read, and it cannot put the
    setter of [__proto__] out of reach. *)

Lemma typed_record_properties (k : Fido2StoredKey.t) :
  property (Fido2StoredKey.to_json k) (js "id") = Some (JString (Fido2StoredKey.id k))
  /\ property (Fido2StoredKey.to_json k) (js "label")
     = Some (JString (Fido2StoredKey.label k))
  /\ property (Fido2StoredKey.to_json k) (js "encryptedValue")
     = Some (JString (Fido2StoredKey.encryptedValue k)).
Proof.
  destruct k as [id label encryptedValue iv createdAt rpId userHandle
                 [credentialId|] [credentialPublicKey|]];
    repeat split; vm_compute; reflexivity.
Qed.

Lemma typed_find (id : jsstring) (keys : list Fido2StoredKey.t) :
  find_by_id id (map Fido2StoredKey.to_json keys) = Ok None
  \/ exists k, find_by_id id (map Fido2StoredKey.to_json keys)
               = Ok (Some (Fido2StoredKey.to_json k)).
Proof.
  induction keys as [|k keys IH]; [by left|]. cbn [map find_by_id].
  assert (has_id id (Fido2StoredKey.to_json k)
          = Ok (is_string id (property (Fido2StoredKey.to_json k) (js "id")))) as ->
    by reflexivity.
  destruct (is_string id _); [right; by exists k|exact IH].
Qed.

Lemma typed_store_is_searchable (keys : list Fido2StoredKey.t) (ids : list jsstring) :
  searchable (map Fido2StoredKey.to_json keys) ids = true.
Proof.
  apply searchable_iff. intros id _. unfold found.
  by destruct (typed_find id keys) as [->|[k ->]].
Qed.

Lemma typed_label_is_displayable `{Platform} (k : Fido2StoredKey.t) :
  displayable (property (Fido2StoredKey.to_json k) (js "label")) = true.
Proof. by destruct (typed_record_properties k) as (_ & -> & _). Qed.

Lemma typed_store_is_proto_safe `{Platform} (keys : list Fido2StoredKey.t) :
  proto_safe (map Fido2StoredKey.to_json keys) = true.
Proof.
  unfold proto_safe, entry.
  destruct (typed_find Resolver.PROTO keys) as [->|[k ->]]; [done|].
  rewrite resolution_not_null by done.
  destruct (hardware_bound _).
  - by destruct (failure_of_is_failure (error_text (derivation_error
                                                      (Fido2StoredKey.to_json k))))
      as (code & message & ->).
  - by destruct (typed_record_properties k) as (_ & _ & ->).
Qed.

(** A store of records as [types.ts] has them is written back as it was
    read. *)
Lemma typed_store_is_written_back (keys : list Fido2StoredKey.t) :
  map printed (map Fido2StoredKey.to_json keys) = map Fido2StoredKey.to_json keys.
Proof.
  induction keys as [|k keys IH]; [done|]. cbn [map]. rewrite IH. f_equal.
  unfold Fido2StoredKey.to_json, Fido2StoredKey.optional. cbn [printed]. f_equal.
  rewrite !map_app. cbn [map fst snd printed].
  by destruct (Fido2StoredKey.credentialId k),
    (Fido2StoredKey.credentialPublicKey k).
Qed.

(** * Further properties *)

(** ** The resolver and the world *)

(** [X1] Whatever arrives on standard input and whatever the store holds,
    the resolver leaves the store file as it is, puts no question to the
    operator, does not read the clock, and makes no call but reads of the
    store, requests for an assertion and cryptographic operations: it never
    writes the store and never enrolls a credential. *)
Theorem resolver_is_read_only `{Platform} (input : Resolver.Stdin) (w : World) :
  read_only w (snd (Resolver.main input w)).
Proof.
  destruct (main_looked input w) as (events & Hl).
  by apply (looked_read_only _ _ events).
Qed.

(** [X5] Whatever arrives on standard input and whatever the store holds,
    the resolver never gets to decrypt: the calls it makes are reads of the
    store, requests for an assertion and calls of [subtle.deriveKey], which
    are refused; [subtle.decrypt] and [subtle.encrypt] are not among them. *)
Theorem resolver_never_decrypts `{Platform} (input : Resolver.Stdin) (w : World) :
  exists events,
    trace (snd (Resolver.main input w)) = trace w ++ events
    /\ forallb attempts events = true
    /\ (SubtleDecrypt ∉ events)
    /\ (SubtleEncrypt ∉ events).
Proof.
  destruct (main_looked input w)
    as (events & _ & _ & _ & _ & _ & _ & _ & Ht & Ha).
  exists events. split; [done|]. split; [done|].
  assert (forall e, e ∈ events -> attempts e = true) as Hall.
  { clear Ht. induction events as [|e' events IH]; intros e Hin.
    - by apply elem_of_nil in Hin.
    - cbn [forallb] in Ha. apply andb_true_iff in Ha as [He Ha].
      apply elem_of_cons in Hin as [->|Hin]; [done|by apply IH]. }
  split; intros Hin; by apply Hall in Hin.
Qed.

(** ** What a response holds *)

(** [X2] The response to an accepted request names no identifier that was
    not requested: either the process exits with code 0 and every key of
    [values] and of [errors] is a requested identifier, or a lookup has met a
    [null] element of the store, and the process exits with code 1 and the
    [_system] error of that [TypeError] alone. *)
Theorem response_names_requested_identifiers_only `{Platform}
    (request : Json) (ids : list jsstring) (w : World) :
  accepted request ids ->
  let exit := fst (Resolver.main (Resolver.Request request) w) in
  (Resolver.exit_code exit = 0%Z
   /\ forall id,
        is_Some (Resolver.values (Resolver.stdout exit) !! id)
        \/ is_Some (Resolver.errors (Resolver.stdout exit) !! id) ->
        id ∈ ids)
  \/ (Resolver.exit_code exit = 1%Z
      /\ Resolver.stdout exit = fatal_response (err_message null_record)).
Proof.
  intros Hacc exit. subst exit.
  destruct (main_accepted request ids w Hacc) as (w' & events & -> & _).
  cbn [fst]. destruct (fst (Resolver.loadStoredKeys w)) as [keys|e].
  - unfold answer. destruct (searchable keys ids); [left|by right].
    cbn [Resolver.stdout Resolver.exit_code]. split; [done|]. intros id Hsome.
    destruct (decide (id ∈ ids)) as [|Hnin]; [done|]. exfalso.
    destruct (record_all_other keys ids empty_response false id Hnin) as [Ev Ee].
    rewrite Ev, Ee in Hsome. cbn in Hsome. rewrite !lookup_empty in Hsome.
    destruct Hsome as [[? [=]]|[? [=]]].
  - left. cbn [Resolver.stdout Resolver.exit_code]. split; [done|]. intros id Hsome.
    cbn in Hsome. rewrite !lookup_empty in Hsome.
    destruct Hsome as [[? [=]]|[? [=]]].
Qed.

Lemma response_names_requested_identifiers_only_witness :
  let exit :=
    fst (@Resolver.main Reference.platform
           (Resolver.Request (request_for [js "legacy"; js "absent"]))
           (Samples.stocked_world (fun _ => true))) in
  (Resolver.exit_code exit = 0%Z
   /\ forall id,
        is_Some (Resolver.values (Resolver.stdout exit) !! id)
        \/ is_Some (Resolver.errors (Resolver.stdout exit) !! id) ->
        id ∈ [js "legacy"; js "absent"])
  \/ (Resolver.exit_code exit = 1%Z
      /\ Resolver.stdout exit = fatal_response (err_message null_record)).
Proof.
  apply (response_names_requested_identifiers_only (H := Reference.platform)
           (request_for [js "legacy"; js "absent"]) [js "legacy"; js "absent"]
           (Samples.stocked_world (fun _ => true))).
  by apply accepted_request_for.
Defined.

(** [X3] An identifier other than [__proto__] that no record of the store
    has is answered with the error "Key not found in FIDO2 storage" and no
    value, in every accepted request over a store that loads and whose
    lookups return. *)
Theorem unknown_identifier_is_not_found `{Platform}
    (request : Json) (ids : list jsstring) (keys : list Json) (w : World)
    (id : jsstring) :
  accepted request ids ->
  fst (Resolver.loadStoredKeys w) = Ok keys ->
  searchable keys ids = true ->
  id ∈ ids ->
  id <> Resolver.PROTO ->
  find_by_id id keys = Ok None ->
  let response := Resolver.stdout (fst (Resolver.main (Resolver.Request request) w)) in
  Resolver.errors response !! id = Some not_found
  /\ Resolver.values response !! id = None.
Proof.
  intros Hacc Hload Hs Hin Hne Hfind response. subst response.
  destruct (response_holds request ids keys w id Hacc Hload Hs Hin Hne) as [Hh _].
  rewrite (entry_not_found _ _ Hfind) in Hh. by destruct Hh.
Qed.

Lemma unknown_identifier_is_not_found_witness :
  let response :=
    Resolver.stdout
      (fst (@Resolver.main Reference.platform
              (Resolver.Request (request_for [js "a"; js "absent"]))
              (Samples.stocked_world (fun _ => true)))) in
  Resolver.errors response !! js "absent" = Some not_found
  /\ Resolver.values response !! js "absent" = None.
Proof.
  apply (unknown_identifier_is_not_found (H := Reference.platform)
           (request_for [js "a"; js "absent"]) [js "a"; js "absent"]
           [Samples.sealed_key; Samples.legacy_key]
           (Samples.stocked_world (fun _ => true)) (js "absent")).
  - by apply accepted_request_for.
  - reflexivity.
  - vm_compute. reflexivity.
  - right. by left.
  - vm_compute. discriminate.
  - vm_compute. reflexivity.
Defined.

(** [X4] When the store file is missing, an accepted request is answered
    with exit code 0, no value at all, and the error "Key not found in FIDO2
    storage" for each of its identifiers other than [__proto__], which gets
    no entry. *)
Theorem missing_store_answers_not_found `{Platform}
    (request : Json) (ids : list jsstring) (enoent : jsstring) (w : World) :
  accepted request ids ->
  file w = Absent enoent ->
  let exit := fst (Resolver.main (Resolver.Request request) w) in
  Resolver.exit_code exit = 0%Z
  /\ (forall id, Resolver.values (Resolver.stdout exit) !! id = None)
  /\ (forall id, id ∈ ids -> id <> Resolver.PROTO ->
        Resolver.errors (Resolver.stdout exit) !! id = Some not_found)
  /\ Resolver.errors (Resolver.stdout exit) !! Resolver.PROTO = None.
Proof.
  intros Hacc Hfile exit. subst exit.
  destruct (main_accepted request ids w Hacc) as (w' & events & -> & _).
  rewrite (loadStoredKeys_absent _ _ Hfile). cbn [fst].
  assert (searchable [] ids = true) as Hs.
  { clear. induction ids as [|id ids IH]; [done|]. by rewrite searchable_cons, IH. }
  rewrite (answer_searchable _ _ Hs). cbn [Resolver.stdout Resolver.exit_code].
  split; [done|]. split; [|split].
  - intros id. by rewrite (record_all_no_value [] ids _ _ id not_found).
  - intros id Hin Hne.
    destruct (record_all_settled [] ids empty_response false (settled_empty []))
      as [_ Hall].
    by destruct (Hall id Hin Hne).
  - by rewrite record_all_errors_proto.
Qed.

Lemma missing_store_answers_not_found_witness :
  let exit :=
    fst (@Resolver.main Reference.platform
           (Resolver.Request (request_for [js "a"; js "b"])) Samples.fresh_world) in
  Resolver.exit_code exit = 0%Z
  /\ (forall id, Resolver.values (Resolver.stdout exit) !! id = None)
  /\ (forall id, id ∈ [js "a"; js "b"] -> id <> Resolver.PROTO ->
        Resolver.errors (Resolver.stdout exit) !! id = Some not_found)
  /\ Resolver.errors (Resolver.stdout exit) !! Resolver.PROTO = None.
Proof.
  apply (missing_store_answers_not_found (H := Reference.platform)
           (request_for [js "a"; js "b"]) [js "a"; js "b"]
           (js "ENOENT: no such file or directory") Samples.fresh_world).
  - by apply accepted_request_for.
  - reflexivity.
Defined.

(** ** The assertion *)

Lemma own_property_app name (l1 l2 : list (jsstring * Json)) :
  own_property name (l1 ++ l2)
  = match own_property name l2 with
    | Some v => Some v
    | None => own_property name l1
    end.
Proof.
  induction l1 as [|[key v] l1 IH]; cbn [app own_property].
  - by destruct (own_property name l2).
  - rewrite IH. by destruct (own_property name l2).
Qed.

Lemma own_property_filter name other fields :
  name <> other ->
  own_property name
    (List.filter (fun member => negb (bool_decide (fst member = other))) fields)
  = own_property name fields.
Proof.
  intros Hne. induction fields as [|[key v] fields IH]; [done|].
  cbn [List.filter own_property fst]. case_bool_decide as Hk; cbn [negb].
  - subst key. rewrite IH. destruct (own_property name fields); [done|].
    by rewrite bool_decide_eq_false_2.
  - cbn [own_property]. by rewrite IH.
Qed.

Lemma property_with_credentialId c k name :
  name <> js "credentialId" ->
  property (with_credentialId c k) name = property k name.
Proof.
  intros Hne. destruct k; try done. cbn [with_credentialId property].
  rewrite own_property_app.
  assert (own_property name
            match c with Some v => [(js "credentialId", v)] | None => [] end = None)
    as ->.
  { destruct c; [|done]. cbn [own_property].
    by rewrite bool_decide_eq_false_2 by done. }
  by apply own_property_filter.
Qed.

Lemma encryptedValue_is_not_credentialId : js "encryptedValue" <> js "credentialId".
Proof. intros E. vm_compute in E. discriminate E. Qed.

Lemma credentialPublicKey_is_not_credentialId :
  js "credentialPublicKey" <> js "credentialId".
Proof. intros E. vm_compute in E. discriminate E. Qed.

Lemma resolution_with_credentialId `{Platform} c k :
  resolution (with_credentialId c k) = resolution k.
Proof.
  destruct (null_or_not k) as [->|Hnn]; [done|].
  assert (with_credentialId c k <> JNull) as Hnn' by (by destruct k).
  rewrite !resolution_not_null by done.
  unfold hardware_bound, derivation_error.
  by rewrite !property_with_credentialId
    by (apply encryptedValue_is_not_credentialId
        || apply credentialPublicKey_is_not_credentialId).
Qed.

(** [X6] What [resolveSecretKey] returns depends on the record's ciphertext
    and public key only: not on the credential the record names, and not on
    the state of the world, the random source included.  The assertion
    therefore takes no part in it. *)
Theorem assertion_takes_no_part_in_decryption `{Platform}
    (id : jsstring) (k : Json) (credentialId : option Json) (w w' : World) :
  fst (Resolver.resolveSecretKey id (with_credentialId credentialId k) w')
  = fst (Resolver.resolveSecretKey id k w).
Proof.
  destruct (resolveSecretKey_run id k w) as (w1 & -> & _).
  destruct (resolveSecretKey_run id (with_credentialId credentialId k) w')
    as (w2 & -> & _).
  cbn [fst]. by rewrite resolution_with_credentialId.
Qed.

(** [X7] For an accepted request over a store that loads and whose lookups
    return, the resolver asks for exactly one assertion per occurrence of an
    identifier whose record has a ciphertext and a public key, and for none
    for the others. *)
Theorem one_assertion_per_bound_identifier `{Platform}
    (request : Json) (ids : list jsstring) (keys : list Json) (w : World) :
  accepted request ids ->
  fst (Resolver.loadStoredKeys w) = Ok keys ->
  searchable keys ids = true ->
  assertions (trace (snd (Resolver.main (Resolver.Request request) w)))
  = (assertions (trace w) + length (List.filter (needs_assertion keys) ids))%nat.
Proof.
  intros Hacc Hload Hs.
  destruct (main_accepted request ids w Hacc) as (w' & events & -> & Hl & _ & Hn).
  cbn [snd]. destruct Hl as (_ & _ & _ & _ & _ & _ & _ & -> & _).
  cbn [trace log]. rewrite !assertions_app, (Hn keys Hload Hs). cbn. lia.
Qed.

Lemma one_assertion_per_bound_identifier_witness :
  let w := Samples.stocked_world (fun _ => true) in
  assertions
    (trace (snd (@Resolver.main Reference.platform
                   (Resolver.Request (request_for [js "a"; js "legacy"; js "a"; js "b"]))
                   w)))
  = (assertions (trace w)
     + length (List.filter (needs_assertion [Samples.sealed_key; Samples.legacy_key])
                 [js "a"; js "legacy"; js "a"; js "b"]))%nat.
Proof.
  apply (one_assertion_per_bound_identifier (H := Reference.platform)
           (request_for [js "a"; js "legacy"; js "a"; js "b"])
           [js "a"; js "legacy"; js "a"; js "b"]
           [Samples.sealed_key; Samples.legacy_key]
           (Samples.stocked_world (fun _ => true))).
  - by apply accepted_request_for.
  - reflexivity.
  - vm_compute. reflexivity.
Defined.

Example two_assertions_on_sample_store :
  length (List.filter (needs_assertion [Samples.sealed_key; Samples.legacy_key])
            [js "a"; js "legacy"; js "a"; js "b"]) = 2%nat.
Proof. vm_compute. reflexivity. Qed.

(** ** Records bound to a credential *)

(** [X8] A record with a ciphertext and a public key is never answered with
    a value: in every accepted request over a store that loads and whose
    lookups return, its identifier has no entry in [values], and, unless it
    is [__proto__], has in [errors] the message that the handler of
    [resolveSecretKey] makes of the error of [Buffer.from] or of
    [subtle.deriveKey]. *)
Theorem bound_record_is_never_resolved `{Platform}
    (request : Json) (ids : list jsstring) (keys : list Json) (w : World)
    (id : jsstring) (k : Json) :
  accepted request ids ->
  fst (Resolver.loadStoredKeys w) = Ok keys ->
  searchable keys ids = true ->
  id ∈ ids ->
  find_by_id id keys = Ok (Some k) ->
  hardware_bound k = true ->
  let exit := fst (Resolver.main (Resolver.Request request) w) in
  exists code message,
    Resolver.failure_of (error_text (derivation_error k))
    = Resolver.Failure code message
    /\ Resolver.exit_code exit = 0%Z
    /\ Resolver.values (Resolver.stdout exit) !! id = None
    /\ (id <> Resolver.PROTO ->
        Resolver.errors (Resolver.stdout exit) !! id
        = Some {| Resolver.message := message |}).
Proof.
  intros Hacc Hload Hs Hin Hfind Hk exit. subst exit.
  destruct (failure_of_is_failure (error_text (derivation_error k)))
    as (code & message & Hfail).
  exists code, message. split; [done|].
  destruct (find_by_id_has_id _ _ _ Hfind) as [_ Hnn].
  assert (entry keys id = InErrors {| Resolver.message := message |}) as Hentry.
  { by rewrite (entry_found _ _ _ Hfind), resolution_not_null, Hk, Hfail. }
  destruct (main_accepted request ids w Hacc) as (w' & events & Hrun & _).
  rewrite Hload, (answer_searchable _ _ Hs) in Hrun. rewrite Hrun.
  cbn [fst Resolver.stdout Resolver.exit_code]. split; [done|]. split.
  - by rewrite (record_all_no_value _ _ _ _ _ _ Hentry).
  - intros Hne.
    destruct (record_all_settled keys ids empty_response false (settled_empty keys))
      as [_ Hall].
    specialize (Hall id Hin Hne). rewrite Hentry in Hall. by destruct Hall.
Qed.

Lemma bound_record_is_never_resolved_witness :
  let exit :=
    fst (@Resolver.main Reference.platform
           (Resolver.Request (request_for [js "a"]))
           (Samples.stocked_world (fun _ => true))) in
  exists code message,
    Resolver.failure_of
      (error_text (@derivation_error Reference.platform Samples.sealed_key))
    = Resolver.Failure code message
    /\ Resolver.exit_code exit = 0%Z
    /\ Resolver.values (Resolver.stdout exit) !! js "a" = None
    /\ (js "a" <> Resolver.PROTO ->
        Resolver.errors (Resolver.stdout exit) !! js "a"
        = Some {| Resolver.message := message |}).
Proof.
  apply (bound_record_is_never_resolved (H := Reference.platform)
           (request_for [js "a"]) [js "a"] [Samples.sealed_key; Samples.legacy_key]
           (Samples.stocked_world (fun _ => true)) (js "a") Samples.sealed_key).
  - by apply accepted_request_for.
  - reflexivity.
  - vm_compute. reflexivity.
  - by left.
  - vm_compute. reflexivity.
  - vm_compute. reflexivity.
Defined.

(** The sample record bound to a credential is answered with the message of
    the [TypeError]. *)
Example bound_sample_is_answered_with_the_type_error :
  let exit :=
    fst (@Resolver.main Reference.platform
           (Resolver.Request (request_for [js "a"]))
           (Samples.stocked_world (fun _ => true))) in
  Resolver.errors (Resolver.stdout exit)
  = {[ js "a" := {| Resolver.message :=
                      js "Failed to execute 'deriveKey' on 'SubtleCrypto': 2nd argument is not of type CryptoKey." |} ]}
  /\ Resolver.values (Resolver.stdout exit) = ∅
  /\ Resolver.exit_code exit = 0%Z.
Proof. vm_compute. repeat split. Qed.

(** ** Identifiers that are no strings *)

Lemma resolve_each_not_a_string `{Platform} keys ids item rest r bare w :
  is_JString item = false ->
  searchable keys ids = true ->
  fst (Resolver.resolve_each keys (map JString ids ++ item :: rest) r bare w)
  = Throw (not_a_string item).
Proof.
  intros Hitem. revert r bare w. induction ids as [|id ids IH]; intros r bare w Hs.
  { cbn [map app Resolver.resolve_each]. unfold mbind, M_bind, bind.
    by destruct item. }
  rewrite searchable_cons in Hs. apply andb_true_iff in Hs as [Hf Hs].
  cbn [map app Resolver.resolve_each]. unfold mbind, M_bind, bind.
  rewrite normalizeId_string. cbv beta iota. unfold lift at 1.
  unfold found in Hf.
  destruct (find_by_id id keys) as [[k|]|e]; [| |discriminate Hf].
  - destruct (resolveSecretKey_run id k w) as (w1 & -> & _). cbv beta iota.
    destruct (resolution k); by apply IH.
  - by apply IH.
Qed.

(** [X9] A request with version 1, provider "fido2" and an array [ids] one
    of whose members is not a string fails as a whole once the store has
    loaded and the lookups of the strings before that member have returned:
    exit code 1 and a response whose only entry is the [_system] error with
    the message of the [TypeError] that [normalizeId] raises on the first
    such member.  What was resolved for the identifiers before it is not in
    the response. *)
Theorem identifier_not_a_string_is_fatal `{Platform}
    (request : Json) (ids : list jsstring) (item : Json) (rest : list Json)
    (keys : list Json) (w : World) :
  admitted request (map JString ids ++ item :: rest) ->
  fst (Resolver.loadStoredKeys w) = Ok keys ->
  searchable keys ids = true ->
  is_JString item = false ->
  let exit := fst (Resolver.main (Resolver.Request request) w) in
  Resolver.exit_code exit = 1%Z
  /\ Resolver.stdout exit = fatal_response (err_message (not_a_string item)).
Proof.
  intros Hadm Hload Hs Hitem exit. subst exit.
  enough (fst (Resolver.main (Resolver.Request request) w)
          = {| Resolver.stdout := fatal_response (err_message (not_a_string item));
               Resolver.exit_code := 1 |}) as -> by done.
  unfold Resolver.main. cbn [Resolver.readRequest].
  unfold mbind at 1, M_bind at 1, bind at 1, ret at 1. cbv beta iota.
  rewrite (resolveSecrets_admitted request _ w Hadm).
  destruct (Resolver.loadStoredKeys w) as [o w1]. cbn [fst] in Hload. subst o.
  pose proof (resolve_each_not_a_string keys ids item rest empty_response false w1
                Hitem Hs) as Hthrow.
  destruct (Resolver.resolve_each keys _ empty_response false w1) as [o w'].
  cbn [fst] in Hthrow. subst o. cbn [fst].
  destruct item; try discriminate Hitem; reflexivity.
Qed.

Lemma identifier_not_a_string_is_fatal_witness :
  let exit :=
    fst (@Resolver.main Reference.platform
           (Resolver.Request
              (JObject [ (js "protocolVersion", JNumber 1);
                         (js "provider", JString (js "fido2"));
                         (js "ids", JArray (map JString [js "a"]
                                            ++ JNumber 7 :: [JString (js "legacy")])) ]))
           (Samples.stocked_world (fun _ => true))) in
  Resolver.exit_code exit = 1%Z
  /\ Resolver.stdout exit = fatal_response (err_message (not_a_string (JNumber 7))).
Proof.
  apply (identifier_not_a_string_is_fatal (H := Reference.platform)
           (JObject [ (js "protocolVersion", JNumber 1);
                      (js "provider", JString (js "fido2"));
                      (js "ids", JArray (map JString [js "a"]
                                         ++ JNumber 7 :: [JString (js "legacy")])) ])
           [js "a"] (JNumber 7) [JString (js "legacy")]
           [Samples.sealed_key; Samples.legacy_key]
           (Samples.stocked_world (fun _ => true))).
  - by repeat split.
  - reflexivity.
  - vm_compute. reflexivity.
  - reflexivity.
Defined.

(** ** Order and repetition of the identifiers *)

Lemma record_all_lookup `{Platform} keys ids id :
  id <> Resolver.PROTO ->
  let r := fst (record_all keys ids (empty_response, false)) in
  Resolver.values r !! id
  = (if bool_decide (id ∈ ids)
     then match entry keys id with InValues value => printed <$> value | _ => None end
     else None)
  /\ Resolver.errors r !! id
     = (if bool_decide (id ∈ ids)
        then match entry keys id with InErrors e => Some e | _ => None end
        else None).
Proof.
  intros Hne r. subst r. case_bool_decide as Hin.
  - destruct (record_all_settled keys ids empty_response false (settled_empty keys))
      as [_ Hall].
    specialize (Hall id Hin Hne). unfold holds in Hall.
    by destruct (entry keys id).
  - by destruct (record_all_other keys ids empty_response false id Hin) as [-> ->].
Qed.

Lemma searchable_same_set keys ids ids' :
  (forall id, id ∈ ids <-> id ∈ ids') ->
  searchable keys ids = searchable keys ids'.
Proof.
  intros Hset. apply eq_true_iff_eq. rewrite !searchable_iff.
  split; intros Hall id Hin; apply Hall; by apply Hset.
Qed.

Lemma record_all_same_set `{Platform} keys ids ids' :
  proto_safe keys = true ->
  (forall id, id ∈ ids <-> id ∈ ids') ->
  fst (record_all keys ids (empty_response, false))
  = fst (record_all keys ids' (empty_response, false)).
Proof.
  intros Hsafe Hset.
  destruct (record_all_header keys ids empty_response false) as [Hv Hp].
  destruct (record_all_header keys ids' empty_response false) as [Hv' Hp'].
  assert (Resolver.values (fst (record_all keys ids (empty_response, false)))
          = Resolver.values (fst (record_all keys ids' (empty_response, false))))
    as Hvalues.
  { apply map_eq. intros id. destruct (decide (id = Resolver.PROTO)) as [->|Hne].
    - destruct (record_all_proto_safe keys ids empty_response Hsafe) as [_ ->].
      by destruct (record_all_proto_safe keys ids' empty_response Hsafe) as [_ ->].
    - destruct (record_all_lookup keys ids id Hne) as [-> _].
      destruct (record_all_lookup keys ids' id Hne) as [-> _].
      by rewrite (bool_decide_ext _ _ (Hset id)). }
  assert (Resolver.errors (fst (record_all keys ids (empty_response, false)))
          = Resolver.errors (fst (record_all keys ids' (empty_response, false))))
    as Herrors.
  { apply map_eq. intros id. destruct (decide (id = Resolver.PROTO)) as [->|Hne].
    - by rewrite !record_all_errors_proto.
    - destruct (record_all_lookup keys ids id Hne) as [_ ->].
      destruct (record_all_lookup keys ids' id Hne) as [_ ->].
      by rewrite (bool_decide_ext _ _ (Hset id)). }
  destruct (fst (record_all keys ids (empty_response, false))),
    (fst (record_all keys ids' (empty_response, false))).
  cbn in *. congruence.
Qed.

(** [X10] The response to an accepted request depends on which identifiers
    are requested, not on their order nor on how often each occurs: two
    accepted requests with the same set of identifiers get, in the same world,
    the same response and the same exit code, provided the store has no
    record named [__proto__] whose value, once assigned to
    [values.__proto__], puts the setter of [Object.prototype] out of reach
    ([null], or an object with a property [__proto__] of its own).  Stores
    whose [encryptedValue]s are strings have none. *)
Theorem response_depends_on_identifier_set `{Platform}
    (request request' : Json) (ids ids' : list jsstring) (w : World) :
  accepted request ids ->
  accepted request' ids' ->
  (forall id, id ∈ ids <-> id ∈ ids') ->
  proto_safe (stored w) = true ->
  fst (Resolver.main (Resolver.Request request) w)
  = fst (Resolver.main (Resolver.Request request') w).
Proof.
  intros Hacc Hacc' Hset Hsafe.
  destruct (main_accepted request ids w Hacc) as (w1 & e1 & -> & _).
  destruct (main_accepted request' ids' w Hacc') as (w2 & e2 & -> & _).
  cbn [fst]. unfold stored in Hsafe.
  destruct (fst (Resolver.loadStoredKeys w)) as [keys|e]; [|done].
  unfold answer. rewrite (searchable_same_set keys ids ids' Hset).
  destruct (searchable keys ids'); [|done].
  by rewrite (record_all_same_set keys ids ids' Hsafe Hset).
Qed.

Lemma response_depends_on_identifier_set_witness :
  let w := Samples.stocked_world (fun _ => true) in
  fst (@Resolver.main Reference.platform
         (Resolver.Request (request_for [js "a"; js "legacy"; js "a"])) w)
  = fst (@Resolver.main Reference.platform
           (Resolver.Request (request_for [js "legacy"; js "a"])) w).
Proof.
  apply (response_depends_on_identifier_set (H := Reference.platform)
           (request_for [js "a"; js "legacy"; js "a"])
           (request_for [js "legacy"; js "a"])
           [js "a"; js "legacy"; js "a"] [js "legacy"; js "a"]
           (Samples.stocked_world (fun _ => true))).
  - by apply accepted_request_for.
  - by apply accepted_request_for.
  - intros id. rewrite !elem_of_cons, !elem_of_nil. tauto.
  - vm_compute. reflexivity.
Defined.

(** Without that proviso repetition counts: on a store whose record
    [__proto__] has [null] as [encryptedValue], the first assignment to
    [values.__proto__] makes [null] the prototype of [values], and a second
    one then adds the property. *)
Example repeated_proto_identifier_is_answered_differently :
  let once :=
    fst (@Resolver.main Reference.platform
           (Resolver.Request (request_for [js "__proto__"])) Samples.proto_world) in
  let twice :=
    fst (@Resolver.main Reference.platform
           (Resolver.Request (request_for [js "__proto__"; js "__proto__"]))
           Samples.proto_world) in
  Resolver.values (Resolver.stdout once) = ∅
  /\ Resolver.values (Resolver.stdout twice) = {[ js "__proto__" := JNull ]}
  /\ @proto_safe Reference.platform (stored Samples.proto_world) = false.
Proof. vm_compute. repeat split. Qed.

(** ** Reading a key with the management tool *)

(** [X11] For a record with a ciphertext and a public key, [getKeyValue] and
    the resolver fail alike: both meet the same error, of [Buffer.from] or of
    [subtle.deriveKey]; [getKeyValue] throws it as a decryption failure, the
    resolver returns the failure its handler makes of it.  Neither returns
    the secret. *)
Theorem get_and_resolver_fail_alike `{Platform}
    (id : jsstring) (keys : list Json) (k : Json) (w w' : World) :
  loaded (file w) = Some keys ->
  find_by_id id keys = Ok (Some k) ->
  displayable (property k (js "label")) = true ->
  hardware_bound k = true ->
  fst (Cli.getKeyValue id w)
  = Throw (Error (js "解密失败: " ++ err_message (derivation_error k)))
  /\ fst (Resolver.resolveSecretKey id k w')
     = Ok (Resolver.failure_of (error_text (derivation_error k))).
Proof.
  intros Hl Hf Hd Hk. split.
  - by rewrite (getKeyValue_found id keys k w Hl Hf Hd), Hk.
  - destruct (resolveSecretKey_run id k w') as (w1 & -> & _).
    destruct (find_by_id_has_id _ _ _ Hf) as [_ Hnn].
    by rewrite resolution_not_null, Hk.
Qed.

Lemma get_and_resolver_fail_alike_witness :
  let w := Samples.stocked_world (fun _ => true) in
  fst (@Cli.getKeyValue Reference.platform (js "a") w)
  = Throw (Error (js "解密失败: "
                  ++ err_message (@derivation_error Reference.platform
                                    Samples.sealed_key)))
  /\ fst (@Resolver.resolveSecretKey Reference.platform (js "a") Samples.sealed_key w)
     = Ok (Resolver.failure_of
             (error_text (@derivation_error Reference.platform Samples.sealed_key))).
Proof.
  apply (get_and_resolver_fail_alike (H := Reference.platform) (js "a")
           [Samples.sealed_key; Samples.legacy_key] Samples.sealed_key
           (Samples.stocked_world (fun _ => true))
           (Samples.stocked_world (fun _ => true))).
  - reflexivity.
  - vm_compute. reflexivity.
  - vm_compute. reflexivity.
  - vm_compute. reflexivity.
Defined.

(** [X12] [getKeyValue] asks for no assertion: whatever the identifier and
    the store, it reads the store, at most attempts to derive a key, and
    leaves the store, the clock and the operator alone. *)
Theorem get_asks_for_no_assertion `{Platform} (id : jsstring) (w : World) :
  let w' := snd (Cli.getKeyValue id w) in
  read_only w w' /\ assertions (trace w') = assertions (trace w).
Proof.
  intros w'. subst w'.
  destruct (getKeyValue_world id w) as [->|(cid & pk & ->)].
  - split; [by apply read_only_log|]. cbn [trace log]. rewrite assertions_app.
    cbn. lia.
  - split.
    + repeat split. exists [ReadFile; derivation cid pk]. split; [|done].
      cbn [trace log]. apply snoc_two.
    + cbn [trace log]. rewrite !assertions_app. cbn. lia.
Qed.

(** [X13] [getKeyValue] and [deleteKey] on an identifier that no record of
    the store has, the lookup having returned: both throw the error that
    names the identifier, having read the store and done nothing else. *)
Theorem unknown_identifier_is_reported `{Platform}
    (id : jsstring) (keys : list Json) (w : World) :
  loaded (file w) = Some keys ->
  find_by_id id keys = Ok None ->
  Cli.getKeyValue id w = (Throw (unknown_key id), log ReadFile w)
  /\ Cli.deleteKey id w = (Throw (unknown_key id), log ReadFile w).
Proof.
  intros Hl Hf. split.
  - by apply (getKeyValue_not_found id keys).
  - by apply (deleteKey_not_found id keys).
Qed.

Lemma unknown_identifier_is_reported_witness :
  let w := Samples.stocked_world (fun _ => true) in
  @Cli.getKeyValue Reference.platform (js "absent") w
  = (Throw (unknown_key (js "absent")), log ReadFile w)
  /\ @Cli.deleteKey Reference.platform (js "absent") w
     = (Throw (unknown_key (js "absent")), log ReadFile w).
Proof.
  apply (unknown_identifier_is_reported (H := Reference.platform) (js "absent")
           [Samples.sealed_key; Samples.legacy_key]
           (Samples.stocked_world (fun _ => true))).
  - reflexivity.
  - vm_compute. reflexivity.
Defined.

(** [X14] A record without ciphertext or without public key, which the
    resolver answers with what it holds as [encryptedValue], as it is, is
    refused by [getKeyValue]: it throws, having read the store and done
    nothing else.  (The label of the record is one that can be printed, as
    every string is.) *)
Theorem get_refuses_unbound_record `{Platform}
    (id : jsstring) (keys : list Json) (k : Json) (w w' : World) :
  loaded (file w) = Some keys ->
  find_by_id id keys = Ok (Some k) ->
  displayable (property k (js "label")) = true ->
  hardware_bound k = false ->
  Cli.getKeyValue id w = (Throw (Error (js "此密钥未使用 FIDO2 加密")), log ReadFile w)
  /\ fst (Resolver.resolveSecretKey id k w')
     = Ok (Resolver.Value (property k (js "encryptedValue")) false).
Proof.
  intros Hl Hf Hd Hk. split.
  - by rewrite (getKeyValue_found id keys k w Hl Hf Hd), Hk.
  - destruct (resolveSecretKey_run id k w') as (w1 & -> & _).
    destruct (find_by_id_has_id _ _ _ Hf) as [_ Hnn].
    by rewrite resolution_not_null, Hk.
Qed.

Lemma get_refuses_unbound_record_witness :
  let w := Samples.stocked_world (fun _ => true) in
  @Cli.getKeyValue Reference.platform (js "legacy") w
  = (Throw (Error (js "此密钥未使用 FIDO2 加密")), log ReadFile w)
  /\ fst (@Resolver.resolveSecretKey Reference.platform (js "legacy")
            Samples.legacy_key w)
     = Ok (Resolver.Value (property Samples.legacy_key (js "encryptedValue")) false).
Proof.
  apply (get_refuses_unbound_record (H := Reference.platform) (js "legacy")
           [Samples.sealed_key; Samples.legacy_key] Samples.legacy_key
           (Samples.stocked_world (fun _ => true))
           (Samples.stocked_world (fun _ => true))).
  - reflexivity.
  - vm_compute. reflexivity.
  - vm_compute. reflexivity.
  - vm_compute. reflexivity.
Defined.

(** ** The store after a command, as the resolver sees it *)

Lemma has_id_other id id' k :
  id <> id' -> has_id id k = Ok true -> has_id id' k = Ok false.
Proof.
  intros Hne Hk. destruct (has_id_true _ _ Hk) as [Hid Hnn].
  destruct k; try done; cbn [has_id]; rewrite Hid; cbn [is_string];
    by rewrite bool_decide_eq_false_2 by congruence.
Qed.

Lemma has_id_ok id id' k same : has_id id k = Ok same -> exists b, has_id id' k = Ok b.
Proof. destruct k; cbn [has_id]; [discriminate|by eexists..]. Qed.

Lemma find_filter_other id id' keys updatedKeys :
  filter_other_ids id keys = Ok updatedKeys ->
  id <> id' ->
  find_by_id id' updatedKeys = find_by_id id' keys.
Proof.
  intros Hk Hne. revert updatedKeys Hk.
  induction keys as [|k keys IH]; intros updatedKeys.
  { by intros [= <-]. }
  cbn [filter_other_ids]. destruct (has_id id k) as [same|e] eqn:Ek; [|discriminate].
  destruct (filter_other_ids id keys) as [rest|e]; [|discriminate].
  intros [= <-]. cbn [find_by_id]. destruct same.
  - rewrite (has_id_other id id' k Hne Ek). by apply IH.
  - cbn [find_by_id]. destruct (has_id id' k) as [[]|]; [done| |done]. by apply IH.
Qed.

Lemma filter_removes id keys updatedKeys :
  filter_other_ids id keys = Ok updatedKeys -> find_by_id id updatedKeys = Ok None.
Proof.
  revert updatedKeys. induction keys as [|k keys IH]; intros updatedKeys.
  { by intros [= <-]. }
  cbn [filter_other_ids]. destruct (has_id id k) as [same|e] eqn:Ek; [|discriminate].
  destruct (filter_other_ids id keys) as [rest|e]; [|discriminate].
  intros [= <-]. destruct same; [by apply IH|].
  cbn [find_by_id]. rewrite Ek. by apply IH.
Qed.

Lemma filter_found id id' keys updatedKeys :
  filter_other_ids id keys = Ok updatedKeys -> found updatedKeys id' = true.
Proof.
  revert updatedKeys. induction keys as [|k keys IH]; intros updatedKeys.
  { by intros [= <-]. }
  cbn [filter_other_ids]. destruct (has_id id k) as [same|e] eqn:Ek; [|discriminate].
  destruct (filter_other_ids id keys) as [rest|e]; [|discriminate].
  intros [= <-]. destruct same; [by apply IH|].
  unfold found. cbn [find_by_id].
  destruct (has_id_ok id id' k false Ek) as [b ->]. destruct b; [done|].
  by apply (IH rest).
Qed.

Lemma printed_sublist (l1 l2 : list Json) :
  l1 `sublist_of` l2 -> map printed l2 = l2 -> map printed l1 = l1.
Proof.
  induction 1 as [|x l1 l2 _ IH|x l1 l2 _ IH]; [done| |]; cbn [map].
  - intros E. injection E as Ex El. by rewrite Ex, IH.
  - intros E. injection E as Ex El. by apply IH.
Qed.

Lemma record_all_ext `{Platform} keys keys' ids state :
  (forall id, id ∈ ids -> find_by_id id keys' = find_by_id id keys) ->
  record_all keys' ids state = record_all keys ids state.
Proof.
  revert state. induction ids as [|id ids IH]; intros state Hfind; [done|].
  rewrite !record_all_cons.
  assert (entry keys' id = entry keys id) as ->.
  { unfold entry. rewrite Hfind; [done|by left]. }
  apply IH. intros id' Hin. apply Hfind. by right.
Qed.

Lemma answer_ext `{Platform} keys keys' ids :
  (forall id, id ∈ ids -> find_by_id id keys' = find_by_id id keys) ->
  answer keys' ids = answer keys ids.
Proof.
  intros Hfind. unfold answer.
  assert (searchable keys' ids = searchable keys ids) as ->.
  { apply eq_true_iff_eq. rewrite !searchable_iff.
    split; intros Hall id Hin; specialize (Hall id Hin); unfold found in *;
      [by rewrite <- Hfind|by rewrite Hfind]. }
  by rewrite (record_all_ext keys keys' ids _ Hfind).
Qed.

(** [X15] A [set] or a [delete], whatever the operator answers, does not
    change what the resolver answers to a request that does not name the
    command's identifier.  The store is an array that is written back as it
    was read, which every array without a number too large for a double
    is. *)
Theorem other_identifiers_are_unaffected `{Platform}
    (c : Cli.Command) (request : Json) (ids : list jsstring)
    (keys : list Json) (w : World) :
  file w = Present (Text (JArray keys)) ->
  map printed keys = keys ->
  accepted request ids ->
  target c ∉ ids ->
  fst (Resolver.main (Resolver.Request request) (Cli.action c w))
  = fst (Resolver.main (Resolver.Request request) w).
Proof.
  intros Hfile Hprinted Hacc Hnin.
  destruct (action_file c w)
    as [Hf|(id & keys0 & updatedKeys & -> & Hf & Hk & _ & Hf')].
  { by apply (main_accepted_file request ids). }
  assert (keys0 = keys) as -> by congruence.
  destruct (main_accepted request ids w Hacc) as (w1 & e1 & -> & _).
  destruct (main_accepted request ids (Cli.action (Cli.Delete id) w) Hacc)
    as (w2 & e2 & -> & _).
  rewrite (loadStoredKeys_array _ _ Hfile), (loadStoredKeys_array _ _ Hf').
  cbn [fst].
  rewrite (printed_sublist _ _ (filter_other_ids_sublist _ _ _ Hk) Hprinted).
  apply answer_ext. intros id' Hin. apply (find_filter_other id); [done|].
  intros ->. done.
Qed.

Lemma other_identifiers_are_unaffected_witness :
  let w := Samples.stocked_world (fun _ => true) in
  fst (@Resolver.main Reference.platform
         (Resolver.Request (request_for [js "a"; js "absent"]))
         (@Cli.action Reference.platform (Cli.Delete (js "legacy")) w))
  = fst (@Resolver.main Reference.platform
           (Resolver.Request (request_for [js "a"; js "absent"])) w).
Proof.
  apply (other_identifiers_are_unaffected (H := Reference.platform)
           (Cli.Delete (js "legacy")) (request_for [js "a"; js "absent"])
           [js "a"; js "absent"] [Samples.sealed_key; Samples.legacy_key]
           (Samples.stocked_world (fun _ => true))).
  - reflexivity.
  - vm_compute. reflexivity.
  - by apply accepted_request_for.
  - vm_compute. intros Hel.
    repeat (apply elem_of_cons in Hel as [Hel|Hel]; [discriminate|]).
    by apply elem_of_nil in Hel.
Defined.

(** ** Deleting *)

(** [X16] A confirmed [delete] of a record the store has, on a store file
    that can be written and holds an array that is written back as it was
    read and whose every element can be filtered (none is [null]), returns
    and leaves in the file the records of other ids; [getKeyValue] then
    reports the key as unknown, and the resolver answers the identifier,
    unless it is [__proto__], with "Key not found in FIDO2 storage" and no
    value.  (The label of the record is one that can be printed, as every
    string is.) *)
Theorem deleted_key_is_not_found `{Platform}
    (id : jsstring) (keys updatedKeys : list Json) (k : Json)
    (request : Json) (ids : list jsstring) (w : World) :
  file w = Present (Text (JArray keys)) ->
  find_by_id id keys = Ok (Some k) ->
  displayable (property k (js "label")) = true ->
  answers w (asked w) = true ->
  filter_other_ids id keys = Ok updatedKeys ->
  write_error w = None ->
  map printed keys = keys ->
  accepted request ids ->
  id ∈ ids ->
  id <> Resolver.PROTO ->
  let w' := snd (Cli.deleteKey id w) in
  let response := Resolver.stdout (fst (Resolver.main (Resolver.Request request) w')) in
  fst (Cli.deleteKey id w) = Ok tt
  /\ file w' = Present (Text (JArray updatedKeys))
  /\ find_by_id id updatedKeys = Ok None
  /\ fst (Cli.getKeyValue id w') = Throw (unknown_key id)
  /\ Resolver.values response !! id = None
  /\ Resolver.errors response !! id = Some not_found.
Proof.
  intros Hfile Hfind Hd Hans Hk Hwrite Hprinted Hacc Hin Hne w' response.
  assert (loaded (file w) = Some keys) as Hl by (by rewrite Hfile).
  pose proof (deleteKey_found id keys k w Hl Hfind Hd) as Hrun.
  cbv zeta in Hrun. rewrite Hans, Hk in Hrun.
  unfold fs_writeFile in Hrun. world_fields. cbn [write_error log set_asked] in Hrun.
  rewrite Hwrite in Hrun.
  rewrite (printed_sublist _ _ (filter_other_ids_sublist _ _ _ Hk) Hprinted) in Hrun.
  assert (file w' = Present (Text (JArray updatedKeys))) as Hfile'
    by (subst w'; by rewrite Hrun).
  pose proof (filter_removes _ _ _ Hk) as Hnone.
  split; [by rewrite Hrun|]. split; [done|]. split; [done|]. split.
  - assert (loaded (file w') = Some updatedKeys) as Hl' by (by rewrite Hfile').
    by rewrite (getKeyValue_not_found id updatedKeys w' Hl' Hnone).
  - assert (searchable updatedKeys ids = true) as Hs.
    { apply searchable_iff. intros id' _. by apply (filter_found id _ keys). }
    destruct (response_holds request ids updatedKeys w' id Hacc
                (f_equal fst (loadStoredKeys_array _ _ Hfile')) Hs Hin Hne) as [Hh _].
    fold response in Hh. rewrite (entry_not_found _ _ Hnone) in Hh. exact Hh.
Qed.

Lemma deleted_key_is_not_found_witness :
  let w := Samples.stocked_world (fun _ => true) in
  let w' := snd (@Cli.deleteKey Reference.platform (js "a") w) in
  let response :=
    Resolver.stdout
      (fst (@Resolver.main Reference.platform
              (Resolver.Request (request_for [js "a"; js "legacy"])) w')) in
  fst (@Cli.deleteKey Reference.platform (js "a") w) = Ok tt
  /\ file w' = Present (Text (JArray [Samples.legacy_key]))
  /\ find_by_id (js "a") [Samples.legacy_key] = Ok None
  /\ fst (@Cli.getKeyValue Reference.platform (js "a") w') = Throw (unknown_key (js "a"))
  /\ Resolver.values response !! js "a" = None
  /\ Resolver.errors response !! js "a" = Some not_found.
Proof.
  apply (deleted_key_is_not_found (H := Reference.platform) (js "a")
           [Samples.sealed_key; Samples.legacy_key] [Samples.legacy_key]
           Samples.sealed_key
           (request_for [js "a"; js "legacy"]) [js "a"; js "legacy"]
           (Samples.stocked_world (fun _ => true))).
  - reflexivity.
  - vm_compute. reflexivity.
  - vm_compute. reflexivity.
  - reflexivity.
  - vm_compute. reflexivity.
  - reflexivity.
  - vm_compute. reflexivity.
  - by apply accepted_request_for.
  - by left.
  - vm_compute. discriminate.
Defined.

(** [X17] When the operator declines a [delete], [deleteKey] returns with
    the store file as it was, having read the store and asked its question,
    and nothing else.  (The label of the record is one that can be printed,
    as every string is.) *)
Theorem declined_delete_leaves_store `{Platform}
    (id : jsstring) (keys : list Json) (k : Json) (w : World) :
  loaded (file w) = Some keys ->
  find_by_id id keys = Ok (Some k) ->
  displayable (property k (js "label")) = true ->
  answers w (asked w) = false ->
  exists w',
    Cli.deleteKey id w = (Ok tt, w')
    /\ file w' = file w
    /\ trace w' = trace w ++ [ReadFile; Confirm delete_question false].
Proof.
  intros Hl Hfind Hd Hans.
  rewrite (deleteKey_found id keys k w Hl Hfind Hd). cbv zeta. rewrite Hans.
  eexists. split; [reflexivity|]. world_fields. split; [done|]. apply snoc_two.
Qed.

Lemma declined_delete_leaves_store_witness :
  let w := Samples.stocked_world (fun _ => false) in
  exists w',
    @Cli.deleteKey Reference.platform (js "a") w = (Ok tt, w')
    /\ file w' = file w
    /\ trace w' = trace w ++ [ReadFile; Confirm delete_question false].
Proof.
  apply (declined_delete_leaves_store (H := Reference.platform) (js "a")
           [Samples.sealed_key; Samples.legacy_key] Samples.sealed_key
           (Samples.stocked_world (fun _ => false))).
  - reflexivity.
  - vm_compute. reflexivity.
  - vm_compute. reflexivity.
  - reflexivity.
Defined.

(** ** Clearing *)

(** [X18] [clear] asks one question.  Confirmed, it writes the empty store
    over whatever the store file was, be it missing, unreadable or garbled,
    provided the file can be written, and an accepted request is from then
    on answered with "Key not found in FIDO2 storage" for each of its
    identifiers other than [__proto__]; when the file cannot be written,
    [clear] throws the error of the write and the file is as it was.
    Declined, it writes nothing. *)
Theorem clear_empties_store `{Platform}
    (request : Json) (ids : list jsstring) (id : jsstring) (w : World) :
  accepted request ids ->
  id ∈ ids ->
  id <> Resolver.PROTO ->
  let w' := snd (Commands.clear w) in
  let exit := fst (Resolver.main (Resolver.Request request) w') in
  if answers w (asked w)
  then trace w' = trace w ++ [Confirm clear_question true; WriteFile []]
       /\ match write_error w with
          | None =>
              fst (Commands.clear w) = Ok tt
              /\ file w' = Present (Text (JArray []))
              /\ Resolver.exit_code exit = 0%Z
              /\ Resolver.values (Resolver.stdout exit) !! id = None
              /\ Resolver.errors (Resolver.stdout exit) !! id = Some not_found
          | Some error =>
              fst (Commands.clear w) = Throw error /\ file w' = file w
          end
  else fst (Commands.clear w) = Ok tt
       /\ trace w' = trace w ++ [Confirm clear_question false]
       /\ file w' = file w.
Proof.
  intros Hacc Hin Hne w' exit. subst exit w'.
  unfold Commands.clear, confirm, Cli.saveStoredKeys, fs_writeFile. unfold_monad.
  unfold clear_question.
  destruct (answers w (asked w)) eqn:Hans; cbn [negb]; world_fields; [|done].
  destruct (write_error w) eqn:Hw; world_fields.
  - split; [apply snoc_two|done].
  - split; [apply snoc_two|]. split; [done|]. split; [done|]. cbn [map].
    match goal with
    | |- context [Resolver.main _ ?w1] =>
        destruct (response_holds request ids [] w1 id Hacc
                    (f_equal fst (loadStoredKeys_array [] w1 eq_refl))
                    (proj2 (searchable_iff [] ids) (fun _ _ => eq_refl)) Hin Hne)
          as [Hh Hc]
    end.
    split; [exact Hc|]. exact Hh.
Qed.

Lemma clear_empties_store_witness :
  let w := Samples.corrupt_world in
  let w' := snd (Commands.clear w) in
  let exit :=
    fst (@Resolver.main Reference.platform
           (Resolver.Request (request_for [js "a"])) w') in
  if answers w (asked w)
  then trace w' = trace w ++ [Confirm clear_question true; WriteFile []]
       /\ match write_error w with
          | None =>
              fst (Commands.clear w) = Ok tt
              /\ file w' = Present (Text (JArray []))
              /\ Resolver.exit_code exit = 0%Z
              /\ Resolver.values (Resolver.stdout exit) !! js "a" = None
              /\ Resolver.errors (Resolver.stdout exit) !! js "a" = Some not_found
          | Some error =>
              fst (Commands.clear w) = Throw error /\ file w' = file w
          end
  else fst (Commands.clear w) = Ok tt
       /\ trace w' = trace w ++ [Confirm clear_question false]
       /\ file w' = file w.
Proof.
  apply (clear_empties_store (H := Reference.platform)
           (request_for [js "a"]) [js "a"] (js "a") Samples.corrupt_world).
  - by apply accepted_request_for.
  - by left.
  - vm_compute. discriminate.
Defined.

(** ** The envelope under a key *)

(** [X19] Under a key that serves encryption and decryption, such as
    [subtle.deriveKey] would return, and on a platform that obeys the laws of
    its primitives, [decryptValue] returns from what [encryptValue] made of a
    value the value as the text codec carries it: the value itself when it is
    well-formed UTF-16 and does not begin with U+FEFF. *)
Theorem envelope_round_trip `{Platform} `{!PlatformLaws _}
    (value : jsstring) (key : CryptoKey) (w : World) :
  has_usage UsageEncrypt key = true ->
  has_usage UsageDecrypt key = true ->
  fst (envelope value key w) = Ok (TextDecoder_decode (TextEncoder_encode value))
  /\ (well_formed value = true -> starts_with_bom value = false ->
      fst (envelope value key w) = Ok value).
Proof.
  intros He Hd.
  assert (fst (envelope value key w)
          = Ok (TextDecoder_decode (TextEncoder_encode value))) as Hrun.
  { unfold envelope. unfold mbind, M_bind, bind.
    rewrite encryptValue_run by done. cbv beta iota zeta.
    rewrite decryptValue_run by done.
    cbn [EncryptedResult.encrypted EncryptedResult.iv fst].
    by rewrite !base64_decode_encode, aes_gcm_open_seal. }
  split; [done|]. intros Hwf Hhead. rewrite Hrun. f_equal.
  by apply text_round_trip.
Qed.

Lemma envelope_round_trip_witness :
  let key := {| algorithm := AES_GCM 256; extractable := false;
                usages := [UsageEncrypt; UsageDecrypt];
                material := repeat Byte.x02 32 |} in
  fst (@envelope Reference.platform (js "s3cret") key Samples.fresh_world)
  = Ok (TextDecoder_decode (TextEncoder_encode (js "s3cret")))
  /\ (well_formed (js "s3cret") = true -> starts_with_bom (js "s3cret") = false ->
      fst (@envelope Reference.platform (js "s3cret") key Samples.fresh_world)
      = Ok (js "s3cret")).
Proof.
  apply (envelope_round_trip (H := Reference.platform) (PlatformLaws0 := reference_laws)
           (js "s3cret")
           {| algorithm := AES_GCM 256; extractable := false;
              usages := [UsageEncrypt; UsageDecrypt];
              material := repeat Byte.x02 32 |}
           Samples.fresh_world).
  - reflexivity.
  - reflexivity.
Defined.

(** A leading U+FEFF does not survive the envelope. *)
Example envelope_drops_byte_order_mark :
  fst (@envelope Reference.platform [0xFEFF; 0x61]
         {| algorithm := AES_GCM 256; extractable := false;
            usages := [UsageEncrypt; UsageDecrypt];
            material := repeat Byte.x02 32 |}
         Samples.fresh_world)
  = Ok [0x61].
Proof. vm_compute. reflexivity. Qed.

(** ** The nonce *)

(** [X20] [encryptValue] takes as nonce the next 12 bytes of the random
    source, seals the UTF-8 bytes of the value under the key with that very
    nonce, stores the nonce base64-encoded beside the ciphertext, and
    advances the source by 12, so that a second encryption takes and uses
    the 12 bytes after them: no byte of the source serves two nonces. *)
Theorem nonces_are_fresh `{Platform}
    (value value' : jsstring) (key key' : CryptoKey) (w : World) :
  has_usage UsageEncrypt key = true ->
  has_usage UsageEncrypt key' = true ->
  let nonce := map (entropy w) (seq (drawn w) 12) in
  let nonce' := map (entropy w) (seq (drawn w + 12) 12) in
  exists w1 w2,
    Crypto.encryptValue value key w
    = (Ok {| EncryptedResult.encrypted :=
               base64_encode
                 (aes_gcm_seal (material key) nonce (TextEncoder_encode value));
             EncryptedResult.iv := base64_encode nonce |}, w1)
    /\ Crypto.encryptValue value' key' w1
       = (Ok {| EncryptedResult.encrypted :=
                  base64_encode
                    (aes_gcm_seal (material key') nonce' (TextEncoder_encode value'));
                EncryptedResult.iv := base64_encode nonce' |}, w2)
    /\ length nonce = 12%nat
    /\ drawn w1 = (drawn w + 12)%nat
    /\ drawn w2 = (drawn w + 24)%nat
    /\ file w2 = file w.
Proof.
  intros Hk Hk' nonce nonce'. subst nonce nonce'. do 2 eexists.
  split; [by apply encryptValue_run|]. split; [by apply encryptValue_run|].
  world_fields. rewrite length_map, length_seq.
  repeat split; lia.
Qed.

Lemma nonces_are_fresh_witness :
  let w := Samples.fresh_world in
  let key := {| algorithm := AES_GCM 256; extractable := false;
                usages := [UsageEncrypt; UsageDecrypt];
                material := repeat Byte.x02 32 |} in
  let nonce := map (entropy w) (seq (drawn w) 12) in
  let nonce' := map (entropy w) (seq (drawn w + 12) 12) in
  exists w1 w2,
    @Crypto.encryptValue Reference.platform (js "v1") key w
    = (Ok {| EncryptedResult.encrypted :=
               @base64_encode Reference.platform
                 (@aes_gcm_seal Reference.platform (material key) nonce
                    (TextEncoder_encode (js "v1")));
             EncryptedResult.iv := @base64_encode Reference.platform nonce |}, w1)
    /\ @Crypto.encryptValue Reference.platform (js "v2") key w1
       = (Ok {| EncryptedResult.encrypted :=
                  @base64_encode Reference.platform
                    (@aes_gcm_seal Reference.platform (material key) nonce'
                       (TextEncoder_encode (js "v2")));
                EncryptedResult.iv := @base64_encode Reference.platform nonce' |}, w2)
    /\ length nonce = 12%nat
    /\ drawn w1 = (drawn w + 12)%nat
    /\ drawn w2 = (drawn w + 24)%nat
    /\ file w2 = file w.
Proof.
  apply (nonces_are_fresh (H := Reference.platform) (js "v1") (js "v2")
           {| algorithm := AES_GCM 256; extractable := false;
              usages := [UsageEncrypt; UsageDecrypt];
              material := repeat Byte.x02 32 |}
           {| algorithm := AES_GCM 256; extractable := false;
              usages := [UsageEncrypt; UsageDecrypt];
              material := repeat Byte.x02 32 |}
           Samples.fresh_world).
  - reflexivity.
  - reflexivity.
Defined.

(** ** What [set] and the readers hand to [subtle.deriveKey] *)

Lemma to_scalars_plain c s :
  is_lead_surrogate c = false -> is_trail_surrogate c = false ->
  to_scalars (c :: s) = c :: to_scalars s.
Proof. intros Hl Ht. rewrite to_scalars_cons. by rewrite Hl, Ht. Qed.

Lemma to_scalars_app_bounded n s c t :
  (length s <= n)%nat ->
  is_trail_surrogate c = false ->
  to_scalars (s ++ c :: t) = to_scalars s ++ to_scalars (c :: t).
Proof.
  intros Hn Hc. revert s Hn. induction n as [|n IH]; intros s Hn.
  { destruct s; [done|cbn in Hn; lia]. }
  destruct s as [|a s]; [done|].
  change ((a :: s) ++ c :: t) with (a :: (s ++ c :: t)).
  rewrite (to_scalars_cons a (s ++ c :: t)), (to_scalars_cons a s).
  cbn [length] in Hn.
  destruct (is_lead_surrogate a).
  - destruct s as [|d s].
    + cbn [app]. by rewrite Hc.
    + cbn [app length] in *. destruct (is_trail_surrogate d).
      * rewrite IH by lia. reflexivity.
      * change (d :: s ++ c :: t) with ((d :: s) ++ c :: t).
        rewrite IH by (cbn [length]; lia). reflexivity.
  - destruct (is_trail_surrogate a); rewrite IH by lia; reflexivity.
Qed.

Lemma to_scalars_app s c t :
  is_trail_surrogate c = false ->
  to_scalars (s ++ c :: t) = to_scalars s ++ to_scalars (c :: t).
Proof. by apply (to_scalars_app_bounded (length s)). Qed.

Lemma length_utf8_encode_app a b :
  length (utf8_encode (a ++ b))
  = (length (utf8_encode a) + length (utf8_encode b))%nat.
Proof. unfold utf8_encode. by rewrite map_app, concat_app, length_app. Qed.

Lemma length_TextEncoder_encode s :
  length (TextEncoder_encode s) = length (utf8_encode (to_scalars s)).
Proof. unfold TextEncoder_encode. by rewrite length_map. Qed.

Lemma length_utf8_encode_cons c cs :
  (length (utf8_encode cs) < length (utf8_encode (c :: cs)))%nat.
Proof.
  unfold utf8_encode. cbn [map concat]. rewrite length_app.
  unfold utf8_encode_scalar. repeat destruct (_ <=? _); cbn [length]; lia.
Qed.

(** The UTF-8 encoding of an identifier between a prefix and a suffix that
    begins with a character that is no trail surrogate is longer than that of
    the identifier alone. *)
Lemma encode_framed_longer (prefix : jsstring) c suffix id :
  forallb (fun c => negb (is_lead_surrogate c) && negb (is_trail_surrogate c)) prefix
  = true ->
  is_trail_surrogate c = false ->
  (length (TextEncoder_encode id)
   < length (TextEncoder_encode (prefix ++ id ++ c :: suffix)))%nat.
Proof.
  intros Hp Hc. rewrite !length_TextEncoder_encode.
  induction prefix as [|p prefix IH].
  - cbn [app]. rewrite to_scalars_app, length_utf8_encode_app by done.
    assert (0 < length (utf8_encode (to_scalars (c :: suffix))))%nat; [|lia].
    cbn [to_scalars].
    destruct (is_lead_surrogate c).
    + destruct suffix as [|d suffix]; [cbn; lia|].
      destruct (is_trail_surrogate d);
        match goal with
        | |- (0 < length (utf8_encode (?x :: ?l)))%nat =>
            pose proof (length_utf8_encode_cons x l); lia
        end.
    + rewrite Hc.
      match goal with
      | |- (0 < length (utf8_encode (?x :: ?l)))%nat =>
          pose proof (length_utf8_encode_cons x l); lia
      end.
  - cbn [forallb] in Hp. apply andb_prop in Hp as [Hp Hps].
    apply andb_prop in Hp as [Hl Ht].
    apply negb_true_iff in Hl, Ht.
    cbn [app]. rewrite to_scalars_plain by done.
    pose proof (length_utf8_encode_cons p (to_scalars (prefix ++ id ++ c :: suffix))).
    specialize (IH Hps). lia.
Qed.

Lemma credentialId_framed id now :
  exists suffix,
    js "fido2-" ++ (js "openclaw-" ++ id) ++ js "-" ++ decimal now
    = js "fido2-openclaw-" ++ id ++ 0x2D :: suffix
    /\ forallb (fun c => negb (is_lead_surrogate c) && negb (is_trail_surrogate c))
         (js "fido2-openclaw-") = true.
Proof.
  exists (decimal now). split; [|by vm_compute].
  assert (js "fido2-" = [0x66; 0x69; 0x64; 0x6F; 0x32; 0x2D]) as -> by by vm_compute.
  assert (js "openclaw-" = [0x6F; 0x70; 0x65; 0x6E; 0x63; 0x6C; 0x61; 0x77; 0x2D])
    as -> by by vm_compute.
  assert (js "-" = [0x2D]) as -> by by vm_compute.
  assert (js "fido2-openclaw-"
          = [0x66; 0x69; 0x64; 0x6F; 0x32; 0x2D;
             0x6F; 0x70; 0x65; 0x6E; 0x63; 0x6C; 0x61; 0x77; 0x2D])
    as -> by by vm_compute.
  cbn [app]. reflexivity.
Qed.

Lemma ikm_length a b publicKey :
  length (TextEncoder_encode a) <> length (TextEncoder_encode b) ->
  ikm a publicKey <> ikm b publicKey.
Proof.
  intros Hne Heq. apply (f_equal length) in Heq. unfold ikm in Heq.
  rewrite !length_app in Heq. lia.
Qed.

Lemma ikm_differ id now publicKey :
  ikm (js "fido2-" ++ (js "openclaw-" ++ id) ++ js "-" ++ decimal now) publicKey
  <> ikm id publicKey.
Proof.
  destruct (credentialId_framed id now) as (suffix & -> & Hp).
  apply ikm_length.
  pose proof (encode_framed_longer (js "fido2-openclaw-") 0x2D suffix id Hp eq_refl)
    as Hlt.
  intros Heq. rewrite Heq in Hlt. by apply Nat.lt_irrefl in Hlt.
Qed.

(** [X21] What [setKey] hands to [subtle.deriveKey] as base key is not what
    the readers hand over for a record of the same identifier: [setKey]
    takes the UTF-8 bytes of the identifier of the credential it has
    enrolled, [getKeyValue] and [resolveSecretKey] those of the record's
    [id], each followed by the public key, and the two byte sequences
    differ, whatever the identifier, the clock and the public key.  A key
    derived at set time would not be the key derived at resolve time. *)
Theorem set_and_readers_hand_over_different_base_keys `{Platform}
    (id label value : jsstring) (keys : list Json) (k : Json)
    (publicKey : bytes) (w w' : World) :
  loaded (file w') = Some keys ->
  find_by_id id keys = Ok (Some k) ->
  displayable (property k (js "label")) = true ->
  hardware_bound k = true ->
  Buffer_bytes (property k (js "credentialPublicKey")) = Ok publicKey ->
  let credentialId := mock_credentialId id (clock w (ticks w)) in
  trace (snd (Cli.setKey id label value w))
  = trace w ++ [ CreateCredential (js "openclaw-" ++ id)
                   (label ++ js " (" ++ id ++ js ")");
                 derivation credentialId (repeat Byte.x00 65) ]
  /\ trace (snd (Cli.getKeyValue id w'))
     = trace w' ++ [ReadFile; derivation id publicKey]
  /\ trace (snd (Resolver.resolveSecretKey id k w'))
     = trace w' ++ [ GetCredential (asserted_credential id k)
                       (map (entropy w') (seq (drawn w') 32));
                     derivation id publicKey ]
  /\ ikm credentialId publicKey <> ikm id publicKey.
Proof.
  intros Hl Hf Hd Hk Hpk credentialId. subst credentialId. split; [|split; [|split]].
  - rewrite setKey_run. world_fields. apply snoc_two.
  - rewrite (getKeyValue_found id keys k w' Hl Hf Hd), Hk, Hpk. world_fields.
    apply snoc_two.
  - destruct (resolveSecretKey_run id k w') as (w1 & -> & Hlook).
    destruct (find_by_id_has_id _ _ _ Hf) as [_ Hnn].
    rewrite resolution_events_not_null, Hk, Hpk in Hlook by done.
    by destruct Hlook as (_ & _ & _ & _ & _ & _ & _ & ? & _).
  - apply ikm_differ.
Qed.

Lemma set_and_readers_hand_over_different_base_keys_witness :
  let w := Samples.stocked_world (fun _ => true) in
  let publicKey := repeat Byte.x00 65 in
  let credentialId := mock_credentialId (js "a") (clock w (ticks w)) in
  trace (snd (@Cli.setKey Reference.platform (js "a") (js "A") (js "v2") w))
  = trace w ++ [ CreateCredential (js "openclaw-" ++ js "a")
                   (js "A" ++ js " (" ++ js "a" ++ js ")");
                 derivation credentialId (repeat Byte.x00 65) ]
  /\ trace (snd (@Cli.getKeyValue Reference.platform (js "a") w))
     = trace w ++ [ReadFile; derivation (js "a") publicKey]
  /\ trace (snd (@Resolver.resolveSecretKey Reference.platform (js "a")
                   Samples.sealed_key w))
     = trace w ++ [ GetCredential (asserted_credential (js "a") Samples.sealed_key)
                      (map (entropy w) (seq (drawn w) 32));
                    derivation (js "a") publicKey ]
  /\ ikm credentialId publicKey <> ikm (js "a") publicKey.
Proof.
  apply (set_and_readers_hand_over_different_base_keys (H := Reference.platform)
           (js "a") (js "A") (js "v2") [Samples.sealed_key; Samples.legacy_key]
           Samples.sealed_key (repeat Byte.x00 65)
           (Samples.stocked_world (fun _ => true))
           (Samples.stocked_world (fun _ => true))).
  - reflexivity.
  - vm_compute. reflexivity.
  - vm_compute. reflexivity.
  - vm_compute. reflexivity.
  - vm_compute. reflexivity.
Defined.

(** ** Failures *)

(** [X22] When standard input holds no data at all, it is read as the empty
    object, which fails on its missing protocol version; when it holds text
    that [JSON.parse] rejects, [readRequest] fails with the parser's message.
    Either way the resolver answers with exit code 1 and the single [_system]
    error, and leaves the world as it was: the store is not read. *)
Theorem unusable_input_is_fatal `{Platform} (syntax_error : jsstring) (w : World) :
  Resolver.main Resolver.NoData w
  = ({| Resolver.stdout :=
          fatal_response (js "不支持的协议版本: " ++ js "undefined" ++ js ", 支持: "
                          ++ js "1");
        Resolver.exit_code := 1 |}, w)
  /\ Resolver.main (Resolver.Malformed syntax_error) w
     = ({| Resolver.stdout := fatal_response (js "无效的 JSON 请求: " ++ syntax_error);
           Resolver.exit_code := 1 |}, w).
Proof. split; vm_compute; reflexivity. Qed.
